(** * Rebalancer: the decision engine of [rebalance-bot.js] and the
      configuration route of [web-server.js]

    A shallow embedding of [RebalanceBot] (weight calculation, deviation
    detection, the three trading phases of [rebalance], the HODL comparison
    and the price cache) and of the [POST /api/config] handler.

    Numbers.  A JavaScript number is modelled by [num]: a rational, the two
    infinities, or NaN.  The special values follow IEEE 754 (NaN is
    absorbing, comparisons with NaN are false, [x / 0] is infinite or NaN);
    arithmetic on finite values is exact, so rounding is abstracted, and
    zero carries no sign.

    Objects.  A JavaScript object used as a map from token symbols to
    numbers is an association list in insertion order, which is the order
    of [Object.keys] and of [for ... in] for keys that are not array
    indices.  A missing key reads as [undefined], which every arithmetic
    use turns into NaN. *)

From Stdlib Require Import QArith Qreduction Qabs Qminmax ZArith.
From Stdlib Require Import List String Bool Lia Lqa.
From Stdlib Require Import Sorting.Sorted Sorting.Permutation.
From Stdlib Require PrimFloat.
Import ListNotations.

Local Open Scope Q_scope.

(** ** Rationals: boolean strict order *)

Definition Qltb (x y : Q) : bool := negb (Qle_bool y x).

(** ** JavaScript numbers *)

Inductive num : Type :=
| Fin (q : Q)
| PInf
| NInf
| NaN.

Declare Scope num_scope.
Delimit Scope num_scope with num.
Bind Scope num_scope with num.

Module Num.

Definition zero : num := Fin 0.
Definition one : num := Fin 1.

(** Sign of a number that is not NaN, as a [comparison] with zero. *)
Definition sgn (x : num) : comparison :=
  match x with
  | Fin q => q ?= 0
  | PInf => Gt
  | NInf => Lt
  | NaN => Eq
  end.

Definition smul (a b : comparison) : comparison :=
  match a with
  | Eq => Eq
  | Gt => b
  | Lt => CompOpp b
  end.

(** The infinity of a given sign; [0 * Infinity] and [0 / 0] are NaN. *)
Definition inf_of (c : comparison) : num :=
  match c with
  | Gt => PInf
  | Lt => NInf
  | Eq => NaN
  end.

Definition isNaN (x : num) : bool :=
  match x with NaN => true | _ => false end.

Definition add (x y : num) : num :=
  match x, y with
  | NaN, _ | _, NaN => NaN
  | Fin a, Fin b => Fin (Qred (a + b))
  | PInf, NInf | NInf, PInf => NaN
  | PInf, _ | _, PInf => PInf
  | NInf, _ | _, NInf => NInf
  end.

Definition sub (x y : num) : num :=
  match x, y with
  | NaN, _ | _, NaN => NaN
  | Fin a, Fin b => Fin (Qred (a - b))
  | PInf, PInf | NInf, NInf => NaN
  | PInf, _ | _, NInf => PInf
  | NInf, _ | _, PInf => NInf
  end.

Definition mul (x y : num) : num :=
  match x, y with
  | NaN, _ | _, NaN => NaN
  | Fin a, Fin b => Fin (Qred (a * b))
  | _, _ => inf_of (smul (sgn x) (sgn y))
  end.

(** Division.  A zero divisor counts as [+0]. *)
Definition div (x y : num) : num :=
  match x, y with
  | NaN, _ | _, NaN => NaN
  | Fin a, Fin b =>
      if Qeq_bool b 0 then inf_of (a ?= 0) else Fin (Qred (a / b))
  | Fin _, _ => Fin 0
  | _, Fin b => inf_of (smul (sgn x) (if Qeq_bool b 0 then Gt else b ?= 0))
  | _, _ => NaN
  end.

Definition abs (x : num) : num :=
  match x with
  | Fin a => Fin (Qred (Qabs a))
  | PInf | NInf => PInf
  | NaN => NaN
  end.

(** [x < y]; false as soon as one side is NaN. *)
Definition ltb (x y : num) : bool :=
  match x, y with
  | NaN, _ | _, NaN => false
  | Fin a, Fin b => Qltb a b
  | NInf, NInf | PInf, _ | _, NInf => false
  | NInf, _ | _, PInf => true
  end.

(** [x <= y]; false as soon as one side is NaN. *)
Definition leb (x y : num) : bool :=
  match x, y with
  | NaN, _ | _, NaN => false
  | Fin a, Fin b => Qle_bool a b
  | NInf, _ | _, PInf => true
  | PInf, _ | _, NInf => false
  end.

Definition gtb (x y : num) : bool := ltb y x.
Definition geb (x y : num) : bool := leb y x.

(** [x === y] on numbers. *)
Definition eqb (x y : num) : bool :=
  match x, y with
  | Fin a, Fin b => Qeq_bool a b
  | PInf, PInf | NInf, NInf => true
  | _, _ => false
  end.

(** [Math.min(x, y)]. *)
Definition min (x y : num) : num :=
  match x, y with
  | NaN, _ | _, NaN => NaN
  | _, _ => if ltb y x then y else x
  end.

(** Truthiness of a number: everything but [0] and NaN. *)
Definition truthy (x : num) : bool :=
  match x with
  | Fin a => negb (Qeq_bool a 0)
  | PInf | NInf => true
  | NaN => false
  end.

(** [x || d] *)
Definition or_else (x d : num) : num := if truthy x then x else d.

Definition finite (x : num) : Prop := exists q, x = Fin q.

(** A finite number that is at least zero. *)
Definition nonneg (x : num) : Prop := exists q, x = Fin q /\ 0 <= q.

(** A finite number above zero. *)
Definition positive (x : num) : Prop := exists q, x = Fin q /\ 0 < q.

End Num.

Notation "x + y" := (Num.add x y) : num_scope.
Notation "x - y" := (Num.sub x y) : num_scope.
Notation "x * y" := (Num.mul x y) : num_scope.
Notation "x / y" := (Num.div x y) : num_scope.
Notation "x <? y" := (Num.ltb x y) : num_scope.
Notation "x <=? y" := (Num.leb x y) : num_scope.
Notation "x >? y" := (Num.gtb x y) : num_scope.
Notation "x >=? y" := (Num.geb x y) : num_scope.

Local Open Scope string_scope.
Local Open Scope num_scope.

(** ** JavaScript objects keyed by token symbol *)

Definition obj : Type := list (string * num).

Module Obj.

(** [Object.keys(o)] *)
Definition keys (o : obj) : list string := map fst o.

(** [Object.values(o)] *)
Definition values (o : obj) : list num := map snd o.

(** [o[k]], with [None] for [undefined]. *)
Fixpoint lookup (o : obj) (k : string) : option num :=
  match o with
  | [] => None
  | (k', v) :: o' => if String.eqb k k' then Some v else lookup o' k
  end.

(** [o[k]] read in an arithmetic position: [undefined] becomes NaN. *)
Definition get (o : obj) (k : string) : num :=
  match lookup o k with
  | Some v => v
  | None => NaN
  end.

(** [o[k] = v]: overwrite in place, or add the key last. *)
Fixpoint set (o : obj) (k : string) (v : num) : obj :=
  match o with
  | [] => [(k, v)]
  | (k', v') :: o' =>
      if String.eqb k k' then (k', v) :: o' else (k', v') :: set o' k v
  end.

(** [{ ...a, ...b }] *)
Definition spread (a b : obj) : obj :=
  fold_left (fun acc kv => set acc (fst kv) (snd kv)) b a.

(** An object has each key once. *)
Definition wf (o : obj) : Prop := NoDup (keys o).

End Obj.

(** Sum of a list of numbers, left to right from [0], as [reduce] does. *)
Definition sum (l : list num) : num := fold_left Num.add l Num.zero.

(** ** The bot *)

(** [this.priceCache].  The field [maxAge] may be missing from the object. *)
Record cache : Type := mkCache {
  cache_prices : obj;
  cache_timestamp : Z;
  cache_maxAge : option Z
}.

(** The fields of [RebalanceBot] that the decision engine reads or writes. *)
Record bot : Type := mkBot {
  weights : obj;
  deviationThreshold : num;
  minTradeUSD : num;
  baseToken : string;
  initialBalances : obj;
  lastKnownPrices : obj;
  priceCache : cache
}.

(** *** Weight calculator *)

Section Weights.

Variables (balances prices : obj).

(** [balances[token] * prices[token]] *)
Definition value_of (token : string) : num :=
  Obj.get balances token * Obj.get prices token.

(** The total of [calculateWeights]: a NaN product counts as [0]. *)
Definition weights_total : num :=
  fold_left
    (fun sum token =>
       let value := value_of token in
       sum + (if Num.isNaN value then Num.zero else value))
    (Obj.keys balances) Num.zero.

Definition calculateWeights : obj :=
  let totalValue := weights_total in
  if Num.eqb totalValue Num.zero then
    map (fun token => (token, Num.zero)) (Obj.keys balances)
  else
    map (fun token =>
           let weight := Num.or_else (value_of token / totalValue) Num.zero in
           (token, weight))
        (Obj.keys balances).

(** The total of [rebalance] and of [calculateHodlComparison]: a plain
    sum, NaN included. *)
Definition portfolio_value : num :=
  fold_left (fun sum t => sum + value_of t) (Obj.keys balances) Num.zero.

End Weights.

(** *** Baseline tracker *)

Record comparison_report : Type := mkReport {
  currentValue : num;
  hodlValue : num;
  initialValue : num;
  rebalanceGainLoss : num;
  hodlGainLoss : num;
  rebalanceVsHodl : num;
  rebalanceGainLossPercent : num;
  hodlGainLossPercent : num;
  rebalanceVsHodlPercent : num
}.

Definition hundred : num := Fin 100.

(** [calculateHodlComparison]; the day count, which reads the clock, is
    left out. *)
Definition calculateHodlComparison (this : bot) (currentBalances currentPrices : obj)
  : comparison_report :=
  let currentValue := portfolio_value currentBalances currentPrices in
  let hodlValue := portfolio_value (initialBalances this) currentPrices in
  let initialValue :=
    if (0 <? List.length (Obj.keys (lastKnownPrices this)))%nat then
      fold_left
        (fun sum token =>
           sum + Obj.get (initialBalances this) token
                 * Num.or_else (Obj.get (lastKnownPrices this) token)
                               (Obj.get currentPrices token))
        (Obj.keys (initialBalances this)) Num.zero
    else hodlValue in
  let rebalanceGainLoss := currentValue - initialValue in
  let hodlGainLoss := hodlValue - initialValue in
  let rebalanceVsHodl := currentValue - hodlValue in
  {| currentValue := currentValue;
     hodlValue := hodlValue;
     initialValue := initialValue;
     rebalanceGainLoss := rebalanceGainLoss;
     hodlGainLoss := hodlGainLoss;
     rebalanceVsHodl := rebalanceVsHodl;
     rebalanceGainLossPercent :=
       if initialValue >? Num.zero
       then rebalanceGainLoss / initialValue * hundred else Num.zero;
     hodlGainLossPercent :=
       if initialValue >? Num.zero
       then hodlGainLoss / initialValue * hundred else Num.zero;
     rebalanceVsHodlPercent :=
       if hodlValue >? Num.zero
       then rebalanceVsHodl / hodlValue * hundred else Num.zero |}.

(** *** Price cache *)

Definition symbolMap : list (string * string) :=
  [("cbBTC", "BTCUSDT"); ("WETH", "ETHUSDT"); ("cbXRP", "XRPUSDT");
   ("cbADA", "ADAUSDT"); ("cbDOGE", "DOGEUSDT"); ("AAVE", "AAVEUSDT")].

(** [reverseMap[symbol]] *)
Definition reverseMap (symbol : string) : option string :=
  option_map fst (find (fun kv => String.eqb (snd kv) symbol) symbolMap).

(** One entry of the ticker response: its symbol and its parsed price. *)
Definition ticker : Type := (string * num)%type.

(** What the HTTP request of [getPricesFromBinance] comes back with: the
    ticker list, or nothing when the request throws or is not [ok]. *)
Definition response : Type := option (list ticker).

Definition set_prices (this : bot) (c : cache) (lk : obj) : bot :=
  {| weights := weights this;
     deviationThreshold := deviationThreshold this;
     minTradeUSD := minTradeUSD this;
     baseToken := baseToken this;
     initialBalances := initialBalances this;
     lastKnownPrices := lk;
     priceCache := c |}.

(** [getPricesFromBinance]; [now] is the clock read after the response. *)
Definition getPricesFromBinance (this : bot) (r : response) (now : Z)
  : option obj * bot :=
  match r with
  | None => (None, this)
  | Some data =>
      let prices :=
        fold_left
          (fun prices (tk : ticker) =>
             match reverseMap (fst tk) with
             | Some token => Obj.set prices token (snd tk)
             | None => prices
             end)
          data [] in
      if (6 <=? List.length (Obj.keys prices))%nat then
        (Some prices,
         set_prices this
           {| cache_prices := prices; cache_timestamp := now; cache_maxAge := None |}
           (Obj.spread (lastKnownPrices this) prices))
      else (None, this)
  end.

(** The test [timestamp && (now - timestamp) < maxAge]: a zero timestamp is
    falsy, and a comparison with a missing [maxAge] is false. *)
Definition cache_fresh (c : cache) (now : Z) : bool :=
  negb (cache_timestamp c =? 0)%Z
  && match cache_maxAge c with
     | Some maxAge => (now - cache_timestamp c <? maxAge)%Z
     | None => false
     end.

Record prices_result : Type := mkPricesResult {
  returned : option obj;      (* the price map, or [null] *)
  fetched : bool;             (* whether the primary source was asked *)
  after : bot
}.

(** [getPrices]; [now] is the clock at entry, [r] and [now'] the response
    and the clock of the fetch, used only when a fetch is made. *)
Definition getPrices (this : bot) (now : Z) (r : response) (now' : Z)
  : prices_result :=
  if cache_fresh (priceCache this) now then
    {| returned := Some (cache_prices (priceCache this));
       fetched := false; after := this |}
  else
    let '(prices, this1) := getPricesFromBinance this r now' in
    match prices with
    | Some p =>
        {| returned := Some p; fetched := true;
           after := set_prices this1 (priceCache this1)
                      (Obj.spread (lastKnownPrices this1) p) |}
    | None =>
        if (0 <? List.length (Obj.keys (lastKnownPrices this1)))%nat then
          {| returned := Some (lastKnownPrices this1);
             fetched := true; after := this1 |}
        else {| returned := None; fetched := true; after := this1 |}
    end.

(** *** Configuration *)

Definition tokens : list string :=
  ["cbBTC"; "WETH"; "cbXRP"; "cbADA"; "cbDOGE"; "AAVE"].

(** The environment variable [CUSTOM_WEIGHTS] as the constructor sees it. *)
Inductive custom_weights : Type :=
| Unset                       (* absent or empty *)
| Unparsable                  (* [JSON.parse] throws *)
| Parsed (w : obj).

Definition equal_allocation : obj :=
  map (fun token => (token, Num.one / Fin (inject_Z (Z.of_nat (List.length tokens)))))
      tokens.

Definition initial_cache : cache :=
  {| cache_prices := []; cache_timestamp := 0;
     cache_maxAge := Some (5 * 60 * 1000)%Z |}.

(** The constructor, for the fields above.  [threshold] and [minTrade] are
    the results of [parseFloat] on the two environment variables (NaN when
    unset); [baseline] is the snapshot after [loadData].  The last-known
    prices are reset to the empty object after [loadData] has run. *)
Definition constructor (cw : custom_weights) (threshold minTrade : num)
    (baseline : obj) : bot :=
  {| weights := match cw with Parsed w => w | _ => equal_allocation end;
     deviationThreshold := Num.or_else threshold (Fin (5 # 100));
     minTradeUSD := Num.or_else minTrade (Fin 5);
     baseToken := "WETH";
     initialBalances := baseline;
     lastKnownPrices := [];
     priceCache := initial_cache |}.

(** The body of [POST /api/config]. *)
Record config_request : Type := mkRequest {
  req_deviationThreshold : option num;
  req_minTradeUSD : option num;
  req_customWeights : option obj
}.

Inductive http_response : Type :=
| Status200
| Status400.

Definition with_config (this : bot) (thr mt : num) (w : obj) : bot :=
  {| weights := w;
     deviationThreshold := thr;
     minTradeUSD := mt;
     baseToken := baseToken this;
     initialBalances := initialBalances this;
     lastKnownPrices := lastKnownPrices this;
     priceCache := priceCache this |}.

Definition post_config (server_bot : option bot) (req : config_request)
  : http_response * option bot :=
  match server_bot with
  | None => (Status400, None)
  | Some this =>
      let thr := match req_deviationThreshold req with
                 | Some d => d / hundred
                 | None => deviationThreshold this
                 end in
      let mt := match req_minTradeUSD req with
                | Some m => m
                | None => minTradeUSD this
                end in
      match req_customWeights req with
      | Some customWeights =>
          let totalWeight := sum (Obj.values customWeights) in
          if Num.abs (totalWeight - Num.one) >? Fin (1 # 100) then
            (Status400, Some (with_config this thr mt (weights this)))
          else (Status200, Some (with_config this thr mt customWeights))
      | None => (Status200, Some (with_config this thr mt (weights this)))
      end
  end.

(** *** Trade planner *)

Record trade : Type := mkTrade { token : string; diff : num }.

Record overweight : Type := mkOverweight {
  o_token : string;
  o_diff : num;
  excessValue : num;
  o_currentValue : num;
  o_targetValue : num
}.

(** How a call of [swap] ended: at the same-token guard, with [false] from
    the exchange leg (allowance, quote, signature, order), or with [true]. *)
Inductive outcome : Type :=
| SameToken
| Failed
| Filled.

(** What a pass does that can be observed, in the order it happens. *)
Inductive event : Type :=
| SellTrade (t : trade)                        (* "Processing SELL trade" *)
| BaseUnderweight (needed : num)               (* "Need ... more WETH value" *)
| BuyTrade (t : trade)                         (* "Processing BUY trade" *)
| SwapCall (from to : string) (amount : num) (r : outcome)
| Store (tok : string) (v : num)               (* [balances[tok] = v] *)
| Skip (tok : string) (amount : num)           (* a trade left out, with the amount logged *)
| Done (rebalanced : bool).                    (* "Rebalanced portfolio" or "no rebalance needed" *)

(** The mutable part of a pass: the [balances] object, and how many times
    the exchange leg has been entered. *)
Record state : Type := mkState { balances : obj; attempts : nat }.

(** Computations that read and write the state and emit events. *)
Definition M (A : Type) : Type := state -> A * state * list event.

Definition ret {A} (a : A) : M A := fun s => (a, s, []).

Definition bind {A B} (c : M A) (k : A -> M B) : M B :=
  fun s =>
    let '(a, s1, e1) := c s in
    let '(b, s2, e2) := k a s1 in
    (b, s2, (e1 ++ e2)%list).

Notation "x <- c ;; k" := (bind c (fun x => k))
  (at level 61, c at next level, right associativity).
Notation "c ;;; k" := (bind c (fun _ => k))
  (at level 61, right associativity).

Definition log (e : event) : M unit := fun s => (tt, s, [e]).

Definition read (tok : string) : M num :=
  fun s => (Obj.get (balances s) tok, s, []).

Definition write (tok : string) (v : num) : M unit :=
  fun s => (tt, {| balances := Obj.set (balances s) tok v;
                   attempts := attempts s |}, [Store tok v]).

Fixpoint forEach {A} (l : list A) (body : A -> M unit) : M unit :=
  match l with
  | [] => ret tt
  | x :: l' => body x ;;; forEach l' body
  end.

(** [Array.prototype.sort] with a comparator: [x] goes after [y] when
    [cmp x y > 0], and a NaN from the comparator counts as [0].  The sort is
    stable; it is written here as an insertion sort, which gives the order
    any engine gives when the comparator is consistent. *)
Section Sort.

Context {A : Type} (cmp : A -> A -> num).

Fixpoint insert (x : A) (l : list A) : list A :=
  match l with
  | [] => [x]
  | y :: l' => if cmp x y >? Num.zero then y :: insert x l' else x :: l
  end.

Definition sort (l : list A) : list A := fold_right insert [] l.

End Sort.

Definition sell_dust : num := Fin (1 # 100000).
Definition buy_dust : num := Fin (1 # 10000).
Definition slippage_factor : num := Fin (98 # 100).

Section Rebalance.

(** The bot, the outcomes of the exchange leg in the order it is entered,
    and the arguments of [rebalance] that are only read. *)
Variables (this : bot) (exchange : nat -> bool).
Variables (currentWeights prices : obj) (totalValue : num).

Definition swap (fromToken toToken : string) (amount : num) : M bool :=
  fun s =>
    if String.eqb fromToken toToken then
      (false, s, [SwapCall fromToken toToken amount SameToken])
    else
      let ok := exchange (attempts s) in
      (ok, {| balances := balances s; attempts := S (attempts s) |},
       [SwapCall fromToken toToken amount (if ok then Filled else Failed)]).

(** The deviation detector: the loop that fills [trades]. *)
Definition detect : list trade :=
  flat_map
    (fun token =>
       let diff := Obj.get currentWeights token - Obj.get (weights this) token in
       let valueDiff := diff * totalValue in
       if Num.abs diff >? deviationThreshold this then
         if Num.abs valueDiff >? minTradeUSD this then [mkTrade token diff]
         else []
       else [])
    (Obj.keys currentWeights).

Definition sellTrades (trades : list trade) : list trade :=
  sort (fun a b => diff b - diff a)
       (filter (fun t => diff t >? Num.zero) trades).

Definition buyTrades (trades : list trade) : list trade :=
  sort (fun a b => diff a - diff b)
       (filter (fun t => diff t <? Num.zero) trades).

(** One turn of the sell loop. *)
Definition sell_step (t : trade) : M unit :=
  log (SellTrade t) ;;;
  balance <- read (token t) ;;
  let currentValue := balance * Obj.get prices (token t) in
  let targetValue := totalValue * Obj.get (weights this) (token t) in
  let excessValue := currentValue - targetValue in
  let sellAmount := excessValue / Obj.get prices (token t) in
  if sellAmount >=? sell_dust then
    swapSuccess <- swap (token t) (baseToken this) sellAmount ;;
    if swapSuccess : bool then
      balance <- read (token t) ;;
      write (token t) (balance - sellAmount) ;;;
      let wethReceived :=
        excessValue / Obj.get prices (baseToken this) * slippage_factor in
      base <- read (baseToken this) ;;
      write (baseToken this) (base + wethReceived)
    else ret tt
  else log (Skip (token t) sellAmount).

(** The tokens above their target weight, flagged or not, with the excess
    computed on the balances as they are now. *)
Definition overweightTokens : M (list overweight) :=
  fun s =>
    (flat_map
       (fun token =>
          if String.eqb token (baseToken this) then []
          else
            let diff := Obj.get currentWeights token - Obj.get (weights this) token in
            if diff >? Num.zero then
              let currentValue := Obj.get (balances s) token * Obj.get prices token in
              let targetValue := totalValue * Obj.get (weights this) token in
              [mkOverweight token diff (currentValue - targetValue)
                            currentValue targetValue]
            else [])
       (Obj.keys currentWeights),
     s, []).

(** One turn of the loop over the overweight tokens, after the [break]
    test; it returns the need that remains. *)
Definition deficit_step (o : overweight) (remainingNeeded : num) : M num :=
  let sellValue := Num.min (excessValue o) remainingNeeded in
  if sellValue >? minTradeUSD this then
    let sellAmount := sellValue / Obj.get prices (o_token o) in
    swapSuccess <- swap (o_token o) (baseToken this) sellAmount ;;
    if swapSuccess : bool then
      balance <- read (o_token o) ;;
      write (o_token o) (balance - sellAmount) ;;;
      let wethReceived :=
        sellValue / Obj.get prices (baseToken this) * slippage_factor in
      base <- read (baseToken this) ;;
      write (baseToken this) (base + wethReceived) ;;;
      ret (remainingNeeded - sellValue)
    else ret remainingNeeded
  else
    log (Skip (o_token o) sellValue) ;;;
    ret remainingNeeded.

(** The loop over the sorted overweight tokens, with its [break]. *)
Fixpoint deficit_loop (l : list overweight) (remainingNeeded : num) : M unit :=
  match l with
  | [] => ret tt
  | o :: l' =>
      if remainingNeeded <=? Num.one then ret tt
      else
        remainingNeeded' <- deficit_step o remainingNeeded ;;
        deficit_loop l' remainingNeeded'
  end.

(** The base-token phase, entered when the base token is a buy trade. *)
Definition deficit_phase : M unit :=
  base <- read (baseToken this) ;;
  let currentWethValue := base * Obj.get prices (baseToken this) in
  let targetWethValue := totalValue * Obj.get (weights this) (baseToken this) in
  let neededWethValue := targetWethValue - currentWethValue in
  log (BaseUnderweight neededWethValue) ;;;
  candidates <- overweightTokens ;;
  deficit_loop
    (sort (fun a b => excessValue b - excessValue a) candidates)
    neededWethValue.

(** One turn of the buy loop. *)
Definition buy_step (t : trade) : M unit :=
  log (BuyTrade t) ;;;
  if String.eqb (token t) (baseToken this) then
    log (Skip (token t) Num.zero)
  else
    balance <- read (token t) ;;
    let currentValue := balance * Obj.get prices (token t) in
    let targetValue := totalValue * Obj.get (weights this) (token t) in
    let neededValue := targetValue - currentValue in
    let wethAmount := neededValue / Obj.get prices (baseToken this) in
    if wethAmount >=? buy_dust then
      base <- read (baseToken this) ;;
      if base >=? wethAmount then
        swapSuccess <- swap (baseToken this) (token t) wethAmount ;;
        if swapSuccess : bool then
          base <- read (baseToken this) ;;
          write (baseToken this) (base - wethAmount)
        else ret tt
      else log (Skip (token t) wethAmount)
    else log (Skip (token t) wethAmount).

Definition sell_phase (trades : list trade) : M unit :=
  forEach (sellTrades trades) sell_step.

Definition base_phase (trades : list trade) : M unit :=
  match find (fun t => String.eqb (token t) (baseToken this)) (buyTrades trades) with
  | Some _ => deficit_phase
  | None => ret tt
  end.

Definition buy_phase (trades : list trade) : M unit :=
  forEach (buyTrades trades) buy_step.

Definition run_trades (trades : list trade) : M unit :=
  match trades with
  | [] => log (Done false)
  | _ :: _ =>
      sell_phase trades ;;;
      base_phase trades ;;;
      buy_phase trades ;;;
      log (Done true)
  end.

End Rebalance.

(** [rebalance(currentWeights, balances, prices)]: the total is taken once,
    on the balances at entry; the [balances] object is then updated in
    place.  The notifications sent before and after the trades and the
    pauses between trades are left out. *)
Definition rebalance (this : bot) (exchange : nat -> bool)
    (currentWeights balances prices : obj) : state * list event :=
  let totalValue := portfolio_value balances prices in
  let trades := detect this currentWeights totalValue in
  let '(_, s, es) :=
    run_trades this exchange currentWeights prices totalValue trades
               {| balances := balances; attempts := 0 |} in
  (s, es).

(** One pass as the polling loop and [POST /api/rebalance] run it: the
    weights are computed from the balances and prices that are traded on. *)
Definition rebalance_pass (this : bot) (exchange : nat -> bool)
    (balances prices : obj) : state * list event :=
  rebalance this exchange (calculateWeights balances prices) balances prices.

(** * Vocabulary of the statements *)

(** The deviation of a token, as the detection loop computes it. *)
Definition deviation (this : bot) (currentWeights : obj) (tok : string) : num :=
  Obj.get currentWeights tok - Obj.get (weights this) tok.


(** The rational a number stands for in a sum: itself when finite, zero
    otherwise. *)
Definition qval (x : num) : Q :=
  match x with Fin a => a | _ => 0%Q end.



(** ** Runs of a computation *)

Definition result_of {A} (c : M A) (s : state) : A := fst (fst (c s)).
Definition state_of {A} (c : M A) (s : state) : state := snd (fst (c s)).
Definition events_of {A} (c : M A) (s : state) : list event := snd (c s).

(** From a state that satisfies [P], the computation emits only events that
    satisfy [E] and ends with a result and a state that satisfy [Q]. *)
Definition hoare {A} (E : event -> Prop) (P : state -> Prop) (c : M A)
    (Q : A -> state -> Prop) : Prop :=
  forall s, P s ->
    Forall E (events_of c s) /\ Q (result_of c s) (state_of c s).

(** ** Readings of a trace *)

(** The trades the sell loop took up, in order. *)
Definition sells (es : list event) : list trade :=
  flat_map (fun e => match e with SellTrade t => [t] | _ => [] end) es.

(** The trades the buy loop took up, in order. *)
Definition buys (es : list event) : list trade :=
  flat_map (fun e => match e with BuyTrade t => [t] | _ => [] end) es.

Definition is_swap (e : event) : bool :=
  match e with SwapCall _ _ _ _ => true | _ => false end.

(** The calls of [swap], in order. *)
Definition swaps (es : list event) : list event := filter is_swap es.

(** The calls of [swap] that returned [true]. *)
Definition filled (es : list event) : list event :=
  filter (fun e => match e with SwapCall _ _ _ Filled => true | _ => false end) es.

(** Whether the base-token phase was entered. *)
Definition base_phases (es : list event) : list num :=
  flat_map (fun e => match e with BaseUnderweight n => [n] | _ => [] end) es.

(** The computation emits only events that satisfy [E], from any state. *)
Definition emits {A} (E : event -> Prop) (c : M A) : Prop :=
  hoare E (fun _ => True) c (fun _ _ => True).

(** Events that open a trade or a phase, or close the pass. *)
Definition is_marker (e : event) : bool :=
  match e with
  | SellTrade _ | BuyTrade _ | BaseUnderweight _ | Done _ => true
  | _ => false
  end.

(** A swap that sells into the base token. *)
Definition sells_into (base : string) (e : event) : Prop :=
  match e with
  | SwapCall _ to _ _ => to = base
  | _ => True
  end.

(** A swap that pays with the base token for another token. *)
Definition pays_with (base : string) (e : event) : Prop :=
  match e with
  | SwapCall from to _ _ => from = base /\ to <> base
  | _ => True
  end.

(** The state a pass starts in. *)
Definition start (balances : obj) : state :=
  {| balances := balances; attempts := 0 |}.

(** [(currentValue - targetValue) / price] of a token on given balances:
    the amount the sell loop computes. *)
Definition sell_amount (this : bot) (prices : obj) (totalValue : num)
    (balances : obj) (tok : string) : num :=
  (Obj.get balances tok * Obj.get prices tok
   - totalValue * Obj.get (weights this) tok)
  / Obj.get prices tok.

(** A call of [swap] stops at the same-token guard exactly when its two
    tokens are the same; otherwise it goes on to the exchange. *)
Definition guarded (e : event) : Prop :=
  match e with
  | SwapCall from to _ r => r = SameToken <-> from = to
  | _ => True
  end.

(** Anything but a call of [swap] that returned [true]. *)
Definition unfilled (e : event) : Prop :=
  match e with
  | SwapCall _ _ _ Filled => False
  | _ => True
  end.

(** ** Well-formed input of a pass *)

(** [currentValue - targetValue] of a token on given balances. *)
Definition excess_value (this : bot) (prices : obj) (totalValue : num)
    (balances : obj) (tok : string) : num :=
  Obj.get balances tok * Obj.get prices tok
  - totalValue * Obj.get (weights this) tok.

(** Every value of the object is a finite number that is at least zero. *)
Definition all_nonneg (o : obj) : Prop :=
  Forall (fun kv => Num.nonneg (snd kv)) o.

(** Balances and prices as the data model has them: the balance map is an
    object with non-negative quantities that holds the base token, every
    token held has a positive price, and the target weights are
    non-negative. *)
Definition sane (this : bot) (held prices : obj) : Prop :=
  Obj.wf held
  /\ In (baseToken this) (Obj.keys held)
  /\ all_nonneg held
  /\ Forall (fun tok => Num.positive (Obj.get prices tok)) (Obj.keys held)
  /\ all_nonneg (weights this).

(** The balances after the stores of a trace, in order. *)
Definition apply_stores (balances : obj) (es : list event) : obj :=
  fold_left
    (fun b e => match e with Store tok v => Obj.set b tok v | _ => b end)
    es balances.

(** An event that writes a balance writes a finite number that is at least
    zero. *)
Definition store_nonneg (e : event) : Prop :=
  match e with
  | Store _ v => Num.nonneg v
  | _ => True
  end.

(** What holds of the balances all along a pass that started on [held]:
    the keys are those of entry, every balance is finite and non-negative,
    and a token other than the base token either has the balance of entry
    or sits exactly on its target value. *)
Definition pass_inv (this : bot) (prices : obj) (totalValue : num)
    (held balances : obj) : Prop :=
  Obj.keys balances = Obj.keys held
  /\ all_nonneg balances
  /\ forall k, In k (Obj.keys held) -> k <> baseToken this ->
       Obj.get balances k = Obj.get held k
       \/ excess_value this prices totalValue balances k = Fin 0.

(** The balances keep the keys of entry and are all finite and
    non-negative. *)
Definition held_ok (held balances : obj) : Prop :=
  Obj.keys balances = Obj.keys held /\ all_nonneg balances.

(** A candidate of the base-token loop can be sold down by its excess: its
    token has a finite balance and a positive price, and its excess is
    between zero and the value held. *)
Definition cand_ok (prices balances : obj) (o : overweight) : Prop :=
  exists b p e,
    Obj.get balances (o_token o) = Fin b
    /\ Obj.get prices (o_token o) = Fin p
    /\ excessValue o = Fin e
    /\ (0 < p)%Q /\ (0 <= e)%Q /\ (e <= b * p)%Q.

(** The stores of a computation account for all it does to the balances. *)
Definition tracks {A} (c : M A) : Prop :=
  forall s, balances (state_of c s) = apply_stores (balances s) (events_of c s).

(** * Sample data *)

Definition demo_baseline : obj :=
  [("cbBTC", Fin (1 # 1000)); ("WETH", Fin (1 # 100)); ("cbXRP", Fin 14)].

Definition demo_prices : obj :=
  [("cbBTC", Fin 60000); ("WETH", Fin 3000); ("cbXRP", Fin (1 # 2))].

(** Weights that sum to 0.7. *)
Definition short_weights : obj :=
  [("cbBTC", Fin (1 # 2)); ("WETH", Fin (1 # 5))].

(** Weights that sum to 1.005. *)
Definition loose_weights : obj :=
  [("cbBTC", Fin (1 # 2)); ("WETH", Fin (505 # 1000))].

Definition fresh_bot : bot := constructor Unset NaN NaN demo_baseline.

(** A ticker response that prices the six tokens, and a later one with
    other prices. *)
Definition tickers_a : list ticker :=
  [("BTCUSDT", Fin 60000); ("ETHUSDT", Fin 3000); ("BNBUSDT", Fin 500);
   ("XRPUSDT", Fin (1 # 2)); ("ADAUSDT", Fin (2 # 5));
   ("DOGEUSDT", Fin (1 # 10)); ("AAVEUSDT", Fin 90)].

Definition tickers_b : list ticker :=
  [("BTCUSDT", Fin 61000); ("ETHUSDT", Fin 3100);
   ("XRPUSDT", Fin (1 # 2)); ("ADAUSDT", Fin (2 # 5));
   ("DOGEUSDT", Fin (1 # 10)); ("AAVEUSDT", Fin 91)].

Definition prices_a : obj :=
  [("cbBTC", Fin 60000); ("WETH", Fin 3000); ("cbXRP", Fin (1 # 2));
   ("cbADA", Fin (2 # 5)); ("cbDOGE", Fin (1 # 10)); ("AAVE", Fin 90)].

Definition prices_b : obj :=
  [("cbBTC", Fin 61000); ("WETH", Fin 3100); ("cbXRP", Fin (1 # 2));
   ("cbADA", Fin (2 # 5)); ("cbDOGE", Fin (1 # 10)); ("AAVE", Fin 91)].

(** A portfolio whose overweight token is exactly 0.00001 units above its
    target: 2^-14 cbBTC at 10^7 against 410.3515625 WETH at 1, with equal
    target weights. *)
Definition dust_bot : bot :=
  constructor (Parsed [("cbBTC", Fin (1 # 2)); ("WETH", Fin (1 # 2))]) NaN NaN [].

Definition dust_balances : obj :=
  [("cbBTC", Fin (1 # 16384)); ("WETH", Fin (52525 # 128))].

Definition dust_prices : obj :=
  [("cbBTC", Fin 10000000); ("WETH", Fin 1)].

(** The example of the base-token phase: a base shortfall of 50 and two
    unflagged overweight tokens with excess values 40 and 30, at prices
    of 1 and a deviation threshold of 4.5%. *)
Definition shortfall_bot : bot :=
  constructor
    (Parsed [("cbBTC", Fin (1 # 5)); ("cbXRP", Fin (1 # 5));
             ("AAVE", Fin (1 # 10)); ("WETH", Fin (1 # 2))])
    (Fin (45 # 1000)) NaN [].

Definition shortfall_balances : obj :=
  [("cbXRP", Fin 230); ("cbBTC", Fin 240); ("AAVE", Fin 80); ("WETH", Fin 450)].

Definition shortfall_prices : obj :=
  [("cbXRP", Fin 1); ("cbBTC", Fin 1); ("AAVE", Fin 1); ("WETH", Fin 1)].

(** A portfolio on which all three phases trade when the first swap fails:
    cbBTC is flagged overweight, cbXRP is overweight but not flagged, AAVE
    and WETH are flagged underweight. *)
Definition busy_bot : bot :=
  constructor
    (Parsed [("cbBTC", Fin (1 # 4)); ("cbXRP", Fin (1 # 4));
             ("AAVE", Fin (1 # 4)); ("WETH", Fin (1 # 4))])
    NaN NaN [].

Definition busy_balances : obj :=
  [("cbBTC", Fin 400); ("cbXRP", Fin 260); ("AAVE", Fin 150); ("WETH", Fin 190)].

Definition busy_prices : obj :=
  [("cbBTC", Fin 1); ("cbXRP", Fin 1); ("AAVE", Fin 1); ("WETH", Fin 1)].

(** The exchange that fails the first swap and fills the others. *)
Definition first_fails (n : nat) : bool := negb (Nat.eqb n 0).

(** * The rest of the bot and of the server *)

(** ** Price source *)

(** The loop of [getPricesFromBinance] over the ticker list, on its own. *)
Definition collect_prices (data : list ticker) : obj :=
  fold_left
    (fun prices (tk : ticker) =>
       match reverseMap (fst tk) with
       | Some token => Obj.set prices token (snd tk)
       | None => prices
       end)
    data [].

(** Whether a fetch gives a price map: the request came back and the loop
    collected at least six keys. *)
Definition fetch_ok (r : response) : bool :=
  match r with
  | None => false
  | Some data => (6 <=? List.length (Obj.keys (collect_prices data)))%nat
  end.

(** The names every object inherits.  [reverseMap] is a plain object, so
    [reverseMap[symbol]] is truthy for them too; the model of the lookup
    leaves them out, and the statements about responses ask for symbols
    that are none of them. *)
Definition inherited : list string :=
  ["constructor"; "hasOwnProperty"; "isPrototypeOf"; "propertyIsEnumerable";
   "toLocaleString"; "toString"; "valueOf"; "__proto__";
   "__defineGetter__"; "__defineSetter__"; "__lookupGetter__";
   "__lookupSetter__"].

Definition plain (r : response) : bool :=
  match r with
  | None => true
  | Some data =>
      forallb (fun tk : ticker => negb (existsb (String.eqb (fst tk)) inherited)) data
  end.

(** One call of [getPrices]: the clock at entry, what the request comes
    back with, and the clock after it. *)
Record price_call : Type := mkCall {
  at_entry : Z;
  reply : response;
  at_reply : Z
}.

(** The bot after a series of calls of [getPrices]. *)
Definition poll (this : bot) (calls : list price_call) : bot :=
  fold_left
    (fun b c => after (getPrices b (at_entry c) (reply c) (at_reply c)))
    calls this.

(** The price map holds every token of the bot. *)
Definition covers (p : obj) : Prop :=
  forall t, In t tokens -> In t (Obj.keys p).

(** ** Balances *)

(** [getBalances]: [reading name] is the balance the two contract calls
    give for a token, as a number, or nothing when one of them throws. *)
Definition getBalances (reading : string -> option num) : obj :=
  fold_left
    (fun balances name =>
       Obj.set balances name
         (match reading name with
          | Some balance => balance
          | None => Num.zero
          end))
    tokens [].

(** ** One turn of the polling loop *)

(** The body of the [while] loop of [start]: the balances are read, the
    prices are asked for, and with prices at hand the weights, the HODL
    comparison and the pass follow; without prices the turn ends there.
    The result is the bot as [getPrices] leaves it and, when the turn went
    through, the comparison and the pass.  The status message that closes
    a pass with trades is not part of [rebalance] here; with Telegram
    configured it asks for prices once more, which is one more call of
    [getPrices] on the bot. *)
Definition cycle (this : bot) (reading : string -> option num)
    (now : Z) (r : response) (now' : Z) (exchange : nat -> bool)
  : bot * option (comparison_report * (state * list event)) :=
  let balances := getBalances reading in
  let got := getPrices this now r now' in
  match returned got with
  | Some prices =>
      let currentWeights := calculateWeights balances prices in
      let comparison := calculateHodlComparison (after got) balances prices in
      (after got,
       Some (comparison,
             rebalance (after got) exchange currentWeights balances prices))
  | None => (after got, None)
  end.

(** ** Status message *)

(** The test of [sendDetailedStatus] that chooses between "Rebalancing
    needed" and "Portfolio balanced". *)
Definition needsRebalance (this : bot) (currentWeights : obj) : bool :=
  existsb
    (fun token =>
       Num.abs (Obj.get currentWeights token - Obj.get (weights this) token)
       >? deviationThreshold this)
    (Obj.keys currentWeights).

(** ** Baseline *)

Definition with_baseline (this : bot) (baseline : obj) : bot :=
  {| weights := weights this;
     deviationThreshold := deviationThreshold this;
     minTradeUSD := minTradeUSD this;
     baseToken := baseToken this;
     initialBalances := baseline;
     lastKnownPrices := lastKnownPrices this;
     priceCache := priceCache this |}.

(** The handler of [/reset_hodl], for a message from [chat]: a chat that is
    not listed is ignored; otherwise the baseline becomes a copy of the
    balances read now. *)
Definition reset_hodl (this : bot) (chatIds : list string) (chat : string)
    (reading : string -> option num) : bot :=
  if existsb (String.eqb chat) chatIds then
    let currentBalances := getBalances reading in
    with_baseline this (Obj.spread [] currentBalances)
  else this.

(** ** Persistence *)

(** The two fields of the data file that the model keeps; a field is
    [None] when it is missing or falsy. *)
Record saved : Type := mkSaved {
  saved_initialBalances : option obj;
  saved_lastKnownPrices : option obj
}.

(** The data file as [loadData] finds it. *)
Inductive data_file : Type :=
| NoFile                      (* [existsSync] is false *)
| BadFile                     (* reading or [JSON.parse] throws *)
| DataFile (data : saved).

(** [JSON.stringify] writes NaN and the infinities as [null], and [null]
    reads back as [0] in arithmetic and as falsy. *)
Definition stringify (o : obj) : obj :=
  map (fun kv => (fst kv, match snd kv with Fin q => Fin q | _ => Num.zero end)) o.

(** What [saveData] writes, when the write goes through. *)
Definition saveData (this : bot) : saved :=
  {| saved_initialBalances := Some (stringify (initialBalances this));
     saved_lastKnownPrices := Some (stringify (lastKnownPrices this)) |}.

(** [loadData], on the snapshot of the constructor: the baseline and the
    last-known prices it leaves, the latter [None] when it sets none. *)
Definition loadData (file : data_file) (initialBalances0 : obj)
  : obj * option obj :=
  match file with
  | DataFile data =>
      (match saved_initialBalances data with
       | Some b => b
       | None => initialBalances0
       end,
       saved_lastKnownPrices data)
  | NoFile | BadFile => (initialBalances0, None)
  end.

(** The snapshot the constructor starts from. *)
Definition default_baseline : obj :=
  [("cbBTC", Fin (39425 # 100000000));
   ("WETH", Fin (11770838913082286 # 1000000000000000000));
   ("cbXRP", Fin (14372532 # 1000000));
   ("cbADA", Fin (57198991 # 1000000));
   ("cbDOGE", Fin (19363635038 # 100000000));
   ("AAVE", Fin (14303047477213357 # 100000000000000000))].

(** [new RebalanceBot()] with a data file in place: [loadData] runs on the
    default snapshot, and the constructor goes on from what it leaves. *)
Definition boot (cw : custom_weights) (threshold minTrade : num)
    (file : data_file) : bot :=
  let '(baseline, _) := loadData file default_baseline in
  constructor cw threshold minTrade baseline.

(** ** The server *)

(** The two variables of [web-server.js]. *)
Record server : Type := mkServer {
  server_bot : option bot;
  botRunning : bool
}.

Definition initial_server : server :=
  {| server_bot := None; botRunning := false |}.

Inductive status : Type :=
| Ok200
| Bad400
| Error500.

(** [POST /api/rebalance]: the status, the bot as [getPrices] leaves it,
    and the pass when one is run. *)
Definition api_rebalance (b : option bot) (reading : string -> option num)
    (c : price_call) (exchange : nat -> bool)
  : status * option bot * option (state * list event) :=
  match b with
  | None => (Bad400, None, None)
  | Some this =>
      let balances := getBalances reading in
      let got := getPrices this (at_entry c) (reply c) (at_reply c) in
      match returned got with
      | None => (Error500, Some (after got), None)
      | Some prices =>
          let weights := calculateWeights balances prices in
          (Ok200, Some (after got),
           Some (rebalance (after got) exchange weights balances prices))
      end
  end.

(** The requests that read or write the two variables.  [built] is what
    [new RebalanceBot()] gives, or nothing when it throws. *)
Inductive request : Type :=
| PostStart (built : option bot)
| PostStop
| PostConfig (req : config_request)
| PostRebalance (reading : string -> option num) (c : price_call)
                (exchange : nat -> bool)
| GetStatus (c : price_call).

Definition handle (s : server) (q : request) : status * server :=
  match q with
  | PostStart built =>
      if botRunning s then (Ok200, s)
      else
        match built with
        | Some b => (Ok200, {| server_bot := Some b; botRunning := true |})
        | None => (Error500, s)
        end
  | PostStop =>
      if botRunning s then (Ok200, {| server_bot := None; botRunning := false |})
      else (Ok200, s)
  | PostConfig req =>
      match post_config (server_bot s) req with
      | (Status200, b) => (Ok200, {| server_bot := b; botRunning := botRunning s |})
      | (Status400, b) => (Bad400, {| server_bot := b; botRunning := botRunning s |})
      end
  | PostRebalance reading c exchange =>
      let '(code, b, _) := api_rebalance (server_bot s) reading c exchange in
      (code, {| server_bot := b; botRunning := botRunning s |})
  | GetStatus c =>
      match server_bot s with
      | None => (Ok200, s)
      | Some b =>
          let got := getPrices b (at_entry c) (reply c) (at_reply c) in
          (Ok200, {| server_bot := Some (after got); botRunning := botRunning s |})
      end
  end.

(** The server after a series of requests. *)
Definition serve (s : server) (qs : list request) : server :=
  fold_left (fun s q => snd (handle s q)) qs s.

(** ** Messages *)

(** The characters of the class [[_*[\]()~`>#+=|{}.!-]]. *)
Definition special : list Ascii.ascii :=
  list_ascii_of_string "_*[]()~`>#+=|{}.!-".

Definition is_special (c : Ascii.ascii) : bool := existsb (Ascii.eqb c) special.

(** The backslash, character 92. *)
Definition backslash : Ascii.ascii := Ascii.ascii_of_nat 92.

(** [message.replace(/[_*[\]()~`>#+=|{}.!-]/g, '\\$&')] *)
Fixpoint escape (message : string) : string :=
  match message with
  | EmptyString => EmptyString
  | String c rest =>
      if is_special c then String backslash (String c (escape rest))
      else String c (escape rest)
  end.

(** The reading of an escaped message: a backslash before a character of
    the class stands for that character. *)
Fixpoint unescape (message : string) : string :=
  match message with
  | EmptyString => EmptyString
  | String c rest =>
      match rest with
      | String d rest' =>
          if Ascii.eqb c backslash && is_special d then String d (unescape rest')
          else String c (unescape rest)
      | EmptyString => String c EmptyString
      end
  end.

(** How many characters of the class a message holds. *)
Fixpoint specials (message : string) : nat :=
  match message with
  | EmptyString => 0
  | String c rest => ((if is_special c then 1 else 0) + specials rest)%nat
  end.

(** ** Amounts in base units *)

(** [quotedBigInt * 98n / 100n]; the division of BigInt truncates. *)
Definition minBuyAmount (quotedBigInt : Z) : Z :=
  Z.quot (quotedBigInt * 98) 100.

(** [gasEstimate * 120n / 100n] *)
Definition gasLimit (gasEstimate : Z) : Z :=
  Z.quot (gasEstimate * 120) 100.

(** The wrap of [start]: above 0.1 ETH of native balance, nine tenths of
    it are deposited; [None] when nothing is wrapped. *)
Definition wrapAmount (nativeBalance : Z) : option Z :=
  let minWrap := (10 ^ 17)%Z in
  if (nativeBalance >? minWrap)%Z then Some (Z.quot (nativeBalance * 9) 10)
  else None.

(** * Vocabulary of the further statements *)

(** A cache that [getPrices] never serves from: its timestamp is falsy or
    it has no [maxAge]. *)
Definition stale (c : cache) : Prop :=
  cache_timestamp c = 0%Z \/ cache_maxAge c = None.

(** A price map with the six tokens of the bot, each once, and no other
    key. *)
Definition whole (p : obj) : Prop :=
  Obj.wf p /\ forall t, In t (Obj.keys p) <-> In t tokens.

(** Every value of the object is a finite number above zero. *)
Definition all_positive (o : obj) : Prop :=
  Forall (fun kv => Num.positive (snd kv)) o.

(** Every price of the response parses to a finite number above zero. *)
Definition priced (r : response) : Prop :=
  match r with
  | None => True
  | Some data => Forall (fun tk : ticker => Num.positive (snd tk)) data
  end.

(** An event of the buy loop: a swap pays with the base token, for another
    token, an amount that reaches the dust floor of the loop; a store
    writes the base token. *)
Definition buy_event (base : string) (e : event) : Prop :=
  match e with
  | SwapCall from to amount _ =>
      from = base /\ to <> base /\ (amount >=? buy_dust) = true
  | Store tok _ => tok = base
  | _ => True
  end.

(** Along the trace, from the given balances, no swap offers more of the
    token it sells than the balance map holds at that moment. *)
Fixpoint affordable (balances0 : obj) (es : list event) : Prop :=
  match es with
  | [] => True
  | e :: es' =>
      match e with
      | SwapCall from _ amount _ => (Obj.get balances0 from >=? amount) = true
      | _ => True
      end
      /\ affordable
           (match e with Store tok v => Obj.set balances0 tok v | _ => balances0 end)
           es'
  end.


(** An event that writes a balance or calls [swap] names only tokens of the
    list. *)
Definition within (names : list string) (e : event) : Prop :=
  match e with
  | Store tok _ => In tok names
  | SwapCall from to _ _ => In from names /\ In to names
  | _ => True
  end.



(** * The arithmetic of the code

    The numbers of the code are IEEE 754 doubles.  The model above takes
    their arithmetic as exact.  Where a statement turns on rounding, the
    lines of the code are read here in binary64, on the floats of the
    kernel, with the names the code gives its variables. *)

Module Double.

Import PrimFloat.
Local Open Scope float_scope.
#[local] Set Warnings "-inexact-float".

Definition object : Type := list (string * float).

(** [Object.keys(o)] *)
Definition keys (o : object) : list string := map fst o.

(** [o[k]] read in an arithmetic position: [undefined] becomes NaN. *)
Definition get (o : object) (k : string) : float :=
  match find (fun kv => String.eqb k (fst kv)) o with
  | Some kv => snd kv
  | None => nan
  end.

(** [x || 0] *)
Definition or_zero (x : float) : float :=
  if is_zero x || is_nan x then 0 else x.

(** The total of [calculateWeights]. *)
Definition weights_total (balances prices : object) : float :=
  fold_left
    (fun sum token =>
       let value := get balances token * get prices token in
       sum + (if is_nan value then 0 else value))
    (keys balances) 0.

Definition calculateWeights (balances prices : object) : object :=
  let totalValue := weights_total balances prices in
  if totalValue =? 0 then map (fun token => (token, 0)) (keys balances)
  else
    map (fun token =>
           let weight :=
             or_zero (get balances token * get prices token / totalValue) in
           (token, weight))
        (keys balances).

(** [Object.values(weights).reduce((sum, w) => sum + w, 0)] *)
Definition sum (ws : object) : float :=
  fold_left (fun sum kv => sum + snd kv) ws 0.

(** The total of [rebalance]. *)
Definition portfolio_value (balances prices : object) : float :=
  fold_left (fun sum t => sum + get balances t * get prices t) (keys balances) 0.

(** The deviation of the detection loop, and its two tests. *)
Definition diff (weights currentWeights : object) (token : string) : float :=
  get currentWeights token - get weights token.

Definition flagged (weights : object) (deviationThreshold minTradeUSD : float)
    (currentWeights : object) (totalValue : float) (token : string) : bool :=
  let diff := diff weights currentWeights token in
  let valueDiff := diff * totalValue in
  (deviationThreshold <? abs diff) && (minTradeUSD <? abs valueDiff).

(** [currentValue - targetValue] of a token, as the sell loop and the scan
    of the base-token phase compute it. *)
Definition excessValue (weights balances prices : object) (totalValue : float)
    (token : string) : float :=
  let currentValue := get balances token * get prices token in
  let targetValue := totalValue * get weights token in
  currentValue - targetValue.

(** The amount of a turn of the sell loop. *)
Definition sellAmount (weights balances prices : object) (totalValue : float)
    (token : string) : float :=
  excessValue weights balances prices totalValue token / get prices token.

(** The test [sellAmount >= 0.00001]. *)
Definition above_dust (amount : float) : bool := 0.00001 <=? amount.

(** The balance that [balances[trade.token] -= sellAmount] stores when the
    swap has returned [true]. *)
Definition sold (weights balances prices : object) (totalValue : float)
    (token : string) : float :=
  get balances token - sellAmount weights balances prices totalValue token.

(** The test of the scan of the base-token phase: the token is not the
    base token and its deviation is above zero. *)
Definition candidate (weights currentWeights : object) (baseToken token : string)
  : bool :=
  negb (String.eqb token baseToken) && (0 <? diff weights currentWeights token).

(** Comparisons with zero. *)
Definition negative (x : float) : bool := x <? 0.
Definition positive (x : float) : bool := 0 <? x.

(** The thresholds the constructor gives by default. *)
Definition deviationThreshold : float := 0.05.
Definition minTradeUSD : float := 5.

(** [x < 1], and [|x - 1| <= 1e-9]. *)
Definition below_one (x : float) : bool := x <? 1.
Definition within_tolerance (x : float) : bool := abs (x - 1) <=? 0.000000001.

(** Six equal holdings. *)
Definition equal_balances : object :=
  [("cbBTC", 1); ("WETH", 1); ("cbXRP", 1); ("cbADA", 1); ("cbDOGE", 1);
   ("AAVE", 1)].
Definition equal_prices : object := equal_balances.

(** A portfolio with a token whose target weight is 0. *)
Definition zero_target_weights : object :=
  [("cbBTC", 0); ("WETH", 1); ("cbXRP", 0); ("cbADA", 0); ("cbDOGE", 0);
   ("AAVE", 0)].
Definition zero_target_balances : object :=
  [("cbBTC", 0); ("WETH", 1); ("cbXRP", 419); ("cbADA", 0); ("cbDOGE", 0);
   ("AAVE", 0)].
Definition zero_target_prices : object :=
  [("cbBTC", 60000); ("WETH", 2000); ("cbXRP", 2.74); ("cbADA", 0.5);
   ("cbDOGE", 0.1); ("AAVE", 100)].

(** A portfolio with a token exactly on its target weight while the base
    token is underweight. *)
Definition on_target_weights : object :=
  [("cbBTC", 0.29); ("WETH", 0.5); ("cbXRP", 0.21); ("cbADA", 0); ("cbDOGE", 0);
   ("AAVE", 0)].
Definition on_target_balances : object :=
  [("cbBTC", 29); ("WETH", 30); ("cbXRP", 41); ("cbADA", 0); ("cbDOGE", 0);
   ("AAVE", 0)].
Definition on_target_prices : object :=
  [("cbBTC", 1); ("WETH", 1); ("cbXRP", 1); ("cbADA", 1); ("cbDOGE", 1);
   ("AAVE", 1)].

End Double.

(** Target weights with a negative entry that sum to 1, on balances and
    prices of 100 and 1. *)
Definition negative_weight_bot : bot :=
  constructor
    (Parsed [("cbBTC", Fin (-1 # 2)); ("WETH", Fin (3 # 2)); ("cbXRP", Fin 0);
             ("cbADA", Fin 0); ("cbDOGE", Fin 0); ("AAVE", Fin 0)])
    NaN NaN [].

Definition even_balances : obj :=
  [("cbBTC", Fin 100); ("WETH", Fin 100); ("cbXRP", Fin 0); ("cbADA", Fin 0);
   ("cbDOGE", Fin 0); ("AAVE", Fin 0)].

Definition unit_prices : obj :=
  [("cbBTC", Fin 1); ("WETH", Fin 1); ("cbXRP", Fin 1); ("cbADA", Fin 1);
   ("cbDOGE", Fin 1); ("AAVE", Fin 1)].
(** * Properties *)

(** ** Numbers *)

Lemma Qltb_lt (x y : Q) : Qltb x y = true <-> x < y.
Proof.
  unfold Qltb. rewrite negb_true_iff.
  split; intro H.
  - apply Qnot_le_lt. intro L. apply Qle_bool_iff in L. congruence.
  - destruct (Qle_bool y x) eqn:E; [|reflexivity].
    apply Qle_bool_iff in E. exfalso. apply (Qlt_not_le _ _ H E).
Qed.

Lemma Qltb_ge (x y : Q) : Qltb x y = false <-> y <= x.
Proof.
  unfold Qltb. rewrite negb_false_iff. apply Qle_bool_iff.
Qed.

Module NumFacts.

Lemma ltb_irrefl (x : num) : (x <? x) = false.
Proof.
  destruct x as [a| | |]; try reflexivity.
  apply Qltb_ge. apply Qle_refl.
Qed.

Lemma leb_Fin (a b : Q) : (Fin a <=? Fin b) = true <-> (a <= b)%Q.
Proof. apply Qle_bool_iff. Qed.

Lemma gtb_Fin (a b : Q) : (Fin a >? Fin b) = true <-> (b < a)%Q.
Proof. apply Qltb_lt. Qed.

Lemma geb_Fin (a b : Q) : (Fin a >=? Fin b) = true <-> (b <= a)%Q.
Proof. apply Qle_bool_iff. Qed.


(** Comparisons that hold exclude NaN on both sides. *)
Lemma ltb_true_not_NaN (x y : num) :
  (x <? y) = true -> Num.isNaN x = false /\ Num.isNaN y = false.
Proof. destruct x, y; cbn [Num.ltb Num.isNaN]; intuition discriminate. Qed.

(** The sign of a difference of two numbers decides their order; the
    difference of equal infinities is NaN, which is not above zero. *)
Lemma sub_gtb_zero (x y : num) : (x - y >? Num.zero) = (y <? x).
Proof.
  destruct x as [a| | |], y as [b| | |]; try reflexivity.
  unfold Num.gtb, Num.zero. cbn [Num.sub Num.ltb].
  destruct (Qltb b a) eqn:E.
  - apply Qltb_lt. apply Qltb_lt in E. rewrite Qred_correct. lra.
  - apply Qltb_ge. apply Qltb_ge in E. rewrite Qred_correct. lra.
Qed.

Lemma ltb_leb_flip (x y : num) :
  Num.isNaN x = false -> Num.isNaN y = false ->
  (x <? y) = false -> (y <=? x) = true.
Proof.
  destruct x as [a| | |], y as [b| | |];
    cbn [Num.ltb Num.leb Num.isNaN]; try discriminate; trivial.
  intros _ _ H. apply Qle_bool_iff. now apply Qltb_ge.
Qed.

Lemma ltb_leb (x y : num) : (x <? y) = true -> (x <=? y) = true.
Proof.
  destruct x as [a| | |], y as [b| | |];
    cbn [Num.ltb Num.leb]; try discriminate; trivial.
  intro H. apply Qle_bool_iff. apply Qltb_lt in H. lra.
Qed.

Lemma leb_trans (x y z : num) :
  (x <=? y) = true -> (y <=? z) = true -> (x <=? z) = true.
Proof.
  destruct x as [a| | |], y as [b| | |], z as [c| | |];
    cbn [Num.leb]; try discriminate; trivial.
  rewrite !Qle_bool_iff. intros. lra.
Qed.

End NumFacts.


(** ** Objects *)

Module ObjFacts.

Lemma lookup_set_eq (o : obj) (k : string) (v : num) :
  Obj.lookup (Obj.set o k v) k = Some v.
Proof.
  induction o as [|[k' v'] o IH]; cbn [Obj.set Obj.lookup].
  - now rewrite String.eqb_refl.
  - destruct (String.eqb k k') eqn:E; cbn [Obj.lookup]; rewrite E; [reflexivity|exact IH].
Qed.

Lemma lookup_set_ne (o : obj) (k k' : string) (v : num) :
  k' <> k -> Obj.lookup (Obj.set o k v) k' = Obj.lookup o k'.
Proof.
  intro Hne. induction o as [|[k0 v0] o IH]; cbn [Obj.set Obj.lookup].
  - apply String.eqb_neq in Hne. now rewrite Hne.
  - destruct (String.eqb k k0) eqn:E; cbn [Obj.lookup].
    + apply String.eqb_eq in E. subst k0.
      apply String.eqb_neq in Hne. now rewrite Hne.
    + now rewrite IH.
Qed.

Lemma get_set_eq (o : obj) (k : string) (v : num) :
  Obj.get (Obj.set o k v) k = v.
Proof. unfold Obj.get. now rewrite lookup_set_eq. Qed.

Lemma get_set_ne (o : obj) (k k' : string) (v : num) :
  k' <> k -> Obj.get (Obj.set o k v) k' = Obj.get o k'.
Proof. intro H. unfold Obj.get. now rewrite lookup_set_ne. Qed.

(** Writing a key that is there keeps the keys and their order. *)
Lemma keys_set_In (o : obj) (k : string) (v : num) :
  In k (Obj.keys o) -> Obj.keys (Obj.set o k v) = Obj.keys o.
Proof.
  induction o as [|[k' v'] o IH]; cbn [Obj.keys map fst Obj.set]; [contradiction|].
  intros [->|Hin].
  - now rewrite String.eqb_refl.
  - destruct (String.eqb k k'); cbn [map fst]; [reflexivity|].
    f_equal. now apply IH.
Qed.

Lemma lookup_In (o : obj) (k : string) (v : num) :
  Obj.lookup o k = Some v -> In (k, v) o.
Proof.
  induction o as [|[k' v'] o IH]; cbn [Obj.lookup]; [discriminate|].
  destruct (String.eqb k k') eqn:E.
  - apply String.eqb_eq in E. intros [= ->]. left. now subst.
  - intro H. right. now apply IH.
Qed.

Lemma In_keys_lookup (o : obj) (k : string) :
  In k (Obj.keys o) -> exists v, Obj.lookup o k = Some v.
Proof.
  induction o as [|[k' v'] o IH]; cbn [Obj.keys map fst Obj.lookup]; [contradiction|].
  intros [->|Hin].
  - rewrite String.eqb_refl. now exists v'.
  - destruct (String.eqb k k'); [now exists v'|now apply IH].
Qed.

(** A property of all the values of an object holds of what a key that is
    there reads as. *)
Lemma get_Forall (P : num -> Prop) (o : obj) (k : string) :
  Forall (fun kv => P (snd kv)) o -> In k (Obj.keys o) -> P (Obj.get o k).
Proof.
  intros HF Hin. destruct (In_keys_lookup o k Hin) as [v Hv].
  unfold Obj.get. rewrite Hv. apply lookup_In in Hv.
  rewrite Forall_forall in HF. apply (HF _ Hv).
Qed.

Lemma set_Forall (P : num -> Prop) (o : obj) (k : string) (v : num) :
  Forall (fun kv => P (snd kv)) o -> P v ->
  Forall (fun kv => P (snd kv)) (Obj.set o k v).
Proof.
  intros HF Hv. induction HF as [|[k' v'] o Hk HF IH]; cbn [Obj.set].
  - now repeat constructor.
  - destruct (String.eqb k k'); constructor; auto.
Qed.

End ObjFacts.

(** ** Runs *)

Lemma bind_events {A B} (c : M A) (k : A -> M B) (s : state) :
  events_of (bind c k) s
  = (events_of c s ++ events_of (k (result_of c s)) (state_of c s))%list.
Proof.
  unfold events_of, result_of, state_of, bind.
  destruct (c s) as [[a s1] e1]. cbn [fst snd].
  destruct (k a s1) as [[b s2] e2]. reflexivity.
Qed.

Lemma bind_state {A B} (c : M A) (k : A -> M B) (s : state) :
  state_of (bind c k) s = state_of (k (result_of c s)) (state_of c s).
Proof.
  unfold result_of, state_of, bind.
  destruct (c s) as [[a s1] e1]. cbn [fst snd].
  destruct (k a s1) as [[b s2] e2]. reflexivity.
Qed.

Lemma bind_result {A B} (c : M A) (k : A -> M B) (s : state) :
  result_of (bind c k) s = result_of (k (result_of c s)) (state_of c s).
Proof.
  unfold result_of, state_of, bind.
  destruct (c s) as [[a s1] e1]. cbn [fst snd].
  destruct (k a s1) as [[b s2] e2]. reflexivity.
Qed.

(** A call of [swap] leaves the balances alone and emits one event. *)
Lemma swap_run (exchange : nat -> bool) (f to : string) (a : num) (s : state) :
  balances (state_of (swap exchange f to a) s) = balances s
  /\ exists r,
       events_of (swap exchange f to a) s = [SwapCall f to a r]
       /\ (r = SameToken <-> f = to)
       /\ (r = Filled <-> result_of (swap exchange f to a) s = true).
Proof.
  unfold state_of, events_of, result_of, swap.
  destruct (String.eqb f to) eqn:Hft; cbn [fst snd balances].
  - apply String.eqb_eq in Hft. split; [reflexivity|].
    exists SameToken. repeat split; auto; discriminate.
  - apply String.eqb_neq in Hft. split; [reflexivity|].
    destruct (exchange (attempts s)).
    + exists Filled. repeat split; auto; try discriminate. intro. contradiction.
    + exists Failed. repeat split; auto; try discriminate. intro. contradiction.
Qed.

Lemma forEach_cons_events {A} (x : A) (l : list A) (body : A -> M unit) (s : state) :
  events_of (forEach (x :: l) body) s
  = (events_of (body x) s ++ events_of (forEach l body) (state_of (body x) s))%list.
Proof. cbn [forEach]. apply bind_events. Qed.

Lemma forEach_cons_state {A} (x : A) (l : list A) (body : A -> M unit) (s : state) :
  state_of (forEach (x :: l) body) s
  = state_of (forEach l body) (state_of (body x) s).
Proof. cbn [forEach]. apply bind_state. Qed.

(** *** Rules *)

Lemma hoare_ret {A} (E : event -> Prop) (P : state -> Prop) (a : A)
    (Q : A -> state -> Prop) :
  (forall s, P s -> Q a s) -> hoare E P (ret a) Q.
Proof. intros H s Hs. split; [constructor|]. now apply H. Qed.

Lemma hoare_bind {A B} (E : event -> Prop) (P : state -> Prop)
    (R : A -> state -> Prop) (Q : B -> state -> Prop)
    (c : M A) (k : A -> M B) :
  hoare E P c R -> (forall a, hoare E (R a) (k a) Q) -> hoare E P (bind c k) Q.
Proof.
  intros Hc Hk s Hs. destruct (Hc s Hs) as [He HR].
  destruct (Hk _ _ HR) as [He' HQ].
  rewrite bind_events, bind_state, bind_result. split; [|exact HQ].
  apply Forall_app. now split.
Qed.

Lemma hoare_log (E : event -> Prop) (P : state -> Prop) (e : event)
    (Q : unit -> state -> Prop) :
  E e -> (forall s, P s -> Q tt s) -> hoare E P (log e) Q.
Proof. intros He H s Hs. split; [now repeat constructor|]. now apply H. Qed.

Lemma hoare_read (E : event -> Prop) (P : state -> Prop) (tok : string)
    (Q : num -> state -> Prop) :
  (forall s, P s -> Q (Obj.get (balances s) tok) s) -> hoare E P (read tok) Q.
Proof. intros H s Hs. split; [constructor|]. now apply H. Qed.

Lemma hoare_write (E : event -> Prop) (P : state -> Prop) (tok : string) (v : num)
    (Q : unit -> state -> Prop) :
  E (Store tok v) ->
  (forall s, P s ->
     Q tt {| balances := Obj.set (balances s) tok v; attempts := attempts s |}) ->
  hoare E P (write tok v) Q.
Proof. intros He H s Hs. split; [now repeat constructor|]. now apply H. Qed.

Lemma hoare_forEach {A} (E : event -> Prop) (I : state -> Prop)
    (l : list A) (body : A -> M unit) :
  (forall x, In x l -> hoare E I (body x) (fun _ => I)) ->
  hoare E I (forEach l body) (fun _ => I).
Proof.
  induction l as [|x l IH]; intro H; cbn [forEach].
  - now apply hoare_ret.
  - eapply hoare_bind.
    + apply H. now left.
    + intro u. cbn beta. apply IH. intros y Hy. apply H. now right.
Qed.

(** Unfolds a step down to its branches. *)
Ltac run_step :=
  cbv [bind log read write ret swap events_of state_of result_of];
  cbn [fst snd balances attempts app];
  repeat (match goal with
          | |- context [if ?b then _ else _] => destruct b eqn:?
          end; cbn [fst snd balances attempts app]).

Ltac eqb_props :=
  repeat match goal with
         | H : String.eqb _ _ = true |- _ => apply String.eqb_eq in H
         | H : String.eqb _ _ = false |- _ => apply String.eqb_neq in H
         end.

(** ** Sorting *)

Section SortFacts.

Context {A : Type} (cmp : A -> A -> num).

Lemma insert_perm (x : A) (l : list A) : Permutation (x :: l) (insert cmp x l).
Proof.
  induction l as [|y l IH]; cbn [insert].
  - apply Permutation_refl.
  - destruct (cmp x y >? Num.zero).
    + eapply perm_trans; [apply perm_swap|]. now apply perm_skip.
    + apply Permutation_refl.
Qed.

Lemma sort_perm (l : list A) : Permutation l (sort cmp l).
Proof.
  induction l as [|x l IH]; cbn [sort fold_right].
  - apply perm_nil.
  - eapply perm_trans; [apply perm_skip, IH|]. apply insert_perm.
Qed.

Lemma sort_In (l : list A) (x : A) : In x (sort cmp l) <-> In x l.
Proof.
  split; apply Permutation_in; [apply Permutation_sym|]; apply sort_perm.
Qed.

Lemma sort_Forall (P : A -> Prop) (l : list A) :
  Forall P l -> Forall P (sort cmp l).
Proof. intro H. eapply Permutation_Forall; [apply sort_perm|exact H]. Qed.

(** The result is sorted for any relation that the comparator decides on
    the elements at hand and that is transitive on them. *)
Section Sorted.

Variables (P : A -> Prop) (R : A -> A -> Prop).
Hypothesis before : forall x y, P x -> P y -> (cmp x y >? Num.zero) = false -> R x y.
Hypothesis after_ : forall x y, P x -> P y -> (cmp x y >? Num.zero) = true -> R y x.
Hypothesis trans : forall x y z, P x -> P y -> P z -> R x y -> R y z -> R x z.

Lemma insert_sorted (x : A) (l : list A) :
  P x -> Forall P l -> StronglySorted R l -> StronglySorted R (insert cmp x l).
Proof.
  intros Px Pl Hs. induction Hs as [|y l Hs IH Hy]; cbn [insert].
  - repeat constructor.
  - apply Forall_cons_iff in Pl. destruct Pl as [Py Pl].
    destruct (cmp x y >? Num.zero) eqn:E.
    + constructor; [now apply IH|].
      eapply Permutation_Forall; [apply insert_perm|].
      constructor; [now apply after_|exact Hy].
    + constructor; [now constructor|].
      constructor; [now apply before|].
      rewrite Forall_forall in *. intros z Hz.
      apply (trans x y z); auto.
Qed.

Lemma sort_sorted (l : list A) : Forall P l -> StronglySorted R (sort cmp l).
Proof.
  induction 1 as [|x l Px Pl IH]; cbn [sort fold_right].
  - constructor.
  - apply insert_sorted; [exact Px| |exact IH]. now apply sort_Forall.
Qed.

End Sorted.

End SortFacts.

(** Descending and ascending order of the deviation of a trade. *)
Lemma sellTrades_sorted (trades : list trade) :
  StronglySorted (fun a b => (diff b <=? diff a) = true) (sellTrades trades)
  /\ Forall (fun t => (diff t >? Num.zero) = true) (sellTrades trades).
Proof.
  assert (HF : Forall (fun t => (diff t >? Num.zero) = true)
                      (filter (fun t => diff t >? Num.zero) trades)).
  { apply Forall_forall. intros t Ht. now apply filter_In in Ht. }
  unfold sellTrades. split; [|now apply sort_Forall].
  apply (sort_sorted _ (fun t => (diff t >? Num.zero) = true)); [| | |exact HF].
  - intros x y Px Py H. rewrite NumFacts.sub_gtb_zero in H.
    apply NumFacts.ltb_true_not_NaN in Px, Py.
    apply NumFacts.ltb_leb_flip; tauto.
  - intros x y _ _ H. rewrite NumFacts.sub_gtb_zero in H.
    now apply NumFacts.ltb_leb.
  - intros x y z _ _ _ H1 H2. eapply NumFacts.leb_trans; eassumption.
Qed.

Lemma buyTrades_sorted (trades : list trade) :
  StronglySorted (fun a b => (diff a <=? diff b) = true) (buyTrades trades)
  /\ Forall (fun t => (diff t <? Num.zero) = true) (buyTrades trades).
Proof.
  assert (HF : Forall (fun t => (diff t <? Num.zero) = true)
                      (filter (fun t => diff t <? Num.zero) trades)).
  { apply Forall_forall. intros t Ht. now apply filter_In in Ht. }
  unfold buyTrades. split; [|now apply sort_Forall].
  apply (sort_sorted _ (fun t => (diff t <? Num.zero) = true)); [| | |exact HF].
  - intros x y Px Py H. rewrite NumFacts.sub_gtb_zero in H.
    apply NumFacts.ltb_true_not_NaN in Px, Py.
    apply NumFacts.ltb_leb_flip; tauto.
  - intros x y _ _ H. rewrite NumFacts.sub_gtb_zero in H.
    now apply NumFacts.ltb_leb.
  - intros x y z _ _ _ H1 H2. eapply NumFacts.leb_trans; eassumption.
Qed.

(** *** Events of a computation, whatever the state *)

Lemma emits_events {A} (E : event -> Prop) (c : M A) (s : state) :
  emits E c -> Forall E (events_of c s).
Proof. intro H. now apply (H s). Qed.

Lemma emits_ret {A} (E : event -> Prop) (a : A) : emits E (ret a).
Proof. now apply hoare_ret. Qed.

Lemma emits_bind {A B} (E : event -> Prop) (c : M A) (k : A -> M B) :
  emits E c -> (forall a, emits E (k a)) -> emits E (bind c k).
Proof. intros Hc Hk. eapply hoare_bind; [exact Hc|]. intro a. apply Hk. Qed.

Lemma emits_log (E : event -> Prop) (e : event) : E e -> emits E (log e).
Proof. intro H. now apply hoare_log. Qed.

Lemma emits_read (E : event -> Prop) (tok : string) : emits E (read tok).
Proof. now apply hoare_read. Qed.

Lemma emits_write (E : event -> Prop) (tok : string) (v : num) :
  E (Store tok v) -> emits E (write tok v).
Proof. intro H. now apply hoare_write. Qed.

Lemma emits_swap (E : event -> Prop) (exchange : nat -> bool)
    (fromToken toToken : string) (amount : num) :
  (forall r, (r = SameToken <-> fromToken = toToken) ->
             (r = Filled -> exists n, exchange n = true) ->
             E (SwapCall fromToken toToken amount r)) ->
  emits E (swap exchange fromToken toToken amount).
Proof.
  intros H s _. destruct (swap_run exchange fromToken toToken amount s)
    as (_ & r & Hev & Hsame & Hfill).
  rewrite Hev. split; [|trivial]. repeat constructor.
  apply H; [exact Hsame|]. intro Hr. apply Hfill in Hr.
  unfold result_of, swap in Hr. destruct (String.eqb fromToken toToken).
  - discriminate.
  - now exists (attempts s).
Qed.

Lemma emits_forEach {A} (E : event -> Prop) (l : list A) (body : A -> M unit) :
  (forall x, In x l -> emits E (body x)) -> emits E (forEach l body).
Proof. intro H. now apply hoare_forEach. Qed.

(** Breaks a computation down to its primitive steps. *)
Ltac emits_steps :=
  repeat match goal with
    | |- emits _ (ret _) => apply emits_ret
    | |- emits _ (read _) => apply emits_read
    | |- emits _ (bind _ _) => apply emits_bind; [|intro]
    | |- emits _ (log _) => apply emits_log
    | |- emits _ (write _ _) => apply emits_write
    | |- emits _ (swap _ _ _ _) => apply emits_swap; intros ? ? ?
    | |- emits _ (if ?b then _ else _) => destruct b eqn:?
    end.

(** *** Readings of a trace *)

Lemma sells_app (a b : list event) : sells (a ++ b) = (sells a ++ sells b)%list.
Proof. apply flat_map_app. Qed.

Lemma buys_app (a b : list event) : buys (a ++ b) = (buys a ++ buys b)%list.
Proof. apply flat_map_app. Qed.

Lemma base_phases_app (a b : list event) :
  base_phases (a ++ b) = (base_phases a ++ base_phases b)%list.
Proof. apply flat_map_app. Qed.

Lemma no_marker_readings (es : list event) :
  Forall (fun e => is_marker e = false) es ->
  sells es = [] /\ buys es = [] /\ base_phases es = [].
Proof.
  induction 1 as [|e es He _ IH]; [now repeat split|].
  destruct IH as (H1 & H2 & H3).
  destruct e; try discriminate; cbn [sells buys base_phases flat_map app];
    fold (sells es) (buys es) (base_phases es); now rewrite H1, H2, H3.
Qed.
(** ** Deviation detector *)

Lemma detect_In (this : bot) (cw : obj) (tv : num) (t : trade) :
  In t (detect this cw tv) <->
  In (token t) (Obj.keys cw) /\
  diff t = deviation this cw (token t) /\
  (Num.abs (diff t) >? deviationThreshold this) = true /\
  (Num.abs (diff t * tv) >? minTradeUSD this) = true.
Proof.
  unfold detect, deviation. rewrite in_flat_map. split.
  - intros (tok & Hk & Hin).
    destruct (Num.abs (Obj.get cw tok - Obj.get (weights this) tok)
              >? deviationThreshold this) eqn:E1; [|contradiction].
    destruct (Num.abs ((Obj.get cw tok - Obj.get (weights this) tok) * tv)
              >? minTradeUSD this) eqn:E2; [|contradiction].
    destruct Hin as [<-|[]]. cbn [token diff]. auto.
  - intros (Hk & Hd & H1 & H2). exists (token t). split; [exact Hk|].
    rewrite <- Hd, H1, H2. left. now destruct t.
Qed.

(** C4.  In [rebalance], a trade intent [{token, diff}] is pushed for a
    token exactly when the token is a key of the current weights, [diff] is
    its deviation, [|diff|] is strictly above the deviation threshold and
    [|diff * totalValue|] is strictly above the minimum trade value.  A
    token whose [|diff|] equals the threshold is not flagged, and a token
    failing either test has no intent. *)
Theorem C4_trade_intent_iff_both_thresholds
    (this : bot) (currentWeights balances prices : obj) :
  let totalValue := portfolio_value balances prices in
  let trades := detect this currentWeights totalValue in
  (forall tok d,
      In (mkTrade tok d) trades <->
      In tok (Obj.keys currentWeights) /\
      d = deviation this currentWeights tok /\
      (Num.abs d >? deviationThreshold this) = true /\
      (Num.abs (d * totalValue) >? minTradeUSD this) = true)
  /\ (forall tok,
         Num.abs (deviation this currentWeights tok) = deviationThreshold this ->
         forall t, In t trades -> token t <> tok)
  /\ (forall tok,
         (Num.abs (deviation this currentWeights tok) >? deviationThreshold this) = false
         \/ (Num.abs (deviation this currentWeights tok * totalValue)
             >? minTradeUSD this) = false ->
         forall t, In t trades -> token t <> tok).
Proof.
  intros totalValue trades. subst trades. split; [|split].
  - intros tok d. apply (detect_In this currentWeights totalValue (mkTrade tok d)).
  - intros tok Heq t Hin Htok. apply detect_In in Hin.
    destruct Hin as (_ & Hd & H1 & _). subst tok. rewrite Hd, Heq in H1.
    unfold Num.gtb in H1. rewrite NumFacts.ltb_irrefl in H1. discriminate.
  - intros tok Hfail t Hin Htok. apply detect_In in Hin.
    destruct Hin as (_ & Hd & H1 & H2). subst tok. rewrite Hd in H1, H2.
    destruct Hfail as [F|F]; congruence.
Qed.

(** ** Weight calculator *)




Section WeightFacts.

Variables (balances prices : obj).

Local Abbreviation v := (value_of balances prices).

Local Abbreviation step :=
  (fun (acc : num) (tok : string) =>
     acc + (if Num.isNaN (v tok) then Num.zero else v tok)).






End WeightFacts.




(** The tolerance is needed: in doubles the weights of six equal holdings
    sum to the double just under 1. *)
Example six_equal_holdings_in_doubles :
  let weights0 := Double.calculateWeights Double.equal_balances Double.equal_prices in
  Double.below_one (Double.sum weights0) = true
  /\ Double.within_tolerance (Double.sum weights0) = true.
Proof. vm_compute. split; reflexivity. Qed.


(** ** Baseline tracker *)

Lemma sub_self_Fin (q : Q) : Fin q - Fin q = Fin 0.
Proof.
  cbn [Num.sub]. f_equal. change 0%Q with (Qred 0). apply Qred_complete. lra.
Qed.

Lemma mul_finite (x y : num) : Num.finite x -> Num.finite y -> Num.finite (x * y).
Proof. intros [a ->] [b ->]. now exists (Qred (a * b)). Qed.

Lemma add_finite (x y : num) : Num.finite x -> Num.finite y -> Num.finite (x + y).
Proof. intros [a ->] [b ->]. now exists (Qred (a + b)). Qed.

(** The plain total is finite when every balance and price behind it is. *)
Lemma portfolio_value_finite (balances prices : obj) :
  Forall (fun tok => Num.finite (Obj.get balances tok)
                     /\ Num.finite (Obj.get prices tok))
         (Obj.keys balances) ->
  Num.finite (portfolio_value balances prices).
Proof.
  unfold portfolio_value. intro H.
  assert (G : forall acc, Num.finite acc ->
            Num.finite (fold_left (fun sum t => sum + value_of balances prices t)
                                  (Obj.keys balances) acc)).
  { induction H as [|k ks [Hb Hp] _ IH]; intros acc Hacc; cbn [fold_left].
    - exact Hacc.
    - apply IH. apply add_finite; [exact Hacc|]. now apply mul_finite. }
  apply G. now exists 0%Q.
Qed.

(** C10.  When the current balances are the baseline snapshot, with every
    baseline balance finite and a finite price for every baseline token,
    [calculateHodlComparison] reports a rebalance-vs-hodl difference of
    exactly 0. *)
Theorem C10_hodl_difference_zero_on_baseline
    (this : bot) (currentBalances currentPrices : obj)
    (Hsame : currentBalances = initialBalances this)
    (Hfinite :
       Forall (fun tok => Num.finite (Obj.get (initialBalances this) tok)
                          /\ Num.finite (Obj.get currentPrices tok))
              (Obj.keys (initialBalances this))) :
  rebalanceVsHodl (calculateHodlComparison this currentBalances currentPrices)
  = Fin 0.
Proof.
  subst currentBalances. unfold calculateHodlComparison. cbn [rebalanceVsHodl].
  destruct (portfolio_value_finite _ _ Hfinite) as [q ->].
  apply sub_self_Fin.
Qed.

(** C10 on a sample baseline. *)
Lemma C10_hodl_difference_zero_witness :
  rebalanceVsHodl
    (calculateHodlComparison fresh_bot
                             demo_baseline demo_prices)
  = Fin 0.
Proof.
  apply C10_hodl_difference_zero_on_baseline.
  - reflexivity.
  - repeat constructor; eexists; reflexivity.
Defined.

(** ** Configuration *)

(** The constructor installs parsed weights as they are. *)
Lemma constructor_keeps_parsed_weights
    (w : obj) (threshold minTrade : num) (baseline : obj) :
  weights (constructor (Parsed w) threshold minTrade baseline) = w.
Proof. reflexivity. Qed.

(** C1, on the code.  Weights that sum to 0.7 and come in through
    [CUSTOM_WEIGHTS] are installed unchanged by the constructor; a value
    that does not parse is replaced by the equal allocation; and
    [POST /api/config] accepts weights that sum to 1.005. *)
Theorem C1_unnormalised_weights_are_accepted :
  sum (Obj.values short_weights) = Fin (7 # 10)
  /\ weights (constructor (Parsed short_weights) NaN NaN demo_baseline)
     = short_weights
  /\ weights (constructor Unparsable NaN NaN demo_baseline) = equal_allocation
  /\ sum (Obj.values loose_weights) = Fin (201 # 200)
  /\ post_config (Some fresh_bot) (mkRequest None None (Some loose_weights))
     = (Status200,
        Some (with_config fresh_bot (deviationThreshold fresh_bot)
                          (minTradeUSD fresh_bot) loose_weights)).
Proof. vm_compute. repeat split; reflexivity. Qed.

(** ** Price cache *)

(** A successful fetch stores a cache entry without [maxAge], so the
    entry never tests as fresh. *)
Lemma fetched_cache_is_never_fresh
    (this this' : bot) (r : response) (now : Z) (p : obj) :
  getPricesFromBinance this r now = (Some p, this') ->
  forall now2, cache_fresh (priceCache this') now2 = false.
Proof.
  unfold getPricesFromBinance. destruct r as [data|]; [|discriminate].
  destruct (6 <=? _)%nat; [|discriminate].
  intros [= _ <-] now2. unfold cache_fresh. cbn [priceCache set_prices cache_maxAge].
  apply andb_false_r.
Qed.

(** C3, on the code.  The first call, at time 1000, fetches and replaces
    the cache with the prices [prices_a], stamped 1001.  A second call at
    time 1002, far inside the five minutes, does not return the cached map:
    it fetches again and returns what the new response holds. *)
Theorem C3_second_call_fetches_again :
  let first := getPrices fresh_bot 1000 (Some tickers_a) 1001 in
  let second := getPrices (after first) 1002 (Some tickers_b) 1003 in
  returned first = Some prices_a
  /\ cache_prices (priceCache (after first)) = prices_a
  /\ cache_timestamp (priceCache (after first)) = 1001%Z
  /\ lastKnownPrices (after first) = prices_a
  /\ cache_fresh (priceCache (after first)) 1002 = false
  /\ fetched second = true
  /\ returned second = Some prices_b.
Proof. vm_compute. repeat split; reflexivity. Qed.

(** ** Trade planner: the shape of a pass *)

Section Phases.

Variables (this : bot) (exchange : nat -> bool).
Variables (currentWeights prices : obj) (totalValue : num).

Local Abbreviation sell_step' := (sell_step this exchange prices totalValue).
Local Abbreviation buy_step' := (buy_step this exchange prices totalValue).
Local Abbreviation base := (baseToken this).

(** What follows the opening event of a sell turn: swaps into the base
    token, stores and skips. *)
Lemma sell_step_events (t : trade) (s : state) :
  exists rest,
    events_of (sell_step' t) s = SellTrade t :: rest
    /\ Forall (fun e => is_marker e = false /\ sells_into base e) rest.
Proof.
  unfold sell_step. rewrite bind_events. eexists. split; [reflexivity|].
  apply emits_events. emits_steps; now split.
Qed.

Lemma buy_step_events (t : trade) (s : state) :
  exists rest,
    events_of (buy_step' t) s = BuyTrade t :: rest
    /\ Forall (fun e => is_marker e = false /\ pays_with base e) rest.
Proof.
  unfold buy_step. rewrite bind_events. eexists. split; [reflexivity|].
  apply emits_events. emits_steps; try now split.
  split; [reflexivity|]. cbn [pays_with]. split; [reflexivity|].
  match goal with H : String.eqb _ _ = false |- _ => apply String.eqb_neq in H end.
  congruence.
Qed.

Lemma sell_phase_events (l : list trade) (s : state) :
  let es := events_of (forEach l sell_step') s in
  sells es = l /\ buys es = [] /\ base_phases es = []
  /\ Forall (sells_into base) es.
Proof.
  revert s. induction l as [|t l IH]; intro s; cbn zeta.
  - now repeat split.
  - rewrite forEach_cons_events.
    destruct (sell_step_events t s) as (rest & -> & Hrest).
    destruct (IH (state_of (sell_step' t) s)) as (I1 & I2 & I3 & I4).
    destruct (no_marker_readings rest) as (R1 & R2 & R3).
    { eapply Forall_impl; [|exact Hrest]. now intros e [He _]. }
    cbn [app]. rewrite Forall_cons_iff, Forall_app.
    change (SellTrade t :: (rest ++ ?x))%list with ([SellTrade t] ++ rest ++ x)%list.
    rewrite !sells_app, !buys_app, !base_phases_app, I1, I2, I3, R1, R2, R3.
    repeat split; trivial.
    eapply Forall_impl; [|exact Hrest]. now intros e [_ He].
Qed.

Lemma buy_phase_events (l : list trade) (s : state) :
  let es := events_of (forEach l buy_step') s in
  buys es = l /\ sells es = [] /\ base_phases es = []
  /\ Forall (pays_with base) es.
Proof.
  revert s. induction l as [|t l IH]; intro s; cbn zeta.
  - now repeat split.
  - rewrite forEach_cons_events.
    destruct (buy_step_events t s) as (rest & -> & Hrest).
    destruct (IH (state_of (buy_step' t) s)) as (I1 & I2 & I3 & I4).
    destruct (no_marker_readings rest) as (R1 & R2 & R3).
    { eapply Forall_impl; [|exact Hrest]. now intros e [He _]. }
    cbn [app]. rewrite Forall_cons_iff, Forall_app.
    change (BuyTrade t :: (rest ++ ?x))%list with ([BuyTrade t] ++ rest ++ x)%list.
    rewrite !sells_app, !buys_app, !base_phases_app, I1, I2, I3, R1, R2, R3.
    repeat split; trivial.
    eapply Forall_impl; [|exact Hrest]. now intros e [_ He].
Qed.

Lemma deficit_loop_emits (l : list overweight) (remainingNeeded : num) :
  emits (fun e => is_marker e = false /\ sells_into base e)
        (deficit_loop this exchange prices l remainingNeeded).
Proof.
  revert remainingNeeded. induction l as [|o l IH]; intro r; cbn [deficit_loop].
  - apply emits_ret.
  - destruct (r <=? Num.one); [apply emits_ret|].
    apply emits_bind; [|intro; apply IH].
    unfold deficit_step. emits_steps; now split.
Qed.

(** The base-token phase opens with its marker; the rest are swaps into
    the base token, stores and skips. *)
Lemma deficit_phase_events (s : state) :
  exists needed rest,
    events_of (deficit_phase this exchange currentWeights prices totalValue) s
    = BaseUnderweight needed :: rest
    /\ Forall (fun e => is_marker e = false /\ sells_into base e) rest.
Proof.
  unfold deficit_phase. rewrite bind_events.
  change (events_of (read base) s) with (@nil event). cbn [app].
  rewrite bind_events. eexists. eexists. split; [reflexivity|].
  apply emits_events. apply emits_bind.
  - intros s' _. split; [constructor|trivial].
  - intro cands. apply deficit_loop_emits.
Qed.

End Phases.

Lemma rebalance_events (this : bot) (exchange : nat -> bool)
    (currentWeights balances prices : obj) :
  snd (rebalance this exchange currentWeights balances prices)
  = events_of
      (run_trades this exchange currentWeights prices
         (portfolio_value balances prices)
         (detect this currentWeights (portfolio_value balances prices)))
      (start balances).
Proof.
  unfold rebalance, events_of, start.
  now destruct (run_trades _ _ _ _ _ _ _) as [[u s] es].
Qed.

Lemma rebalance_state (this : bot) (exchange : nat -> bool)
    (currentWeights balances prices : obj) :
  fst (rebalance this exchange currentWeights balances prices)
  = state_of
      (run_trades this exchange currentWeights prices
         (portfolio_value balances prices)
         (detect this currentWeights (portfolio_value balances prices)))
      (start balances).
Proof.
  unfold rebalance, state_of, start.
  now destruct (run_trades _ _ _ _ _ _ _) as [[u s] es].
Qed.

Lemma sellTrades_In (trades : list trade) (t : trade) :
  In t (sellTrades trades) <-> In t trades /\ (diff t >? Num.zero) = true.
Proof. unfold sellTrades. rewrite sort_In. apply filter_In. Qed.

Lemma buyTrades_In (trades : list trade) (t : trade) :
  In t (buyTrades trades) <-> In t trades /\ (diff t <? Num.zero) = true.
Proof. unfold buyTrades. rewrite sort_In. apply filter_In. Qed.

Lemma find_base_iff (base : string) (l : list trade) :
  find (fun t => String.eqb (token t) base) l <> None
  <-> exists t, In t l /\ token t = base.
Proof.
  split.
  - destruct (find _ l) as [t|] eqn:E; [intros _|congruence].
    apply find_some in E. exists t. now rewrite <- String.eqb_eq.
  - intros (t & Hin & Ht) E. apply (find_none _ _ E) in Hin.
    apply String.eqb_neq in Hin. contradiction.
Qed.

(** C5.  The trace of a pass is the sell phase, then the base-token phase,
    then the buy phase, then the closing line.  The sell phase takes up the
    flagged trades with positive deviation, in descending order of
    deviation; the buy phase takes up those with negative deviation, in
    ascending order; no buy trade is taken up before the base-token phase is
    over; that phase is entered exactly when the base token is a buy trade;
    every swap of the first two phases sells into the base token, and every
    swap of the buy phase pays with the base token for another token. *)
Theorem C5_sells_then_base_then_buys
    (this : bot) (exchange : nat -> bool) (currentWeights balances prices : obj) :
  let trades := detect this currentWeights (portfolio_value balances prices) in
  let es := snd (rebalance this exchange currentWeights balances prices) in
  exists e_sell e_base e_buy closing,
    es = (e_sell ++ e_base ++ e_buy ++ [Done closing])%list
    /\ (sells e_sell = sellTrades trades /\ buys e_sell = []
        /\ base_phases e_sell = [] /\ Forall (sells_into (baseToken this)) e_sell)
    /\ (sells e_base = [] /\ buys e_base = []
        /\ Forall (sells_into (baseToken this)) e_base
        /\ (e_base <> [] <->
            exists t, In t (buyTrades trades) /\ token t = baseToken this))
    /\ (sells e_buy = [] /\ buys e_buy = buyTrades trades
        /\ base_phases e_buy = [] /\ Forall (pays_with (baseToken this)) e_buy)
    /\ (StronglySorted (fun a b => (diff b <=? diff a) = true) (sellTrades trades)
        /\ forall t, In t (sellTrades trades) <->
                     In t trades /\ (diff t >? Num.zero) = true)
    /\ (StronglySorted (fun a b => (diff a <=? diff b) = true) (buyTrades trades)
        /\ forall t, In t (buyTrades trades) <->
                     In t trades /\ (diff t <? Num.zero) = true).
Proof.
  intros trades es. subst es. rewrite rebalance_events. fold trades.
  set (tv := portfolio_value balances prices).
  assert (Hsorted :
    (StronglySorted (fun a b => (diff b <=? diff a) = true) (sellTrades trades)
     /\ forall t, In t (sellTrades trades) <->
                  In t trades /\ (diff t >? Num.zero) = true)
    /\ (StronglySorted (fun a b => (diff a <=? diff b) = true) (buyTrades trades)
        /\ forall t, In t (buyTrades trades) <->
                     In t trades /\ (diff t <? Num.zero) = true)).
  { split; split;
      [apply sellTrades_sorted|intro; apply sellTrades_In
      |apply buyTrades_sorted|intro; apply buyTrades_In]. }
  destruct trades as [|t0 trades'] eqn:Etr.
  - exists [], [], [], false. cbn [run_trades app].
    split; [reflexivity|]. split; [now repeat split|]. split.
    + split; [reflexivity|]. split; [reflexivity|]. split; [constructor|].
      split; [intro H; now contradiction H|].
      intros (t & Hin & _). apply buyTrades_In in Hin. now destruct Hin as [[] _].
    + split; [now repeat split|exact Hsorted].
  - assert (Etr' : trades <> []) by (rewrite Etr; discriminate).
    rewrite <- Etr in *. clear Etr t0 trades'.
    assert (Hrun : run_trades this exchange currentWeights prices tv trades
                   = (sell_phase this exchange prices tv trades ;;;
                      base_phase this exchange currentWeights prices tv trades ;;;
                      buy_phase this exchange prices tv trades ;;;
                      log (Done true))).
    { unfold run_trades. destruct trades; [now contradiction Etr'|reflexivity]. }
    rewrite Hrun. rewrite !bind_events.
    set (s1 := state_of (sell_phase this exchange prices tv trades) (start balances)).
    set (s2 := state_of (base_phase this exchange currentWeights prices tv trades) s1).
    exists (events_of (sell_phase this exchange prices tv trades) (start balances)),
           (events_of (base_phase this exchange currentWeights prices tv trades) s1),
           (events_of (buy_phase this exchange prices tv trades) s2), true.
    split; [reflexivity|].
    split; [apply (sell_phase_events this exchange prices tv)|].
    split.
    + unfold base_phase.
      pose proof (find_base_iff (baseToken this) (buyTrades trades)) as Hfind.
      destruct (find _ (buyTrades trades)) as [wethTrade|].
      * destruct (deficit_phase_events this exchange currentWeights prices tv s1)
          as (needed & rest & -> & Hrest).
        destruct (no_marker_readings rest) as (R1 & R2 & R3).
        { eapply Forall_impl; [|exact Hrest]. now intros e [He _]. }
        change (BaseUnderweight needed :: rest)
          with ([BaseUnderweight needed] ++ rest)%list.
        rewrite sells_app, buys_app, R1, R2.
        repeat split; trivial.
        -- apply Forall_app. split; [now repeat constructor|].
           eapply Forall_impl; [|exact Hrest]. now intros e [_ He].
        -- intros _. apply Hfind. discriminate.
        -- discriminate.
      * repeat split; trivial.
        -- intro H. now contradiction H.
        -- intro H. apply Hfind in H. now contradiction H.
    + split; [|exact Hsorted].
      destruct (buy_phase_events this exchange prices tv (buyTrades trades) s2)
        as (B1 & B2 & B3 & B4).
      now repeat split.
Qed.

(** ** Trade planner: the sell phase *)

(** Leaving trades out keeps their tokens distinct. *)
Lemma filter_tokens_distinct (keep : trade -> bool) (trades : list trade) :
  NoDup (map token trades) -> NoDup (map token (filter keep trades)).
Proof.
  induction trades as [|t trades IH]; cbn [map filter]; [trivial|].
  intro H. apply NoDup_cons_iff in H. destruct H as [Ht Hl].
  destruct (keep t); cbn [map]; [|now apply IH].
  constructor; [|now apply IH].
  intro Hin. apply Ht. apply in_map_iff in Hin.
  destruct Hin as (y & Hy & Hin). apply filter_In in Hin.
  apply in_map_iff. exists y. tauto.
Qed.

(** Each key of the current weights gives at most one trade. *)
Lemma detect_tokens (this : bot) (cw : obj) (tv : num) :
  Obj.wf cw -> NoDup (map token (detect this cw tv)).
Proof.
  unfold Obj.wf, detect. induction (Obj.keys cw) as [|k ks IH]; cbn [flat_map map].
  - constructor.
  - intro H. apply NoDup_cons_iff in H. destruct H as [Hk Hks].
    assert (Hsub : forall x, In x (map token (flat_map
              (fun token0 =>
                 let diff0 := Obj.get cw token0 - Obj.get (weights this) token0 in
                 let valueDiff := diff0 * tv in
                 if Num.abs diff0 >? deviationThreshold this
                 then if Num.abs valueDiff >? minTradeUSD this
                      then [mkTrade token0 diff0] else []
                 else []) ks)) -> In x ks).
    { intros x Hx. apply in_map_iff in Hx. destruct Hx as (t & <- & Ht).
      apply in_flat_map in Ht. destruct Ht as (k' & Hk' & Ht).
      cbn zeta in Ht.
      destruct (_ >? deviationThreshold this); [|contradiction].
      destruct (_ >? minTradeUSD this); [|contradiction].
      destruct Ht as [<-|[]]. exact Hk'. }
    cbn zeta. rewrite map_app.
    destruct (_ >? deviationThreshold this); cbn [map app]; [|now apply IH].
    destruct (_ >? minTradeUSD this); cbn [map app token]; [|now apply IH].
    constructor; [|now apply IH]. intro Hin. apply Hk. now apply Hsub.
Qed.

Lemma sellTrades_tokens (this : bot) (cw : obj) (tv : num) :
  Obj.wf cw -> NoDup (map token (sellTrades (detect this cw tv))).
Proof.
  intro H. unfold sellTrades.
  eapply Permutation_NoDup.
  - apply Permutation_map. apply sort_perm.
  - apply filter_tokens_distinct. now apply detect_tokens.
Qed.

Section SellPhase.

Variables (this : bot) (exchange : nat -> bool) (prices : obj) (totalValue : num).

Local Abbreviation sell_step' := (sell_step this exchange prices totalValue).
Local Abbreviation base := (baseToken this).

(** The swap of a sell turn: from the trade's token into the base token,
    for the amount computed on the balances at hand, which is at least the
    dust floor. *)
Lemma sell_step_swap (t : trade) (s : state) (f to : string) (a : num) (r : outcome) :
  In (SwapCall f to a r) (events_of (sell_step' t) s) ->
  f = token t /\ to = base
  /\ a = sell_amount this prices totalValue (balances s) (token t)
  /\ (a >=? sell_dust) = true
  /\ (r = SameToken <-> f = to).
Proof.
  unfold sell_amount, sell_step. run_step.
  all: cbn [In]; intros H; repeat (destruct H as [H|H]; try discriminate H);
    try contradiction.
  all: injection H as <- <- <- <-.
  all: eqb_props.
  all: repeat split; auto; try discriminate; try (intro; contradiction).
Qed.

(** A sell turn writes only the trade's token and the base token. *)
Lemma sell_step_frame (t : trade) (s : state) (tok : string) :
  tok <> token t -> tok <> base ->
  Obj.get (balances (state_of (sell_step' t) s)) tok = Obj.get (balances s) tok.
Proof.
  intros Ht Hb. unfold sell_step. run_step; try reflexivity.
  now rewrite !ObjFacts.get_set_ne by assumption.
Qed.

Lemma sell_phase_swaps (l : list trade) :
  NoDup (map token l) ->
  forall (s : state) (f to : string) (a : num) (r : outcome),
    In (SwapCall f to a r) (events_of (forEach l sell_step') s) ->
    to = base /\ In f (map token l)
    /\ (a >=? sell_dust) = true
    /\ (r = SameToken <-> f = base)
    /\ (f <> base -> a = sell_amount this prices totalValue (balances s) f).
Proof.
  induction l as [|t l IH]; intros Hnd s f to a r Hin; [contradiction|].
  cbn [map] in Hnd. apply NoDup_cons_iff in Hnd. destruct Hnd as [Ht Hnd].
  rewrite forEach_cons_events in Hin. apply in_app_or in Hin.
  destruct Hin as [Hin|Hin].
  - apply sell_step_swap in Hin. destruct Hin as (-> & -> & -> & Hd & Hr).
    repeat split; try tauto. now left.
  - apply (IH Hnd) in Hin. destruct Hin as (-> & Hf & Hd & Hr & Ha).
    repeat split; try tauto; [now right|].
    intro Hfb. rewrite (Ha Hfb). unfold sell_amount.
    rewrite sell_step_frame; [reflexivity| |exact Hfb].
    intros ->. contradiction.
Qed.

End SellPhase.

(** No call of [swap] with twice the same token goes past the guard, in any
    phase. *)
Lemma run_trades_guarded (this : bot) (exchange : nat -> bool)
    (currentWeights prices : obj) (totalValue : num) (trades : list trade) :
  emits guarded (run_trades this exchange currentWeights prices totalValue trades).
Proof.
  assert (Hloop : forall l r, emits guarded (deficit_loop this exchange prices l r)).
  { induction l as [|o l IH]; intro r; cbn [deficit_loop]; [apply emits_ret|].
    destruct (r <=? Num.one); [apply emits_ret|].
    apply emits_bind; [|intro; apply IH].
    unfold deficit_step. emits_steps; cbn [guarded]; trivial. }
  unfold run_trades. destruct trades as [|t0 trades']; [now apply emits_log|].
  set (trades := t0 :: trades').
  apply emits_bind; [|intros _; apply emits_bind; [|intros _; apply emits_bind]].
  - apply emits_forEach. intros t _. unfold sell_step.
    emits_steps; cbn [guarded]; trivial.
  - unfold base_phase. destruct (find _ _); [|apply emits_ret].
    unfold deficit_phase. apply emits_bind; [apply emits_read|intro].
    apply emits_bind; [now apply emits_log|intro].
    apply emits_bind; [|intro; apply Hloop].
    intros s _. split; [constructor|trivial].
  - apply emits_forEach. intros t _. unfold buy_step.
    emits_steps; cbn [guarded]; trivial.
  - intros _. now apply emits_log.
Qed.

(** C7 (as amended).  The swaps of the sell phase, which opens every
    pass, all sell a token of the sell set into the base token, for an
    amount of at least 0.00001; for a token other than the base token that
    amount is [(currentValue - targetValue) / price] on the balances of
    entry; the call for the base token itself stops at the same-token
    guard; and in the whole pass no call of [swap] with twice the same
    token goes on to the exchange. *)
Theorem C7_sell_swaps_reach_the_dust_floor
    (this : bot) (exchange : nat -> bool) (currentWeights balances prices : obj)
    (Hwf : Obj.wf currentWeights) :
  let totalValue := portfolio_value balances prices in
  let trades := detect this currentWeights totalValue in
  let es := snd (rebalance this exchange currentWeights balances prices) in
  let e_sell :=
    events_of (sell_phase this exchange prices totalValue trades) (start balances) in
  (exists rest, es = (e_sell ++ rest)%list /\ sells rest = [])
  /\ (forall f to a r,
        In (SwapCall f to a r) e_sell ->
        to = baseToken this
        /\ (exists t, In t (sellTrades trades) /\ token t = f)
        /\ (a >=? sell_dust) = true
        /\ (r = SameToken <-> f = baseToken this)
        /\ (f <> baseToken this ->
            a = sell_amount this prices totalValue balances f))
  /\ (forall f to a r, In (SwapCall f to a r) es -> (r = SameToken <-> f = to)).
Proof.
  intros totalValue trades es e_sell. split; [|split].
  - subst es e_sell. rewrite rebalance_events. fold totalValue trades.
    unfold run_trades. destruct trades as [|t0 trades'] eqn:Etr.
    + exists [Done false]. now split.
    + rewrite <- Etr. rewrite bind_events. eexists. split; [reflexivity|].
      rewrite !bind_events, !sells_app.
      set (s1 := state_of _ _).
      set (s2 := state_of _ s1).
      destruct (buy_phase_events this exchange prices totalValue (buyTrades trades) s2)
        as (_ & Hb & _).
      unfold buy_phase. rewrite Hb. cbn [sells flat_map app]. rewrite app_nil_r.
      unfold base_phase. destruct (find _ _); [|reflexivity].
      destruct (deficit_phase_events this exchange currentWeights prices totalValue s1)
        as (needed & rest & -> & Hrest).
      destruct (no_marker_readings rest) as (Hr & _).
      { eapply Forall_impl; [|exact Hrest]. now intros e [He _]. }
      change (BaseUnderweight needed :: rest)
        with ([BaseUnderweight needed] ++ rest)%list.
      now rewrite sells_app, Hr.
  - intros f to a r Hin. subst e_sell. unfold sell_phase in Hin.
    apply sell_phase_swaps in Hin; [|now apply sellTrades_tokens].
    destruct Hin as (Hto & Hf & Hd & Hr & Ha).
    repeat split; try tauto.
    apply in_map_iff in Hf. destruct Hf as (t & Ht & Hin). now exists t.
  - intros f to a r Hin. subst es. rewrite rebalance_events in Hin.
    pose proof (emits_events guarded _ (start balances)
                  (run_trades_guarded this exchange currentWeights prices
                     totalValue trades)) as HF.
    rewrite Forall_forall in HF. apply (HF _ Hin).
Qed.

(** C7 on the sample pass at the dust floor. *)
Lemma C7_sell_swaps_witness :
  Obj.wf (calculateWeights dust_balances dust_prices)
  /\ forall f to a r,
       In (SwapCall f to a r)
          (snd (rebalance dust_bot (fun _ => true)
                  (calculateWeights dust_balances dust_prices)
                  dust_balances dust_prices)) ->
       (r = SameToken <-> f = to).
Proof.
  assert (Hwf : Obj.wf (calculateWeights dust_balances dust_prices)).
  { unfold Obj.wf. vm_compute. repeat constructor; cbn; intuition discriminate. }
  split; [exact Hwf|].
  apply (C7_sell_swaps_reach_the_dust_floor dust_bot (fun _ => true) _
           dust_balances dust_prices Hwf).
Defined.

(** C7, counterexample to a strict dust floor: the pass below computes a
    sell amount of exactly 0.00001, which does not exceed the floor, and
    the swap is made and filled. *)
Lemma C7_swap_at_the_dust_floor :
  sell_amount dust_bot dust_prices (portfolio_value dust_balances dust_prices)
              dust_balances "cbBTC" = sell_dust
  /\ (sell_dust >? sell_dust) = false
  /\ In (SwapCall "cbBTC" "WETH" sell_dust Filled)
        (snd (rebalance_pass dust_bot (fun _ => true) dust_balances dust_prices)).
Proof. vm_compute. repeat split. right. now left. Qed.

(** ** Trade planner: failed swaps *)

Lemma unfilled_filled (es : list event) : Forall unfilled es -> filled es = [].
Proof.
  induction 1 as [|e es He _ IH]; [reflexivity|].
  unfold filled in *. cbn [filter].
  destruct e as [| | |f to a r| | |]; trivial. now destruct r.
Qed.

Section Failures.

Variables (this : bot) (exchange : nat -> bool) (prices : obj) (totalValue : num).

Lemma sell_step_unfilled (t : trade) (s : state) :
  filled (events_of (sell_step this exchange prices totalValue t) s) = [] ->
  balances (state_of (sell_step this exchange prices totalValue t) s) = balances s.
Proof. unfold sell_step. run_step; cbn; trivial; discriminate. Qed.

Lemma deficit_step_unfilled (o : overweight) (remainingNeeded : num) (s : state) :
  filled (events_of (deficit_step this exchange prices o remainingNeeded) s) = [] ->
  balances (state_of (deficit_step this exchange prices o remainingNeeded) s)
  = balances s
  /\ result_of (deficit_step this exchange prices o remainingNeeded) s
     = remainingNeeded.
Proof. unfold deficit_step. run_step; cbn; auto; discriminate. Qed.

Lemma buy_step_unfilled (t : trade) (s : state) :
  filled (events_of (buy_step this exchange prices totalValue t) s) = [] ->
  balances (state_of (buy_step this exchange prices totalValue t) s) = balances s.
Proof. unfold buy_step. run_step; cbn; trivial; discriminate. Qed.

(** When the exchange fills nothing, no phase changes the balances. *)
Section AllFail.

Hypothesis all_fail : forall n, exchange n = false.

Lemma failing_swap_unfilled (f to : string) (a : num) (r : outcome) :
  (r = Filled -> exists n, exchange n = true) -> unfilled (SwapCall f to a r).
Proof.
  intro H. destruct r; cbn; trivial.
  destruct H as [n Hn]; [reflexivity|]. rewrite all_fail in Hn. discriminate.
Qed.

Lemma sell_step_fails (t : trade) :
  emits unfilled (sell_step this exchange prices totalValue t).
Proof.
  unfold sell_step. emits_steps; try exact I. now apply failing_swap_unfilled.
Qed.

Lemma deficit_step_fails (o : overweight) (r : num) :
  emits unfilled (deficit_step this exchange prices o r).
Proof.
  unfold deficit_step. emits_steps; try exact I. now apply failing_swap_unfilled.
Qed.

Lemma buy_step_fails (t : trade) :
  emits unfilled (buy_step this exchange prices totalValue t).
Proof.
  unfold buy_step. emits_steps; try exact I. now apply failing_swap_unfilled.
Qed.

Lemma sell_loop_fails (l : list trade) (s : state) :
  balances (state_of (forEach l (sell_step this exchange prices totalValue)) s)
  = balances s.
Proof.
  revert s. induction l as [|t l IH]; intro s; [reflexivity|].
  rewrite forEach_cons_state, IH. apply sell_step_unfilled.
  apply unfilled_filled, emits_events, sell_step_fails.
Qed.

Lemma buy_loop_fails (l : list trade) (s : state) :
  balances (state_of (forEach l (buy_step this exchange prices totalValue)) s)
  = balances s.
Proof.
  revert s. induction l as [|t l IH]; intro s; [reflexivity|].
  rewrite forEach_cons_state, IH. apply buy_step_unfilled.
  apply unfilled_filled, emits_events, buy_step_fails.
Qed.

Lemma deficit_loop_fails (l : list overweight) (r : num) (s : state) :
  balances (state_of (deficit_loop this exchange prices l r) s) = balances s.
Proof.
  revert r s. induction l as [|o l IH]; intros r s; cbn [deficit_loop]; [reflexivity|].
  destruct (r <=? Num.one); [reflexivity|].
  rewrite bind_state, IH. apply deficit_step_unfilled.
  apply unfilled_filled, emits_events, deficit_step_fails.
Qed.

Lemma run_trades_fails (currentWeights : obj) (trades : list trade) (s : state) :
  balances (state_of (run_trades this exchange currentWeights prices totalValue trades) s)
  = balances s.
Proof.
  unfold run_trades. destruct trades as [|t0 trades']; [reflexivity|].
  set (trades := t0 :: trades').
  rewrite !bind_state. cbn [state_of log fst snd].
  unfold buy_phase. rewrite buy_loop_fails.
  unfold base_phase. destruct (find _ _).
  - unfold deficit_phase. rewrite !bind_state.
    rewrite deficit_loop_fails. cbn [state_of log read overweightTokens fst snd].
    apply sell_loop_fails.
  - cbn [state_of ret fst snd]. apply sell_loop_fails.
Qed.

End AllFail.

End Failures.

(** C9.  A sell turn, a turn of the base-token loop and a buy turn whose
    swap is not filled leave the balances as they were (and the base-token
    loop keeps the need it had); whatever the exchange answers, the pass
    takes up every sell trade and every buy trade and ends with its closing
    line; and when the exchange fills nothing at all, the balances at the
    end of the pass are those of its start. *)
Theorem C9_failed_swaps_leave_balances_and_pass_goes_on
    (this : bot) (exchange : nat -> bool) (currentWeights balances0 prices : obj) :
  let totalValue := portfolio_value balances0 prices in
  let trades := detect this currentWeights totalValue in
  let run := rebalance this exchange currentWeights balances0 prices in
  (forall t s,
      filled (events_of (sell_step this exchange prices totalValue t) s) = [] ->
      balances (state_of (sell_step this exchange prices totalValue t) s)
      = balances s)
  /\ (forall o remainingNeeded s,
        filled (events_of (deficit_step this exchange prices o remainingNeeded) s) = [] ->
        balances
          (state_of (deficit_step this exchange prices o remainingNeeded) s)
        = balances s
        /\ result_of (deficit_step this exchange prices o remainingNeeded) s
           = remainingNeeded)
  /\ (forall t s,
        filled (events_of (buy_step this exchange prices totalValue t) s) = [] ->
        balances (state_of (buy_step this exchange prices totalValue t) s)
        = balances s)
  /\ sells (snd run) = sellTrades trades
  /\ buys (snd run) = buyTrades trades
  /\ (exists es closing, snd run = (es ++ [Done closing])%list)
  /\ ((forall n, exchange n = false) -> balances (fst run) = balances0).
Proof.
  intros totalValue trades run.
  split; [apply sell_step_unfilled|].
  split; [apply deficit_step_unfilled|].
  split; [apply buy_step_unfilled|].
  subst run. rewrite rebalance_events, rebalance_state. fold totalValue trades.
  assert (Hshape :
    sells (events_of (run_trades this exchange currentWeights prices totalValue trades)
                     (start balances0)) = sellTrades trades
    /\ buys (events_of (run_trades this exchange currentWeights prices totalValue trades)
                       (start balances0)) = buyTrades trades
    /\ exists es closing,
         events_of (run_trades this exchange currentWeights prices totalValue trades)
                   (start balances0) = (es ++ [Done closing])%list).
  { unfold run_trades. destruct trades as [|t0 trades'] eqn:Etr.
    - split; [reflexivity|]. split; [reflexivity|]. now exists [], false.
    - rewrite <- Etr. rewrite !bind_events.
      set (s1 := state_of _ _). set (s2 := state_of _ s1).
      destruct (sell_phase_events this exchange prices totalValue
                  (sellTrades trades) (start balances0)) as (S1 & S2 & _).
      destruct (buy_phase_events this exchange prices totalValue
                  (buyTrades trades) s2) as (B1 & B2 & _).
      assert (Hbase : sells (events_of (base_phase this exchange currentWeights
                                          prices totalValue trades) s1) = []
                      /\ buys (events_of (base_phase this exchange currentWeights
                                          prices totalValue trades) s1) = []).
      { unfold base_phase. destruct (find _ _); [|now split].
        destruct (deficit_phase_events this exchange currentWeights prices
                    totalValue s1) as (needed & rest & -> & Hrest).
        destruct (no_marker_readings rest) as (R1 & R2 & _).
        { eapply Forall_impl; [|exact Hrest]. now intros e [He _]. }
        change (BaseUnderweight needed :: rest)
          with ([BaseUnderweight needed] ++ rest)%list.
        now rewrite sells_app, buys_app, R1, R2. }
      destruct Hbase as [Hb1 Hb2].
      unfold sell_phase, buy_phase in *.
      rewrite !sells_app, !buys_app, S1, S2, B1, B2, Hb1, Hb2.
      cbn [sells buys flat_map events_of log snd app]. rewrite !app_nil_r.
      split; [reflexivity|]. split; [reflexivity|].
      eexists. exists true. rewrite !app_assoc. reflexivity. }
  destruct Hshape as (H1 & H2 & H3).
  split; [exact H1|]. split; [exact H2|]. split; [exact H3|].
  intro Hfail. now rewrite run_trades_fails.
Qed.

(** ** Totals and weights on well-formed input *)

Lemma div_Fin (a p : Q) : ~ (p == 0)%Q -> Fin a / Fin p = Fin (Qred (a / p)).
Proof.
  intro H. cbn [Num.div]. destruct (Qeq_bool p 0) eqn:E; [|reflexivity].
  apply Qeq_bool_iff in E. contradiction.
Qed.

Lemma Qred_zero (q : Q) : (q == 0)%Q -> Qred q = 0%Q.
Proof. intro H. change 0%Q with (Qred 0). now apply Qred_complete. Qed.

Section Totals.

Variables (held prices : obj).

Local Abbreviation v := (value_of held prices).

(** Without NaN products the two totals are the same fold. *)
Lemma totals_agree (ks : list string) (acc : num) :
  Forall (fun k => Num.isNaN (v k) = false) ks ->
  fold_left (fun sum token =>
               sum + (if Num.isNaN (v token) then Num.zero else v token)) ks acc
  = fold_left (fun sum t => sum + v t) ks acc.
Proof.
  intro H. revert acc. induction H as [|k ks Hk _ IH]; intro acc; cbn [fold_left].
  - reflexivity.
  - rewrite Hk. apply IH.
Qed.

(** A sum of non-negative products is at least each of them. *)
Lemma total_bounds (ks : list string) (acc : Q) :
  Forall (fun k => Num.nonneg (v k)) ks -> (0 <= acc)%Q ->
  exists t,
    fold_left (fun sum t => sum + v t) ks (Fin acc) = Fin t
    /\ (acc <= t)%Q
    /\ Forall (fun k => (qval (v k) <= t - acc)%Q) ks.
Proof.
  intro H. revert acc. induction H as [|k ks (x & Hx & Hpos) _ IH]; intros acc Hacc;
    cbn [fold_left].
  - exists acc. split; [reflexivity|]. split; [lra|constructor].
  - rewrite Hx. cbn [Num.add].
    destruct (IH (Qred (acc + x))) as (t & Ht & Hle & Hall).
    { rewrite Qred_correct. lra. }
    rewrite Qred_correct in Hle.
    exists t. split; [exact Ht|]. split; [lra|].
    constructor.
    + rewrite Hx. cbn [qval]. lra.
    + eapply Forall_impl; [|exact Hall]. cbn beta. intros k' Hk'.
      rewrite Qred_correct in Hk'. lra.
Qed.

End Totals.

Lemma get_tabulate (f : string -> num) (ks : list string) (k : string) :
  In k ks -> Obj.get (map (fun t => (t, f t)) ks) k = f k.
Proof.
  unfold Obj.get. induction ks as [|k' ks IH]; cbn [map Obj.lookup In]; [contradiction|].
  intro H. destruct (String.eqb k k') eqn:E.
  - apply String.eqb_eq in E. now subst.
  - apply String.eqb_neq in E. apply IH. destruct H as [->|H]; [contradiction|exact H].
Qed.

Lemma keys_tabulate (f : string -> num) (ks : list string) :
  Obj.keys (map (fun t => (t, f t)) ks) = ks.
Proof. unfold Obj.keys. rewrite map_map. cbn [fst]. apply map_id. Qed.

Lemma calculateWeights_keys (held prices : obj) :
  Obj.keys (calculateWeights held prices) = Obj.keys held.
Proof.
  unfold calculateWeights. destruct (Num.eqb _ _); apply keys_tabulate.
Qed.

(** What a key reads as in an object of non-negative numbers. *)
Lemma get_all_nonneg (o : obj) (k : string) :
  all_nonneg o -> Obj.get o k = NaN \/ Num.nonneg (Obj.get o k).
Proof.
  intro H. unfold Obj.get. destruct (Obj.lookup o k) as [x|] eqn:E; [|now left].
  right. apply ObjFacts.lookup_In in E. unfold all_nonneg in H.
  rewrite Forall_forall in H. apply (H _ E).
Qed.

Section Sane.

Variables (this : bot) (held prices : obj).
Hypothesis Hsane : sane this held prices.

Local Abbreviation K := (Obj.keys held).
Local Abbreviation tv := (portfolio_value held prices).
Local Abbreviation cw := (calculateWeights held prices).

Lemma sane_balance (k : string) : In k K -> Num.nonneg (Obj.get held k).
Proof.
  destruct Hsane as (_ & _ & Hb & _). intro Hk.
  now apply (ObjFacts.get_Forall Num.nonneg).
Qed.

Lemma sane_price (k : string) : In k K -> Num.positive (Obj.get prices k).
Proof.
  destruct Hsane as (_ & _ & _ & Hp & _). rewrite Forall_forall in Hp. apply Hp.
Qed.

Lemma sane_weight (k : string) :
  Obj.get (weights this) k = NaN \/ Num.nonneg (Obj.get (weights this) k).
Proof. destruct Hsane as (_ & _ & _ & _ & Hw). now apply get_all_nonneg. Qed.

Lemma sane_value (k : string) :
  In k K ->
  exists b p, Obj.get held k = Fin b /\ Obj.get prices k = Fin p
              /\ (0 <= b)%Q /\ (0 < p)%Q
              /\ value_of held prices k = Fin (Qred (b * p)).
Proof.
  intro Hk. destruct (sane_balance k Hk) as (b & Hb & Hb0).
  destruct (sane_price k Hk) as (p & Hp & Hp0).
  exists b, p. unfold value_of. rewrite Hb, Hp. now repeat split.
Qed.

Lemma sane_values_nonneg : Forall (fun k => Num.nonneg (value_of held prices k)) K.
Proof.
  apply Forall_forall. intros k Hk.
  destruct (sane_value k Hk) as (b & p & _ & _ & Hb & Hp & ->).
  eexists. split; [reflexivity|]. rewrite Qred_correct. nra.
Qed.

(** The total is a finite non-negative number, the same for the weight
    calculator and for [rebalance], and no product exceeds it. *)
Lemma sane_total :
  exists T, tv = Fin T /\ weights_total held prices = Fin T /\ (0 <= T)%Q
            /\ forall k, In k K -> (qval (value_of held prices k) <= T)%Q.
Proof.
  destruct (total_bounds held prices K 0 sane_values_nonneg) as (T & HT & H0 & Hall);
    [lra|].
  exists T. split; [exact HT|]. split; [|split; [exact H0|]].
  - unfold weights_total. rewrite totals_agree; [exact HT|].
    eapply Forall_impl; [|exact sane_values_nonneg].
    cbn beta. now intros k (x & -> & _).
  - intros k Hk. rewrite Forall_forall in Hall. specialize (Hall k Hk). lra.
Qed.

(** The current weight of a token held, times the total, is its value. *)
Lemma sane_weight_of (T : Q) (k : string) :
  tv = Fin T -> In k K ->
  exists y b p,
    Obj.get cw k = Fin y /\ Obj.get held k = Fin b /\ Obj.get prices k = Fin p
    /\ (0 <= b)%Q /\ (0 < p)%Q /\ (y * T == b * p)%Q
    /\ ((T == 0)%Q -> (y == 0)%Q).
Proof.
  intros HT Hk. destruct sane_total as (T' & HT' & Hw & HT0 & Hle).
  rewrite HT in HT'. injection HT' as <-.
  destruct (sane_value k Hk) as (b & p & Hb & Hp & Hb0 & Hp0 & Hv).
  specialize (Hle k Hk). rewrite Hv in Hle. cbn [qval] in Hle.
  rewrite Qred_correct in Hle.
  unfold calculateWeights. rewrite Hw. cbn [Num.eqb Num.zero].
  destruct (Qeq_bool T 0) eqn:E.
  - apply Qeq_bool_iff in E. rewrite get_tabulate by exact Hk.
    exists 0%Q, b, p. repeat split; trivial; try reflexivity. nra.
  - apply Qeq_bool_neq in E. rewrite get_tabulate by exact Hk.
    rewrite Hv, div_Fin by exact E.
    unfold Num.or_else. cbn [Num.truthy].
    destruct (Qeq_bool (Qred (Qred (b * p) / T)) 0) eqn:E0; cbn [negb].
    + apply Qeq_bool_iff in E0. rewrite !Qred_correct in E0.
      exists 0%Q, b, p. repeat split; trivial; try reflexivity.
      assert (Hbp : (b * p == (b * p / T) * T)%Q) by (field; exact E).
      rewrite Hbp, E0. lra.
    + exists (Qred (Qred (b * p) / T)), b, p. repeat split; trivial.
      * rewrite !Qred_correct. field. exact E.
      * intro. contradiction.
Qed.

(** On the balances of entry a token is above its target weight exactly
    when its value is above its target value. *)
Lemma sane_deviation_excess (k : string) :
  In k K ->
  (deviation this cw k >? Num.zero) = (excess_value this prices tv held k >? Num.zero).
Proof.
  intro Hk. destruct sane_total as (T & HT & _ & HT0 & _).
  destruct (sane_weight_of T k HT Hk)
    as (y & b & p & Hy & Hb & Hp & Hb0 & Hp0 & HyT & Hy0).
  unfold deviation, excess_value. rewrite Hy, Hb, Hp, HT.
  destruct (sane_weight k) as [->|(w & -> & Hw)]; [reflexivity|].
  cbn [Num.sub Num.mul]. unfold Num.gtb, Num.zero. cbn [Num.ltb].
  destruct (Qltb 0 (Qred (Qred (b * p) - Qred (T * w)))) eqn:E.
  - apply Qltb_lt in E. rewrite !Qred_correct in E.
    apply Qltb_lt. rewrite Qred_correct.
    assert (Hpos : (0 < T)%Q).
    { destruct (Qlt_le_dec 0 T) as [Hpos|Hzero]; [exact Hpos|].
      assert (HT0' : (T == 0)%Q) by lra.
      rewrite HT0' in HyT, E. lra. }
    assert (Hyw : (w < y)%Q).
    { apply Qnot_le_lt. intro Hle.
      assert (y * T <= w * T)%Q by (apply Qmult_le_compat_r; lra). lra. }
    lra.
  - apply Qltb_ge in E. rewrite !Qred_correct in E.
    apply Qltb_ge. rewrite Qred_correct.
    destruct (Qlt_le_dec 0 T) as [Hpos|Hzero].
    + assert (Hyw : (y <= w)%Q).
      { apply Qnot_lt_le. intro Hlt.
        assert (w * T < y * T)%Q by (apply Qmult_lt_compat_r; lra). lra. }
      lra.
    + assert (HT0' : (T == 0)%Q) by lra.
      specialize (Hy0 HT0'). lra.
Qed.

End Sane.

(** ** The balances along a pass *)

Lemma get_Fin_key (o : obj) (k : string) (q : Q) :
  Obj.get o k = Fin q -> In k (Obj.keys o).
Proof.
  unfold Obj.get. destruct (Obj.lookup o k) as [x|] eqn:E; [|discriminate].
  intros _. apply ObjFacts.lookup_In in E.
  apply in_map_iff. now exists (k, x).
Qed.

(** The numbers of a sell: what is left of the token is on target, and
    what was sold is above zero. *)
Lemma sell_numbers (b p T w : Q) :
  (0 <= b)%Q -> (0 < p)%Q -> (0 <= T)%Q -> (0 <= w)%Q ->
  ((Fin b * Fin p - Fin T * Fin w) / Fin p >=? sell_dust) = true ->
  exists x ex,
    Fin b - (Fin b * Fin p - Fin T * Fin w) / Fin p = Fin x
    /\ (0 <= x)%Q
    /\ Fin x * Fin p - Fin T * Fin w = Fin 0
    /\ Fin b * Fin p - Fin T * Fin w = Fin ex
    /\ (0 < ex)%Q.
Proof.
  intros Hb Hp HT Hw. cbn [Num.mul Num.sub].
  assert (Hp0 : ~ (p == 0)%Q) by lra.
  rewrite div_Fin by exact Hp0. intro Hd.
  apply NumFacts.geb_Fin in Hd. rewrite !Qred_correct in Hd.
  assert (Hex : (0 < b * p - T * w)%Q).
  { assert (H1 : (0 < (b * p - T * w) / p)%Q) by (unfold sell_dust in *; lra).
    assert (H2 : ((b * p - T * w) / p * p == b * p - T * w)%Q) by (field; exact Hp0).
    rewrite <- H2. apply Qmult_lt_0_compat; lra. }
  eexists. eexists. cbn [Num.sub Num.mul].
  split; [reflexivity|]. split; [|split; [|split; [reflexivity|]]].
  - rewrite !Qred_correct.
    assert (H2 : (b - (b * p - T * w) / p == T * w / p)%Q) by (field; exact Hp0).
    rewrite H2. apply Qle_shift_div_l; [exact Hp|]. nra.
  - f_equal. apply Qred_zero. rewrite !Qred_correct. field. exact Hp0.
  - rewrite !Qred_correct. exact Hex.
Qed.

(** The numbers of a credit of the base token. *)
Lemma credit_numbers (bb ex pb : Q) :
  (0 <= bb)%Q -> (0 <= ex)%Q -> (0 < pb)%Q ->
  exists x, Fin bb + Fin ex / Fin pb * slippage_factor = Fin x /\ (0 <= x)%Q.
Proof.
  intros Hbb Hex Hpb.
  assert (Hp0 : ~ (pb == 0)%Q) by lra.
  rewrite div_Fin by exact Hp0. unfold slippage_factor. cbn [Num.mul Num.add].
  eexists. split; [reflexivity|]. rewrite !Qred_correct.
  assert (0 <= ex / pb)%Q by (apply Qle_shift_div_l; lra).
  assert (0 <= ex / pb * (98 # 100))%Q by (apply Qmult_le_0_compat; lra).
  lra.
Qed.

Lemma excess_value_ext (this : bot) (prices : obj) (tv : num) (B B' : obj) (k : string) :
  Obj.get B' k = Obj.get B k ->
  excess_value this prices tv B' k = excess_value this prices tv B k.
Proof. unfold excess_value. now intros ->. Qed.

Section PassInvariant.

Variables (this : bot) (exchange : nat -> bool) (held prices : obj).
Hypothesis Hsane : sane this held prices.

Local Abbreviation tv := (portfolio_value held prices).
Local Abbreviation base := (baseToken this).
Local Abbreviation inv := (pass_inv this prices tv held).

Lemma inv_start : inv held.
Proof.
  destruct Hsane as (_ & _ & Hb & _). split; [reflexivity|]. split; [exact Hb|].
  intros k _ _. now left.
Qed.

Lemma inv_base (B : obj) : inv B -> Num.nonneg (Obj.get B base).
Proof.
  intros (Hk & Hnn & _). destruct Hsane as (_ & Hbase & _).
  apply (ObjFacts.get_Forall Num.nonneg); [exact Hnn|]. now rewrite Hk.
Qed.

(** A sell of [amount] of a token with a credit of the base token keeps
    the invariant when the new balance is on target. *)
Lemma inv_sell (B : obj) (t : string) (x y : Q) :
  inv B -> In t (Obj.keys held) -> t <> base ->
  (0 <= x)%Q -> (0 <= y)%Q ->
  excess_value this prices tv (Obj.set B t (Fin x)) t = Fin 0 ->
  inv (Obj.set (Obj.set B t (Fin x)) base (Fin y)).
Proof.
  intros (Hk & Hnn & Hex) Ht Hne Hx Hy Hnew.
  destruct Hsane as (_ & Hbase & _).
  assert (Hk1 : Obj.keys (Obj.set B t (Fin x)) = Obj.keys held).
  { rewrite ObjFacts.keys_set_In; [exact Hk|]. now rewrite Hk. }
  split; [|split].
  - rewrite ObjFacts.keys_set_In; [exact Hk1|]. now rewrite Hk1.
  - apply ObjFacts.set_Forall; [apply ObjFacts.set_Forall|]; trivial.
    + now exists x.
    + now exists y.
  - intros k Hkin Hkb.
    destruct (String.eqb k t) eqn:E.
    + apply String.eqb_eq in E. subst k.
      right. rewrite <- Hnew. apply excess_value_ext.
      now rewrite ObjFacts.get_set_ne.
    + apply String.eqb_neq in E.
      assert (Hget : Obj.get (Obj.set (Obj.set B t (Fin x)) base (Fin y)) k
                     = Obj.get B k).
      { now rewrite !ObjFacts.get_set_ne. }
      destruct (Hex k Hkin Hkb) as [Hl|Hr].
      * left. now rewrite Hget.
      * right. rewrite <- Hr. now apply excess_value_ext.
Qed.

(** A sell turn writes non-negative balances and keeps the invariant. *)
Lemma sell_step_inv (t : trade) (s : state) :
  inv (balances s) ->
  Forall store_nonneg (events_of (sell_step this exchange prices tv t) s)
  /\ inv (balances (state_of (sell_step this exchange prices tv t) s)).
Proof.
  intro Hinv. unfold sell_step. run_step;
    try (split; [repeat constructor|exact Hinv]).
  eqb_props.
  match goal with H : (_ >=? sell_dust) = true |- _ => rename H into Hd end.
  destruct (inv_base (balances s) Hinv) as (bb & Hbb & Hbb0).
  pose proof Hinv as (Hk & Hnn & Hex).
  assert (Hgoal : forall x y, (0 <= x)%Q -> (0 <= y)%Q ->
            excess_value this prices tv (Obj.set (balances s) (token t) (Fin x))
                         (token t) = Fin 0 ->
            In (token t) (Obj.keys held) ->
            inv (Obj.set (Obj.set (balances s) (token t) (Fin x)) base (Fin y))).
  { intros x y Hx Hy Hon Ht. now apply inv_sell. }
  clear Hinv Hex.
  destruct (sane_total this held prices Hsane) as (T & HT & _ & HT0 & _).
  rewrite HT in *.
  destruct (get_all_nonneg (balances s) (token t) Hnn) as [Hb|(b & Hb & Hb0)];
    [rewrite Hb in Hd; discriminate|].
  assert (Ht : In (token t) (Obj.keys held)).
  { rewrite <- Hk. now apply (get_Fin_key _ _ b). }
  destruct (sane_price this held prices Hsane _ Ht) as (p & Hp & Hp0).
  destruct (sane_weight this held prices Hsane (token t)) as [Hw|(w & Hw & Hw0)].
  { rewrite Hw, Hb, Hp in Hd. discriminate. }
  rewrite Hb, Hp, Hw in *.
  destruct (sell_numbers b p T w Hb0 Hp0 HT0 Hw0 Hd) as (x & ex & Hx & Hx0 & Hon & Hexv & Hex0).
  rewrite Hx, Hexv.
  rewrite ObjFacts.get_set_ne by congruence.
  assert (Hbase : In base (Obj.keys held)) by apply Hsane.
  destruct (sane_price this held prices Hsane _ Hbase) as (pb & Hpb & Hpb0).
  rewrite Hbb, Hpb.
  destruct (credit_numbers bb ex pb Hbb0 (Qlt_le_weak _ _ Hex0) Hpb0) as (y & Hy & Hy0).
  rewrite Hy. split.
  - repeat constructor; cbn [store_nonneg]; [now exists x|now exists y].
  - apply Hgoal; trivial.
    unfold excess_value. rewrite ObjFacts.get_set_eq, Hp, Hw. exact Hon.
Qed.

End PassInvariant.

(** The numbers of a turn of the base-token loop. *)
Lemma min_numbers (e : Q) (remaining m : num) :
  (0 <= e)%Q -> (remaining <=? Num.one) = false ->
  (Num.min (Fin e) remaining >? m) = true ->
  exists sv, Num.min (Fin e) remaining = Fin sv /\ (0 <= sv)%Q /\ (sv <= e)%Q.
Proof.
  intros He Hrem Hgt. destruct remaining as [r| | |]; try discriminate.
  - apply Bool.not_true_iff_false in Hrem.
    assert (Hr : (1 < r)%Q).
    { apply Qnot_le_lt. intro H. apply Hrem. now apply NumFacts.leb_Fin. }
    cbn [Num.min Num.ltb] in *. destruct (Qltb r e) eqn:E.
    + apply Qltb_lt in E. exists r. repeat split; lra.
    + exists e. repeat split; lra.
  - exists e. repeat split; [exact He|lra].
  - unfold Num.gtb in Hgt. cbn [Num.min] in Hgt. destruct m; discriminate.
Qed.

Lemma partial_sell_numbers (b p sv : Q) :
  (0 < p)%Q -> (0 <= sv)%Q -> (sv <= b * p)%Q ->
  exists x, Fin b - Fin sv / Fin p = Fin x /\ (0 <= x)%Q.
Proof.
  intros Hp Hsv Hle. assert (Hp0 : ~ (p == 0)%Q) by lra.
  rewrite div_Fin by exact Hp0. cbn [Num.sub].
  eexists. split; [reflexivity|]. rewrite !Qred_correct.
  assert (H : (sv / p <= b)%Q) by (apply Qle_shift_div_r; lra). lra.
Qed.

Lemma buy_numbers (bb : Q) (amount : num) :
  (amount >=? buy_dust) = true -> (Fin bb >=? amount) = true ->
  exists x, Fin bb - amount = Fin x /\ (0 <= x)%Q.
Proof.
  destruct amount as [a| | |]; try discriminate. intros _ H.
  apply NumFacts.geb_Fin in H. cbn [Num.sub].
  eexists. split; [reflexivity|]. rewrite Qred_correct. lra.
Qed.

Lemma held_ok_set (held B : obj) (k : string) (x : Q) :
  held_ok held B -> In k (Obj.keys held) -> (0 <= x)%Q ->
  held_ok held (Obj.set B k (Fin x)).
Proof.
  intros [Hk Hnn] Hin Hx. split.
  - rewrite ObjFacts.keys_set_In; [exact Hk|]. now rewrite Hk.
  - apply ObjFacts.set_Forall; [exact Hnn|]. now exists x.
Qed.

Lemma held_ok_get (held B : obj) (k : string) :
  held_ok held B -> In k (Obj.keys held) -> Num.nonneg (Obj.get B k).
Proof.
  intros [Hk Hnn] Hin. apply (ObjFacts.get_Forall Num.nonneg); [exact Hnn|].
  now rewrite Hk.
Qed.

Section LaterPhases.

Variables (this : bot) (exchange : nat -> bool) (held prices : obj) (totalValue : num).
Hypothesis Hbase : In (baseToken this) (Obj.keys held).
Hypothesis Hprice : Num.positive (Obj.get prices (baseToken this)).

Local Abbreviation base := (baseToken this).

(** A turn of the base-token loop writes non-negative balances, keeps the
    keys, and touches only its own token and the base token. *)
Lemma deficit_step_inv (o : overweight) (remaining : num) (s : state) :
  held_ok held (balances s) -> o_token o <> base ->
  cand_ok prices (balances s) o -> (remaining <=? Num.one) = false ->
  Forall store_nonneg (events_of (deficit_step this exchange prices o remaining) s)
  /\ held_ok held (balances (state_of (deficit_step this exchange prices o remaining) s))
  /\ forall k, k <> o_token o -> k <> base ->
       Obj.get (balances (state_of (deficit_step this exchange prices o remaining) s)) k
       = Obj.get (balances s) k.
Proof.
  intros Hok Hne (b & p & e & Hb & Hp & He & Hp0 & He0 & Hle) Hrem.
  unfold deficit_step. rewrite He. run_step;
    try (split; [repeat constructor|split; [exact Hok|reflexivity]]).
  match goal with H : (_ >? minTradeUSD this) = true |- _ => rename H into Hgt end.
  destruct (min_numbers e remaining _ He0 Hrem Hgt) as (sv & Hsv & Hsv0 & Hsve).
  rewrite Hsv, Hb, Hp.
  destruct (partial_sell_numbers b p sv Hp0 Hsv0) as (x & Hx & Hx0); [lra|].
  rewrite Hx. rewrite ObjFacts.get_set_ne by congruence.
  destruct (held_ok_get held (balances s) base Hok Hbase) as (bb & Hbb & Hbb0).
  destruct Hprice as (pb & Hpb & Hpb0). rewrite Hbb, Hpb.
  destruct (credit_numbers bb sv pb Hbb0 Hsv0 Hpb0) as (y & Hy & Hy0).
  rewrite Hy.
  assert (Hin : In (o_token o) (Obj.keys held)).
  { destruct Hok as [Hk _]. rewrite <- Hk. now apply (get_Fin_key _ _ b). }
  split; [|split].
  - repeat constructor; cbn [store_nonneg]; [now exists x|now exists y].
  - apply held_ok_set; trivial. now apply held_ok_set.
  - intros k Hk1 Hk2. now rewrite !ObjFacts.get_set_ne.
Qed.

Lemma deficit_loop_inv (l : list overweight) :
  NoDup (map o_token l) ->
  forall (remaining : num) (s : state),
    held_ok held (balances s) ->
    Forall (fun o => o_token o <> base /\ cand_ok prices (balances s) o) l ->
    Forall store_nonneg (events_of (deficit_loop this exchange prices l remaining) s)
    /\ held_ok held (balances (state_of (deficit_loop this exchange prices l remaining) s)).
Proof.
  induction l as [|o l IH]; intros Hnd remaining s Hok Hall; cbn [deficit_loop].
  - split; [constructor|exact Hok].
  - destruct (remaining <=? Num.one) eqn:Hrem; [split; [constructor|exact Hok]|].
    cbn [map] in Hnd. apply NoDup_cons_iff in Hnd. destruct Hnd as [Ho Hnd].
    apply Forall_cons_iff in Hall. destruct Hall as [[Hne Hcand] Hall].
    destruct (deficit_step_inv o remaining s Hok Hne Hcand Hrem) as (Hev & Hok' & Hframe).
    rewrite bind_events, bind_state.
    destruct (IH Hnd (result_of (deficit_step this exchange prices o remaining) s)
                 (state_of (deficit_step this exchange prices o remaining) s) Hok')
      as [Hev' Hok''].
    + rewrite Forall_forall in *. intros o' Ho'.
      destruct (Hall o' Ho') as [Hne' (b & p & e & Hb & Hrest)].
      split; [exact Hne'|]. exists b, p, e. split; [|exact Hrest].
      rewrite Hframe; [exact Hb| |exact Hne'].
      intro Heq. apply Ho. rewrite <- Heq. now apply in_map.
    + split; [|exact Hok'']. apply Forall_app. now split.
Qed.

(** A buy turn writes a non-negative balance of the base token. *)
Lemma buy_step_inv (t : trade) (s : state) :
  held_ok held (balances s) ->
  Forall store_nonneg (events_of (buy_step this exchange prices totalValue t) s)
  /\ held_ok held (balances (state_of (buy_step this exchange prices totalValue t) s)).
Proof.
  intro Hok. unfold buy_step.
  destruct (held_ok_get held (balances s) base Hok Hbase) as (bb & Hbb & Hbb0).
  run_step; try (split; [repeat constructor|exact Hok]).
  rewrite Hbb in *.
  match goal with
  | H1 : (_ >=? buy_dust) = true, H2 : (Fin bb >=? _) = true |- _ =>
      destruct (buy_numbers bb _ H1 H2) as (x & Hx & Hx0)
  end.
  rewrite Hx. split.
  - repeat constructor. cbn [store_nonneg]. now exists x.
  - now apply held_ok_set.
Qed.

Lemma buy_loop_inv (l : list trade) (s : state) :
  held_ok held (balances s) ->
  Forall store_nonneg
         (events_of (forEach l (buy_step this exchange prices totalValue)) s)
  /\ held_ok held
       (balances (state_of (forEach l (buy_step this exchange prices totalValue)) s)).
Proof.
  revert s. induction l as [|t l IH]; intros s Hok.
  - split; [constructor|exact Hok].
  - rewrite forEach_cons_events, forEach_cons_state.
    destruct (buy_step_inv t s Hok) as [Hev Hok'].
    destruct (IH _ Hok') as [Hev' Hok''].
    split; [|exact Hok'']. apply Forall_app. now split.
Qed.

End LaterPhases.

(** Tokens stay distinct when each key gives at most one record carrying
    that key. *)
Lemma flat_map_keys_distinct {A} (key : A -> string) (f : string -> list A)
    (ks : list string) :
  (forall k x, In x (f k) -> key x = k) ->
  (forall k, NoDup (map key (f k))) ->
  NoDup ks -> NoDup (map key (flat_map f ks)).
Proof.
  intros Hkey Hone. induction 1 as [|k ks Hk Hks IH]; cbn [flat_map map].
  - constructor.
  - rewrite map_app. apply NoDup_app; [apply Hone|exact IH|].
    intros x Hx1 Hx2. apply in_map_iff in Hx1, Hx2.
    destruct Hx1 as (a & <- & Ha). destruct Hx2 as (b & Hb & Hin).
    apply in_flat_map in Hin. destruct Hin as (k' & Hk' & Hin).
    apply Hkey in Ha, Hin. apply Hk. congruence.
Qed.

Section Pass.

Variables (this : bot) (exchange : nat -> bool) (held prices : obj).
Hypothesis Hsane : sane this held prices.

Local Abbreviation K := (Obj.keys held).
Local Abbreviation tv := (portfolio_value held prices).
Local Abbreviation cw := (calculateWeights held prices).
Local Abbreviation base := (baseToken this).
Local Abbreviation inv := (pass_inv this prices tv held).

Lemma sell_loop_inv (l : list trade) (s : state) :
  inv (balances s) ->
  Forall store_nonneg
         (events_of (forEach l (sell_step this exchange prices tv)) s)
  /\ inv (balances (state_of (forEach l (sell_step this exchange prices tv)) s)).
Proof.
  revert s. induction l as [|t l IH]; intros s Hinv.
  - split; [constructor|exact Hinv].
  - rewrite forEach_cons_events, forEach_cons_state.
    destruct (sell_step_inv this exchange held prices Hsane t s Hinv) as [Hev Hinv'].
    destruct (IH _ Hinv') as [Hev' Hinv''].
    split; [|exact Hinv'']. apply Forall_app. now split.
Qed.

(** The candidates of the base-token loop, on balances that satisfy the
    invariant of the sell phase. *)
Lemma candidates_In (s : state) (o : overweight) :
  In o (result_of (overweightTokens this cw prices tv) s) <->
  In (o_token o) K /\ o_token o <> base
  /\ (deviation this cw (o_token o) >? Num.zero) = true
  /\ o = mkOverweight (o_token o) (deviation this cw (o_token o))
           (excess_value this prices tv (balances s) (o_token o))
           (Obj.get (balances s) (o_token o) * Obj.get prices (o_token o))
           (tv * Obj.get (weights this) (o_token o)).
Proof.
  unfold result_of, overweightTokens. cbn [fst].
  rewrite calculateWeights_keys, in_flat_map. unfold deviation, excess_value.
  split.
  - intros (k & Hk & Hin). destruct (String.eqb k base) eqn:E; [contradiction|].
    apply String.eqb_neq in E. cbn zeta in Hin.
    destruct (_ >? Num.zero) eqn:Hd; [|contradiction].
    destruct Hin as [<-|[]]. cbn [o_token]. auto.
  - intros (Hk & Hne & Hd & Ho). exists (o_token o). split; [exact Hk|].
    apply String.eqb_neq in Hne. rewrite Hne. cbn zeta. rewrite Hd.
    left. now rewrite Ho at 4.
Qed.

Lemma candidates_distinct (s : state) :
  NoDup (map o_token (result_of (overweightTokens this cw prices tv) s)).
Proof.
  unfold result_of, overweightTokens. cbn [fst].
  apply flat_map_keys_distinct.
  - intros k x. destruct (String.eqb k base); [contradiction|]. cbn zeta.
    destruct (_ >? Num.zero); [|contradiction]. now intros [<-|[]].
  - intro k. destruct (String.eqb k base); [constructor|]. cbn zeta.
    destruct (_ >? Num.zero); repeat constructor. intros [].
  - rewrite calculateWeights_keys. apply Hsane.
Qed.

Lemma candidates_ok (s : state) :
  inv (balances s) ->
  Forall (fun o => o_token o <> base /\ cand_ok prices (balances s) o)
         (result_of (overweightTokens this cw prices tv) s).
Proof.
  intros (Hk & Hnn & Hex). apply Forall_forall. intros o Ho.
  apply candidates_In in Ho. destruct Ho as (Hin & Hne & Hd & Ho).
  split; [exact Hne|].
  set (k := o_token o) in *.
  destruct (ObjFacts.get_Forall Num.nonneg (balances s) k Hnn) as (b & Hb & Hb0);
    [now rewrite Hk|].
  destruct (sane_price this held prices Hsane k Hin) as (p & Hp & Hp0).
  destruct (sane_total this held prices Hsane) as (T & HT & _ & HT0 & _).
  assert (Hexc : exists e, excess_value this prices tv (balances s) k = Fin e
                           /\ (0 <= e)%Q /\ (e <= b * p)%Q).
  { destruct (Hex k Hin Hne) as [Hl|Hr].
    - rewrite (sane_deviation_excess this held prices Hsane k Hin) in Hd.
      rewrite (excess_value_ext this prices tv held (balances s) k Hl).
      unfold excess_value in *. rewrite <- Hl, Hb, Hp, HT in *.
      destruct (sane_weight this held prices Hsane k) as [Hw|(w & Hw & Hw0)];
        rewrite Hw in *; [discriminate|].
      cbn [Num.mul Num.sub] in *. apply NumFacts.gtb_Fin in Hd.
      eexists. split; [reflexivity|]. rewrite !Qred_correct in *.
      split; [lra|]. assert (0 <= T * w)%Q by (apply Qmult_le_0_compat; lra). lra.
    - rewrite Hr. exists 0%Q. split; [reflexivity|]. split; [lra|].
      apply Qmult_le_0_compat; lra. }
  destruct Hexc as (e & He & He0 & Hle).
  exists b, p, e. rewrite Ho. cbn [o_token excessValue]. fold k.
  now repeat split.
Qed.

(** Every token other than the base token whose value is above its target
    value on the balances at hand is a candidate. *)
Lemma candidates_cover (s : state) (k : string) :
  inv (balances s) -> In k K -> k <> base ->
  (excess_value this prices tv (balances s) k >? Num.zero) = true ->
  exists o, In o (result_of (overweightTokens this cw prices tv) s) /\ o_token o = k.
Proof.
  intros (_ & _ & Hex) Hin Hne Hpos.
  eexists (mkOverweight k _ _ _ _). split; [|reflexivity].
  apply candidates_In. cbn [o_token]. repeat split; trivial.
  rewrite (sane_deviation_excess this held prices Hsane k Hin).
  destruct (Hex k Hin Hne) as [Hl|Hr].
  - now rewrite <- (excess_value_ext this prices tv held (balances s) k Hl).
  - rewrite Hr in Hpos. discriminate.
Qed.

End Pass.

(** ** The stores of a pass account for its balances *)

Lemma apply_stores_app (B : obj) (e1 e2 : list event) :
  apply_stores B (e1 ++ e2) = apply_stores (apply_stores B e1) e2.
Proof. apply fold_left_app. Qed.

Lemma tracks_ret {A} (a : A) : tracks (ret a).
Proof. intro s. reflexivity. Qed.

Lemma tracks_log (e : event) : (forall tok x, e <> Store tok x) -> tracks (log e).
Proof.
  intros H s. destruct e; try reflexivity. now contradiction (H tok v).
Qed.

Lemma tracks_read (tok : string) : tracks (read tok).
Proof. intro s. reflexivity. Qed.

Lemma tracks_write (tok : string) (x : num) : tracks (write tok x).
Proof. intro s. reflexivity. Qed.

Lemma tracks_swap (exchange : nat -> bool) (f to : string) (a : num) :
  tracks (swap exchange f to a).
Proof.
  intro s. destruct (swap_run exchange f to a s) as (Hb & r & Hev & _).
  now rewrite Hb, Hev.
Qed.

Lemma tracks_bind {A B} (c : M A) (k : A -> M B) :
  tracks c -> (forall a, tracks (k a)) -> tracks (bind c k).
Proof.
  intros Hc Hk s. rewrite bind_state, bind_events, apply_stores_app.
  now rewrite Hk, Hc.
Qed.

Lemma tracks_forEach {A} (l : list A) (body : A -> M unit) :
  (forall x, tracks (body x)) -> tracks (forEach l body).
Proof.
  intro H. induction l as [|x l IH]; cbn [forEach].
  - apply tracks_ret.
  - apply tracks_bind; [apply H|intro; exact IH].
Qed.

Ltac tracks_steps :=
  repeat match goal with
    | |- tracks (ret _) => apply tracks_ret
    | |- tracks (read _) => apply tracks_read
    | |- tracks (bind _ _) => apply tracks_bind; [|intro]
    | |- tracks (log _) => apply tracks_log; intros; discriminate
    | |- tracks (write _ _) => apply tracks_write
    | |- tracks (swap _ _ _ _) => apply tracks_swap
    | |- tracks (if ?b then _ else _) => destruct b
    end.

Lemma run_trades_tracks (this : bot) (exchange : nat -> bool)
    (currentWeights prices : obj) (totalValue : num) (trades : list trade) :
  tracks (run_trades this exchange currentWeights prices totalValue trades).
Proof.
  assert (Hloop : forall l r, tracks (deficit_loop this exchange prices l r)).
  { induction l as [|o l IH]; intro r; cbn [deficit_loop]; [apply tracks_ret|].
    destruct (r <=? Num.one); [apply tracks_ret|].
    apply tracks_bind; [|intro; apply IH].
    unfold deficit_step. tracks_steps. }
  unfold run_trades. destruct trades as [|t0 trades']; [tracks_steps|].
  set (trades := t0 :: trades').
  apply tracks_bind; [|intros _; apply tracks_bind; [|intros _; apply tracks_bind]].
  - apply tracks_forEach. intro t. unfold sell_step. tracks_steps.
  - unfold base_phase. destruct (find _ _); [|apply tracks_ret].
    unfold deficit_phase. apply tracks_bind; [apply tracks_read|intro].
    apply tracks_bind; [tracks_steps|intro].
    apply tracks_bind; [|intro; apply Hloop].
    intro s. reflexivity.
  - apply tracks_forEach. intro t. unfold buy_step. tracks_steps.
  - intros _. tracks_steps.
Qed.

Lemma apply_stores_nonneg (B : obj) (es : list event) :
  all_nonneg B -> Forall store_nonneg es -> all_nonneg (apply_stores B es).
Proof.
  intros HB Hes. revert B HB. induction Hes as [|e es He _ IH]; intros B HB.
  - exact HB.
  - cbn [apply_stores fold_left]. apply IH.
    destruct e; trivial. now apply ObjFacts.set_Forall.
Qed.

(** ** Trade planner: balances stay non-negative *)

Section PassBalances.

Variables (this : bot) (exchange : nat -> bool) (held prices : obj).
Hypothesis Hsane : sane this held prices.

Local Abbreviation tv := (portfolio_value held prices).
Local Abbreviation cw := (calculateWeights held prices).

Lemma inv_held_ok (B : obj) : pass_inv this prices tv held B -> held_ok held B.
Proof. intros (Hk & Hnn & _). now split. Qed.

Lemma run_trades_inv (trades : list trade) :
  Forall store_nonneg
         (events_of (run_trades this exchange cw prices tv trades) (start held))
  /\ held_ok held
       (balances (state_of (run_trades this exchange cw prices tv trades)
                           (start held))).
Proof.
  assert (Hbase : In (baseToken this) (Obj.keys held)) by apply Hsane.
  pose proof (sane_price this held prices Hsane _ Hbase) as Hprice.
  pose proof (inv_start this held prices Hsane) as Hstart.
  unfold run_trades. destruct trades as [|t0 trades'].
  - split; [now repeat constructor|]. now apply inv_held_ok.
  - set (trades := t0 :: trades').
    rewrite !bind_events, !bind_state.
    destruct (sell_loop_inv this exchange held prices Hsane (sellTrades trades)
                (start held) Hstart) as [Hev1 Hinv1].
    fold (sell_phase this exchange prices tv trades) in Hev1, Hinv1.
    set (s1 := state_of (sell_phase this exchange prices tv trades) (start held)) in *.
    assert (Hmid :
      Forall store_nonneg (events_of (base_phase this exchange cw prices tv trades) s1)
      /\ held_ok held (balances (state_of (base_phase this exchange cw prices tv trades) s1))).
    { unfold base_phase. destruct (find _ _).
      - unfold deficit_phase. rewrite !bind_events, !bind_state.
        cbn [events_of state_of result_of read log overweightTokens fst snd app].
        set (cands := flat_map _ _).
        destruct (deficit_loop_inv this exchange held prices Hbase Hprice
                    (sort (fun a b => excessValue b - excessValue a) cands))
          with (remaining := tv * Obj.get (weights this) (baseToken this)
                             - Obj.get (balances s1) (baseToken this)
                               * Obj.get prices (baseToken this))
               (s := s1) as [Hev Hok].
        + eapply Permutation_NoDup; [apply Permutation_map, sort_perm|].
          apply (candidates_distinct this held prices Hsane s1).
        + now apply inv_held_ok.
        + apply sort_Forall.
          apply (candidates_ok this held prices Hsane s1 Hinv1).
        + split; [|exact Hok]. constructor; [exact I|exact Hev].
      - split; [constructor|]. now apply inv_held_ok. }
    destruct Hmid as [Hev2 Hok2].
    set (s2 := state_of (base_phase this exchange cw prices tv trades) s1) in *.
    destruct (buy_loop_inv this exchange held prices tv Hbase (buyTrades trades) s2 Hok2)
      as [Hev3 Hok3].
    split.
    + repeat (apply Forall_app; split); trivial. now repeat constructor.
    + exact Hok3.
Qed.

End PassBalances.

(** C2.  A pass can store a negative balance: the sell loop takes the sell
    amount off the balance without comparing the two, where the buy loop
    compares the base balance with the amount before it pays.  In doubles,
    as the code has its numbers, a holding of 419 cbXRP at 2.74 with
    target weight 0 (the whole target on WETH) is flagged for a sell, its
    sell amount [(419 * 2.74 - totalValue * 0) / 2.74] rounds to a number
    above 419, which passes the dust test, and
    [balances[token] -= sellAmount] stores a number below zero.  And with a
    target weight below zero, which the constructor takes as it comes, the
    sell amount is above the balance whatever the rounding: on balances of
    100 cbBTC and 100 WETH at prices of 1 the pass stores -100. *)
Theorem C2_a_sell_can_store_a_negative_balance :
  (let currentWeights :=
     Double.calculateWeights Double.zero_target_balances Double.zero_target_prices in
   let totalValue :=
     Double.portfolio_value Double.zero_target_balances Double.zero_target_prices in
   Double.flagged Double.zero_target_weights Double.deviationThreshold
                  Double.minTradeUSD currentWeights totalValue "cbXRP" = true
   /\ Double.positive (Double.diff Double.zero_target_weights currentWeights "cbXRP")
      = true
   /\ Double.above_dust
        (Double.sellAmount Double.zero_target_weights Double.zero_target_balances
                           Double.zero_target_prices totalValue "cbXRP") = true
   /\ Double.negative
        (Double.sold Double.zero_target_weights Double.zero_target_balances
                     Double.zero_target_prices totalValue "cbXRP") = true)
  /\ (all_nonneg even_balances
      /\ Forall (fun tok => Num.positive (Obj.get unit_prices tok))
                (Obj.keys even_balances)
      /\ sum (Obj.values (weights negative_weight_bot)) = Fin 1
      /\ snd (rebalance_pass negative_weight_bot (fun _ => true)
                             even_balances unit_prices)
         = [SellTrade (mkTrade "cbBTC" (Fin 1));
            SwapCall "cbBTC" "WETH" (Fin 200) Filled;
            Store "cbBTC" (Fin (-100)); Store "WETH" (Fin 296);
            BaseUnderweight (Fin 4); Skip "cbBTC" (Fin 0);
            BuyTrade (mkTrade "WETH" (Fin (-1)));
            Skip "WETH" (Fin 0); Done true]).
Proof.
  split.
  - vm_compute. repeat split.
  - split; [|split; [|split]].
    + unfold all_nonneg, even_balances.
      repeat (apply Forall_cons;
              [cbn; eexists; split; [reflexivity|unfold Qle; cbn; lia]|]).
      apply Forall_nil.
    + cbn.
      repeat (apply Forall_cons;
              [cbn; eexists; split; [reflexivity|unfold Qlt; cbn; lia]|]).
      apply Forall_nil.
    + reflexivity.
    + vm_compute. reflexivity.
Qed.

(** ** Trade planner: the base-token phase *)

Section BaseLoop.

Variables (this : bot) (exchange : nat -> bool) (prices : obj).

Local Abbreviation base := (baseToken this).

(** What one turn does, by whether the sell value is above the minimum
    trade value. *)
Lemma deficit_step_sells (o : overweight) (remaining : num) (s : state) :
  let sellValue := Num.min (excessValue o) remaining in
  ((sellValue >? minTradeUSD this) = true ->
   exists r,
     swaps (events_of (deficit_step this exchange prices o remaining) s)
     = [SwapCall (o_token o) base (sellValue / Obj.get prices (o_token o)) r]
     /\ result_of (deficit_step this exchange prices o remaining) s
        = match r with Filled => remaining - sellValue | _ => remaining end)
  /\ ((sellValue >? minTradeUSD this) = false ->
      swaps (events_of (deficit_step this exchange prices o remaining) s) = []
      /\ result_of (deficit_step this exchange prices o remaining) s = remaining
      /\ state_of (deficit_step this exchange prices o remaining) s = s).
Proof.
  cbn zeta. unfold deficit_step. split; intro H; rewrite H.
  - run_step; eexists; split; reflexivity.
  - now repeat split.
Qed.

Lemma deficit_step_swap (o : overweight) (remaining : num) (s : state)
    (f to : string) (a : num) (r : outcome) :
  In (SwapCall f to a r) (events_of (deficit_step this exchange prices o remaining) s) ->
  f = o_token o /\ to = base
  /\ (Num.min (excessValue o) remaining >? minTradeUSD this) = true
  /\ a = Num.min (excessValue o) remaining / Obj.get prices f.
Proof.
  unfold deficit_step. run_step.
  all: cbn [In]; intros H; repeat (destruct H as [H|H]; try discriminate H);
    try contradiction.
  all: injection H as <- <- <- <-; now repeat split.
Qed.

Lemma deficit_loop_stops (l : list overweight) (remaining : num) (s : state) :
  (remaining <=? Num.one) = true ->
  deficit_loop this exchange prices l remaining s = (tt, s, []).
Proof. intro H. destruct l; cbn [deficit_loop]; [reflexivity|]. now rewrite H. Qed.

Lemma deficit_loop_goes_on (o : overweight) (l : list overweight)
    (remaining : num) (s : state) :
  (remaining <=? Num.one) = false ->
  events_of (deficit_loop this exchange prices (o :: l) remaining) s
  = (events_of (deficit_step this exchange prices o remaining) s
     ++ events_of
          (deficit_loop this exchange prices l
             (result_of (deficit_step this exchange prices o remaining) s))
          (state_of (deficit_step this exchange prices o remaining) s))%list.
Proof. intro H. cbn [deficit_loop]. rewrite H. apply bind_events. Qed.

Lemma deficit_loop_swaps (l : list overweight) (remaining : num) (s : state)
    (f to : string) (a : num) (r : outcome) :
  In (SwapCall f to a r) (events_of (deficit_loop this exchange prices l remaining) s) ->
  exists o remaining',
    In o l /\ f = o_token o /\ to = base
    /\ (remaining' <=? Num.one) = false
    /\ (Num.min (excessValue o) remaining' >? minTradeUSD this) = true
    /\ a = Num.min (excessValue o) remaining' / Obj.get prices f.
Proof.
  revert remaining s. induction l as [|o l IH]; intros remaining s Hin; [contradiction|].
  destruct (remaining <=? Num.one) eqn:Hrem.
  - unfold events_of in Hin. rewrite deficit_loop_stops in Hin by exact Hrem.
    contradiction.
  - rewrite deficit_loop_goes_on in Hin by exact Hrem.
    apply in_app_or in Hin. destruct Hin as [Hin|Hin].
    + apply deficit_step_swap in Hin. destruct Hin as (-> & -> & Hgt & ->).
      exists o, remaining. repeat split; trivial. now left.
    + apply IH in Hin. destruct Hin as (o' & rem' & Ho' & Hrest).
      exists o', rem'. split; [now right|exact Hrest].
Qed.

End BaseLoop.

(** C6 (as amended).  In a pass on well-formed balances and prices, when
    the base token is a buy trade the base-token phase runs the loop below
    on the need [targetBaseValue - currentBaseValue].  Its candidates are
    the tokens other than the base token whose weight at the start of the
    pass is above the target weight, whether or not they were flagged, each
    with the excess value it has on the balances the sell phase left; they
    are taken in descending order of excess value; the loop stops as soon
    as the remaining need is at most 1; a turn sells
    [min(excess value, remaining need) / price] when that minimum is above
    the minimum trade value, and nothing otherwise; a filled sell lowers
    the remaining need by that minimum. *)
Theorem C6_base_phase_sells_largest_excess_first
    (this : bot) (exchange : nat -> bool) (held prices : obj)
    (Hsane : sane this held prices) :
  let base := baseToken this in
  let tv := portfolio_value held prices in
  let cw := calculateWeights held prices in
  let trades := detect this cw tv in
  let s1 := state_of (sell_phase this exchange prices tv trades) (start held) in
  let cands := result_of (overweightTokens this cw prices tv) s1 in
  let sorted := sort (fun a b => excessValue b - excessValue a) cands in
  let needed :=
    tv * Obj.get (weights this) base
    - Obj.get (balances s1) base * Obj.get prices base in
  ((exists t, In t (buyTrades trades) /\ token t = base) ->
   events_of (base_phase this exchange cw prices tv trades) s1
   = BaseUnderweight needed
     :: events_of (deficit_loop this exchange prices sorted needed) s1)
  /\ (forall k, In k (Obj.keys held) -> k <> base ->
        (deviation this cw k >? Num.zero) = true ->
        exists o, In o cands /\ o_token o = k)
  /\ (forall o, In o cands ->
        o_token o <> base
        /\ (deviation this cw (o_token o) >? Num.zero) = true
        /\ excessValue o = excess_value this prices tv (balances s1) (o_token o))
  /\ Permutation cands sorted
  /\ StronglySorted (fun a b => (excessValue b <=? excessValue a) = true) sorted
  /\ (forall l remaining s,
        (remaining <=? Num.one) = true ->
        deficit_loop this exchange prices l remaining s = (tt, s, []))
  /\ (forall o l remaining s,
        (remaining <=? Num.one) = false ->
        events_of (deficit_loop this exchange prices (o :: l) remaining) s
        = (events_of (deficit_step this exchange prices o remaining) s
           ++ events_of
                (deficit_loop this exchange prices l
                   (result_of (deficit_step this exchange prices o remaining) s))
                (state_of (deficit_step this exchange prices o remaining) s))%list)
  /\ (forall o remaining s,
        let sellValue := Num.min (excessValue o) remaining in
        ((sellValue >? minTradeUSD this) = true ->
         exists r,
           swaps (events_of (deficit_step this exchange prices o remaining) s)
           = [SwapCall (o_token o) base (sellValue / Obj.get prices (o_token o)) r]
           /\ result_of (deficit_step this exchange prices o remaining) s
              = match r with Filled => remaining - sellValue | _ => remaining end)
        /\ ((sellValue >? minTradeUSD this) = false ->
            swaps (events_of (deficit_step this exchange prices o remaining) s) = []
            /\ result_of (deficit_step this exchange prices o remaining) s = remaining
            /\ state_of (deficit_step this exchange prices o remaining) s = s))
  /\ (forall l remaining s f to a r,
        In (SwapCall f to a r)
           (events_of (deficit_loop this exchange prices l remaining) s) ->
        exists o remaining',
          In o l /\ f = o_token o /\ to = base
          /\ (remaining' <=? Num.one) = false
          /\ (Num.min (excessValue o) remaining' >? minTradeUSD this) = true
          /\ a = Num.min (excessValue o) remaining' / Obj.get prices f).
Proof.
  intros base tv cw trades s1 cands sorted needed.
  assert (Hinv : pass_inv this prices tv held (balances s1)).
  { apply (sell_loop_inv this exchange held prices Hsane).
    apply (inv_start this held prices Hsane). }
  split; [|split; [|split; [|split; [|split; [|split; [|split; [|split]]]]]]].
  - intro Hbuy. apply find_base_iff in Hbuy. unfold base_phase.
    destruct (find _ _); [|now contradiction Hbuy].
    unfold deficit_phase. rewrite !bind_events. reflexivity.
  - intros k Hk Hne Hpos.
    exists (mkOverweight k (deviation this cw k)
              (excess_value this prices tv (balances s1) k)
              (Obj.get (balances s1) k * Obj.get prices k)
              (tv * Obj.get (weights this) k)).
    split; [|reflexivity].
    apply (candidates_In this held prices). cbn [o_token]. now repeat split.
  - intros o Ho. apply (candidates_In this held prices) in Ho.
    destruct Ho as (_ & Hne & Hdev & ->). now repeat split.
  - apply sort_perm.
  - apply (sort_sorted _ (fun o => exists e, excessValue o = Fin e)).
    + intros x y [ex Hx] [ey Hy] H. rewrite NumFacts.sub_gtb_zero in H.
      apply NumFacts.ltb_leb_flip; trivial; [now rewrite Hx|now rewrite Hy].
    + intros x y _ _ H. rewrite NumFacts.sub_gtb_zero in H.
      now apply NumFacts.ltb_leb.
    + intros x y z _ _ _ H1 H2. eapply NumFacts.leb_trans; eassumption.
    + eapply Forall_impl; [|apply (candidates_ok this held prices Hsane s1 Hinv)].
      cbn beta. intros o [_ (b & p & e & _ & _ & He & _)]. now exists e.
  - apply deficit_loop_stops.
  - apply deficit_loop_goes_on.
  - apply deficit_step_sells.
  - apply deficit_loop_swaps.
Qed.

(** C6, counterexample to the reading in which every token with a
    positive excess value is a candidate.  In doubles, with 29 cbBTC, 30 WETH
    and 41 cbXRP at prices of 1 and target weights of 0.29, 0.5 and 0.21,
    the base token is flagged for a buy, so the phase is entered; cbBTC is
    not flagged, so the sell loop leaves its balance; its weight [29 / 100]
    is the double 0.29, so its deviation is 0 and the scan leaves it out;
    yet its excess value [29 - 100 * 0.29] is above zero. *)
Lemma C6_positive_excess_is_not_a_candidate :
  let currentWeights :=
    Double.calculateWeights Double.on_target_balances Double.on_target_prices in
  let totalValue :=
    Double.portfolio_value Double.on_target_balances Double.on_target_prices in
  Double.flagged Double.on_target_weights Double.deviationThreshold
                 Double.minTradeUSD currentWeights totalValue "WETH" = true
  /\ Double.negative (Double.diff Double.on_target_weights currentWeights "WETH")
     = true
  /\ Double.flagged Double.on_target_weights Double.deviationThreshold
                    Double.minTradeUSD currentWeights totalValue "cbBTC" = false
  /\ Double.positive
       (Double.excessValue Double.on_target_weights Double.on_target_balances
                           Double.on_target_prices totalValue "cbBTC") = true
  /\ Double.candidate Double.on_target_weights currentWeights "WETH" "cbBTC"
     = false.
Proof. vm_compute. repeat split. Qed.

(** ** The samples *)

Ltac sane_sample :=
  unfold sane, all_nonneg, Obj.wf; cbn;
  repeat split;
  repeat first
    [ apply NoDup_nil
    | apply Forall_nil
    | apply NoDup_cons; [cbn; intuition discriminate|]
    | apply Forall_cons;
        [cbn; eexists; split; [reflexivity|unfold Qle, Qlt; cbn; lia]|] ];
  auto 10.

Lemma shortfall_sane : sane shortfall_bot shortfall_balances shortfall_prices.
Proof. sane_sample. Qed.

Lemma busy_sane : sane busy_bot busy_balances busy_prices.
Proof. sane_sample. Qed.

(** The example of the base-token phase: no token is flagged for a sell,
    the base token is flagged for a buy, and the phase sells 40 from the
    larger excess, then 10 from the smaller, and stops. *)
Example shortfall_trace :
  snd (rebalance_pass shortfall_bot (fun _ => true) shortfall_balances shortfall_prices)
  = [BaseUnderweight (Fin 50);
     SwapCall "cbBTC" "WETH" (Fin 40) Filled;
     Store "cbBTC" (Fin 200); Store "WETH" (Fin (2446 # 5));
     SwapCall "cbXRP" "WETH" (Fin 10) Filled;
     Store "cbXRP" (Fin 220); Store "WETH" (Fin 499);
     BuyTrade (mkTrade "WETH" (Fin (-1 # 20)));
     Skip "WETH" (Fin 0); Done true].
Proof. vm_compute. reflexivity. Qed.

(** A pass whose first swap fails: the sell is skipped, the base-token
    phase and the buy phase go on. *)
Example busy_trace :
  snd (rebalance_pass busy_bot first_fails busy_balances busy_prices)
  = [SellTrade (mkTrade "cbBTC" (Fin (3 # 20)));
     SwapCall "cbBTC" "WETH" (Fin 150) Failed;
     BaseUnderweight (Fin 60);
     SwapCall "cbBTC" "WETH" (Fin 60) Filled;
     Store "cbBTC" (Fin 340); Store "WETH" (Fin (1244 # 5));
     BuyTrade (mkTrade "AAVE" (Fin (-1 # 10)));
     SwapCall "WETH" "AAVE" (Fin 100) Filled;
     Store "WETH" (Fin (744 # 5));
     BuyTrade (mkTrade "WETH" (Fin (-3 # 50)));
     Skip "WETH" (Fin 0); Done true].
Proof. vm_compute. reflexivity. Qed.

(** C6 on the example of the base-token phase. *)
Lemma C6_base_phase_witness :
  sane shortfall_bot shortfall_balances shortfall_prices
  /\ (let tv := portfolio_value shortfall_balances shortfall_prices in
      let cw := calculateWeights shortfall_balances shortfall_prices in
      let s1 :=
        state_of (sell_phase shortfall_bot (fun _ => true) shortfall_prices tv
                             (detect shortfall_bot cw tv))
                 (start shortfall_balances) in
      let cands := result_of (overweightTokens shortfall_bot cw shortfall_prices tv) s1 in
      Permutation cands
        (sort (fun a b => excessValue b - excessValue a) cands)
      /\ StronglySorted (fun a b => (excessValue b <=? excessValue a) = true)
           (sort (fun a b => excessValue b - excessValue a) cands)).
Proof.
  split; [exact shortfall_sane|].
  pose proof (C6_base_phase_sells_largest_excess_first shortfall_bot (fun _ => true)
                shortfall_balances shortfall_prices shortfall_sane) as H.
  cbv zeta in H. cbv zeta.
  destruct H as (_ & _ & _ & Hperm & Hsorted & _).
  split; [exact Hperm|exact Hsorted].
Defined.
(** * Properties of the rest of the bot and of the server *)

(** ** Objects: [set] and the spread *)

Lemma In_keys_set (o : obj) (k x : string) (v : num) :
  In x (Obj.keys (Obj.set o k v)) <-> x = k \/ In x (Obj.keys o).
Proof.
  induction o as [|[k' v'] o IH]; cbn.
  - intuition.
  - destruct (String.eqb k k') eqn:E; cbn.
    + apply String.eqb_eq in E. subst k'. intuition.
    + rewrite IH. intuition.
Qed.

Lemma wf_set (o : obj) (k : string) (v : num) :
  Obj.wf o -> Obj.wf (Obj.set o k v).
Proof.
  unfold Obj.wf. induction o as [|[k' v'] o IH]; cbn; intro H.
  - constructor; [intros []|constructor].
  - inversion H as [|? ? Hin Hnd]; subst.
    destruct (String.eqb k k') eqn:E; cbn.
    + now constructor.
    + apply String.eqb_neq in E. constructor; [|now apply IH].
      fold (Obj.keys (Obj.set o k v)). rewrite In_keys_set.
      intros [->|Hx]; [now apply E|now apply Hin].
Qed.

Lemma lookup_fresh (o : obj) (k : string) :
  ~ In k (Obj.keys o) -> Obj.lookup o k = None.
Proof.
  induction o as [|[k' v'] o IH]; cbn; intro H; [reflexivity|].
  destruct (String.eqb k k') eqn:E.
  - apply String.eqb_eq in E. subst. exfalso. apply H. now left.
  - apply IH. intro Hin. apply H. now right.
Qed.

Lemma set_fresh (o : obj) (k : string) (v : num) :
  ~ In k (Obj.keys o) -> Obj.set o k v = (o ++ [(k, v)])%list.
Proof.
  induction o as [|[k' v'] o IH]; cbn; intro H; [reflexivity|].
  destruct (String.eqb k k') eqn:E.
  - apply String.eqb_eq in E. subst. exfalso. apply H. now left.
  - f_equal. apply IH. intro Hin. apply H. now right.
Qed.

Lemma In_keys_spread (b a : obj) (x : string) :
  In x (Obj.keys (Obj.spread a b)) <-> In x (Obj.keys a) \/ In x (Obj.keys b).
Proof.
  unfold Obj.spread. revert a.
  induction b as [|[k v] b IH]; intro a; cbn.
  - intuition.
  - rewrite IH, In_keys_set. intuition.
Qed.

Lemma wf_spread (b a : obj) : Obj.wf a -> Obj.wf (Obj.spread a b).
Proof.
  unfold Obj.spread. revert a.
  induction b as [|[k v] b IH]; intros a H; cbn; [assumption|].
  apply IH. now apply wf_set.
Qed.

(** A key of the second object reads as in the second object; any other key
    reads as in the first. *)
Lemma lookup_spread (b a : obj) (k : string) :
  Obj.wf b ->
  Obj.lookup (Obj.spread a b) k
  = match Obj.lookup b k with
    | Some v => Some v
    | None => Obj.lookup a k
    end.
Proof.
  unfold Obj.spread, Obj.wf. revert a.
  induction b as [|[k' v'] b IH]; intros a H; cbn; [reflexivity|].
  inversion H as [|? ? Hin Hnd]; subst.
  rewrite (IH _ Hnd).
  destruct (String.eqb k k') eqn:E.
  - apply String.eqb_eq in E. subst k'.
    rewrite (lookup_fresh b k Hin). apply ObjFacts.lookup_set_eq.
  - apply String.eqb_neq in E.
    now rewrite (ObjFacts.lookup_set_ne a k' k v' E).
Qed.

Lemma get_spread_In (a b : obj) (k : string) :
  Obj.wf b -> In k (Obj.keys b) -> Obj.get (Obj.spread a b) k = Obj.get b k.
Proof.
  intros Hwf Hin. unfold Obj.get. rewrite (lookup_spread b a k Hwf).
  destruct (ObjFacts.In_keys_lookup b k Hin) as [v ->]. reflexivity.
Qed.

(** An object spread over the objects before it comes out as their
    concatenation when no key occurs twice. *)
Lemma spread_fresh (b a : obj) :
  NoDup (Obj.keys a ++ Obj.keys b) -> Obj.spread a b = (a ++ b)%list.
Proof.
  unfold Obj.spread. revert a.
  induction b as [|[k v] b IH]; intros a H; cbn.
  - now rewrite app_nil_r.
  - cbn in H.
    assert (Hk : ~ In k (Obj.keys a)).
    { intro Hin. apply NoDup_remove_2 in H. apply H.
      apply in_or_app. now left. }
    rewrite (set_fresh a k v Hk), IH.
    + now rewrite <- app_assoc.
    + unfold Obj.keys in *. rewrite map_app, <- app_assoc. exact H.
Qed.

Lemma spread_copy (b : obj) : Obj.wf b -> Obj.spread [] b = b.
Proof. intro H. now apply (spread_fresh b []). Qed.

(** Closed facts about sample objects. *)
Ltac sample_distinct :=
  unfold Obj.wf; cbn;
  repeat (apply NoDup_cons; [cbn; intuition discriminate|]); apply NoDup_nil.

Ltac sample_all :=
  unfold all_nonneg; cbn;
  repeat (apply Forall_cons;
          [cbn; eexists; split; [reflexivity|unfold Qle, Qlt; cbn; lia]|]);
  apply Forall_nil.

(** ** The price source *)

Lemma tokens_symbolMap : tokens = map fst symbolMap.
Proof. reflexivity. Qed.

Lemma reverseMap_token (symbol tok : string) :
  reverseMap symbol = Some tok -> In tok tokens.
Proof.
  unfold reverseMap. destruct (find _ symbolMap) as [kv|] eqn:E; [|discriminate].
  cbn [option_map]. intros [= <-]. apply find_some in E. destruct E as [E _].
  rewrite tokens_symbolMap. now apply in_map.
Qed.

Lemma tokens_distinct : NoDup tokens.
Proof.
  unfold tokens.
  repeat (apply NoDup_cons; [cbn; intuition discriminate|]). apply NoDup_nil.
Qed.

(** The ticker loop, from any object collected so far. *)
Lemma collect_from (data : list ticker) (acc : obj) :
  Obj.wf acc -> incl (Obj.keys acc) tokens ->
  Obj.wf
    (fold_left
       (fun prices (tk : ticker) =>
          match reverseMap (fst tk) with
          | Some token => Obj.set prices token (snd tk)
          | None => prices
          end) data acc)
  /\ incl
       (Obj.keys
          (fold_left
             (fun prices (tk : ticker) =>
                match reverseMap (fst tk) with
                | Some token => Obj.set prices token (snd tk)
                | None => prices
                end) data acc))
       tokens.
Proof.
  revert acc.
  induction data as [|tk data IH]; intros acc Hwf Hin; cbn [fold_left];
    [now split|].
  apply IH; destruct (reverseMap (fst tk)) eqn:E; trivial.
  - now apply wf_set.
  - intros x Hx. apply In_keys_set in Hx. destruct Hx as [->|Hx].
    + now apply (reverseMap_token (fst tk)).
    + now apply Hin.
Qed.

Lemma collect_prices_wf (data : list ticker) : Obj.wf (collect_prices data).
Proof. apply (collect_from data []); [apply NoDup_nil|intros x []]. Qed.

Lemma collect_prices_tokens (data : list ticker) :
  incl (Obj.keys (collect_prices data)) tokens.
Proof. apply (collect_from data []); [apply NoDup_nil|intros x []]. Qed.

(** Six keys collected are the six tokens. *)
Lemma fetch_ok_covers (data : list ticker) :
  fetch_ok (Some data) = true -> covers (collect_prices data).
Proof.
  unfold fetch_ok. intros H t Ht. apply Nat.leb_le in H.
  exact (@NoDup_length_incl _ (Obj.keys (collect_prices data)) tokens
           (collect_prices_wf data) H (collect_prices_tokens data) t Ht).
Qed.

(** [getPricesFromBinance] by cases on the outcome of the fetch. *)
Lemma getPricesFromBinance_cases (this : bot) (r : response) (now : Z) :
  (fetch_ok r = false /\ getPricesFromBinance this r now = (None, this))
  \/ (exists data,
        r = Some data /\ fetch_ok r = true
        /\ getPricesFromBinance this r now
           = (Some (collect_prices data),
              set_prices this
                {| cache_prices := collect_prices data;
                   cache_timestamp := now; cache_maxAge := None |}
                (Obj.spread (lastKnownPrices this) (collect_prices data)))).
Proof.
  destruct r as [data|]; [|left; now split].
  destruct (fetch_ok (Some data)) eqn:E.
  - right. exists data. repeat split. unfold fetch_ok in E.
    unfold getPricesFromBinance. fold (collect_prices data). now rewrite E.
  - left. split; [reflexivity|]. unfold fetch_ok in E.
    unfold getPricesFromBinance. fold (collect_prices data). now rewrite E.
Qed.

Lemma stale_not_fresh (c : cache) (now : Z) : stale c -> cache_fresh c now = false.
Proof.
  unfold cache_fresh. intros [H|H]; rewrite H; [reflexivity|].
  apply andb_false_r.
Qed.

(** [getPrices] on a cache it does not serve from, by cases on the outcome
    of the fetch. *)
Lemma getPrices_cases (this : bot) (now : Z) (r : response) (now' : Z) :
  cache_fresh (priceCache this) now = false ->
  let got := getPrices this now r now' in
  (fetch_ok r = false /\ after got = this
   /\ returned got
      = if (0 <? List.length (Obj.keys (lastKnownPrices this)))%nat
        then Some (lastKnownPrices this) else None)
  \/ (exists data,
        r = Some data /\ fetch_ok r = true
        /\ returned got = Some (collect_prices data)
        /\ after got
           = set_prices this
               {| cache_prices := collect_prices data;
                  cache_timestamp := now'; cache_maxAge := None |}
               (Obj.spread
                  (Obj.spread (lastKnownPrices this) (collect_prices data))
                  (collect_prices data))).
Proof.
  intros Hc got. unfold got, getPrices. rewrite Hc.
  destruct (getPricesFromBinance_cases this r now') as [[Hf ->]|(data & -> & Hf & ->)].
  - left. split; [assumption|].
    destruct (0 <? List.length (Obj.keys (lastKnownPrices this)))%nat; now split.
  - right. exists data. now repeat split.
Qed.

Lemma getPrices_keeps_stale (this : bot) (now : Z) (r : response) (now' : Z) :
  stale (priceCache this) ->
  stale (priceCache (after (getPrices this now r now'))).
Proof.
  intro H.
  destruct (getPrices_cases this now r now' (stale_not_fresh _ now H))
    as [(_ & -> & _)|(data & _ & _ & _ & ->)]; [assumption|].
  now right.
Qed.

Lemma poll_keeps_stale (calls : list price_call) (this : bot) :
  stale (priceCache this) -> stale (priceCache (poll this calls)).
Proof.
  revert this. induction calls as [|c calls IH]; intros this H; [assumption|].
  apply IH. now apply getPrices_keeps_stale.
Qed.

Lemma whole_collect (data : list ticker) :
  fetch_ok (Some data) = true -> whole (collect_prices data).
Proof.
  intro H. split; [apply collect_prices_wf|]. intro t. split.
  - apply collect_prices_tokens.
  - now apply fetch_ok_covers.
Qed.

Lemma whole_not_empty (p : obj) : whole p -> p <> [].
Proof.
  intros [_ H] ->. apply (H "WETH"). cbn. auto.
Qed.

Lemma store_test (p : obj) :
  (0 <? List.length (Obj.keys p))%nat = false <-> p = [].
Proof. destruct p; cbn; split; intro H; try reflexivity; discriminate. Qed.

(** One call keeps the last-known store empty or whole, and what it returns
    is whole. *)
Lemma getPrices_whole (this : bot) (now : Z) (r : response) (now' : Z) :
  stale (priceCache this) ->
  lastKnownPrices this = [] \/ whole (lastKnownPrices this) ->
  let got := getPrices this now r now' in
  (lastKnownPrices (after got) = [] \/ whole (lastKnownPrices (after got)))
  /\ forall p, returned got = Some p -> whole p.
Proof.
  intros Hs Hlk got.
  destruct (getPrices_cases this now r now' (stale_not_fresh _ now Hs))
    as [(_ & Ha & Hr)|(data & -> & Hf & Hr & Ha)]; fold got in Ha, Hr.
  - rewrite Ha. split; [assumption|]. intros p Hp. rewrite Hr in Hp.
    destruct (0 <? _)%nat eqn:E; [|discriminate].
    injection Hp as <-. destruct Hlk as [Hlk|Hlk]; [|assumption].
    rewrite Hlk in E. discriminate.
  - pose proof (whole_collect data Hf) as Hw. rewrite Ha, Hr. cbn. split.
    + right. split.
      * apply wf_spread, wf_spread.
        destruct Hlk as [->|[Hwf _]]; [apply NoDup_nil|assumption].
      * intro t. rewrite !In_keys_spread. destruct Hw as [_ Hw].
        rewrite Hw. destruct Hlk as [->|[_ Hlk]]; [cbn|rewrite Hlk]; tauto.
    + now intros p [= <-].
Qed.

Lemma poll_whole (calls : list price_call) (this : bot) :
  stale (priceCache this) ->
  lastKnownPrices this = [] \/ whole (lastKnownPrices this) ->
  lastKnownPrices (poll this calls) = [] \/ whole (lastKnownPrices (poll this calls)).
Proof.
  revert this.
  induction calls as [|c calls IH]; intros this Hs Hlk; [assumption|].
  apply IH; [now apply getPrices_keeps_stale|].
  now apply getPrices_whole.
Qed.

(** X1.  A bot that the constructor made never returns a partial price
    map: after any series of calls of [getPrices], on responses whose
    symbols are ticker symbols, a call returns [null] or a map that holds
    the six tokens, each once, and nothing else. *)
Theorem getPrices_returns_whole_maps
    (cw : custom_weights) (threshold minTrade : num) (baseline : obj)
    (calls : list price_call) (now : Z) (r : response) (now' : Z) (p : obj)
    (Hcalls : Forall (fun c => plain (reply c) = true) calls)
    (Hr : plain r = true) :
  returned
    (getPrices (poll (constructor cw threshold minTrade baseline) calls) now r now')
  = Some p ->
  whole p.
Proof.
  intro H.
  apply (getPrices_whole
           (poll (constructor cw threshold minTrade baseline) calls) now r now');
    trivial.
  - apply poll_keeps_stale. now left.
  - apply poll_whole; now left.
Qed.

Lemma getPrices_returns_whole_maps_witness : whole prices_a.
Proof.
  apply (getPrices_returns_whole_maps Unset NaN NaN demo_baseline
           [mkCall 1000 (Some tickers_a) 1001] 2000 None 2001 prices_a).
  - repeat constructor.
  - reflexivity.
  - reflexivity.
Defined.

(** One call leaves the last-known store empty exactly when it was empty
    and the fetch failed. *)
Lemma getPrices_store_empty (this : bot) (now : Z) (r : response) (now' : Z) :
  cache_fresh (priceCache this) now = false ->
  lastKnownPrices (after (getPrices this now r now')) = []
  <-> lastKnownPrices this = [] /\ fetch_ok r = false.
Proof.
  intro Hs.
  destruct (getPrices_cases this now r now' Hs)
    as [(Hf & Ha & _)|(data & -> & Hf & _ & Ha)]; rewrite Ha.
  - tauto.
  - cbn [lastKnownPrices set_prices]. rewrite Hf. split; [|intros [_ [=]]].
    intro H. exfalso.
    assert (Hin : In "WETH" (Obj.keys (Obj.spread
              (Obj.spread (lastKnownPrices this) (collect_prices data))
              (collect_prices data)))).
    { apply In_keys_spread. right. apply (fetch_ok_covers data Hf). cbn. auto. }
    rewrite H in Hin. destruct Hin.
Qed.

Lemma poll_store_empty (calls : list price_call) (this : bot) :
  stale (priceCache this) ->
  lastKnownPrices (poll this calls) = []
  <-> lastKnownPrices this = []
      /\ Forall (fun c => fetch_ok (reply c) = false) calls.
Proof.
  revert this.
  induction calls as [|c calls IH]; intros this Hs.
  - cbn. split; [now split|now intros [H _]].
  - cbn [poll fold_left]. fold (poll (after (getPrices this (at_entry c) (reply c) (at_reply c))) calls).
    rewrite IH by now apply getPrices_keeps_stale.
    rewrite getPrices_store_empty by now apply stale_not_fresh.
    split.
    + intros [[H1 H2] H3]. split; [assumption|now constructor].
    + intros [H1 H2]. inversion H2; subst. now repeat split.
Qed.

(** X2.  [getPrices] returns [null] exactly when the fetch fails and no
    fetch has succeeded since the constructor ran. *)
Theorem getPrices_null_iff_no_fetch_ever_succeeded
    (cw : custom_weights) (threshold minTrade : num) (baseline : obj)
    (calls : list price_call) (now : Z) (r : response) (now' : Z)
    (Hcalls : Forall (fun c => plain (reply c) = true) calls)
    (Hr : plain r = true) :
  returned
    (getPrices (poll (constructor cw threshold minTrade baseline) calls) now r now')
  = None
  <-> fetch_ok r = false
      /\ Forall (fun c => fetch_ok (reply c) = false) calls.
Proof.
  set (b := poll (constructor cw threshold minTrade baseline) calls).
  assert (Hs : stale (priceCache b)) by (apply poll_keeps_stale; now left).
  assert (He : lastKnownPrices b = []
               <-> Forall (fun c => fetch_ok (reply c) = false) calls).
  { unfold b. rewrite poll_store_empty by now left. cbn. tauto. }
  destruct (getPrices_cases b now r now' (stale_not_fresh _ now Hs))
    as [(Hf & _ & Hret)|(data & -> & Hf & Hret & _)]; rewrite Hret.
  - rewrite <- He, <- store_test.
    destruct (0 <? _)%nat; split; try discriminate; try tauto.
    now intros [_ [=]].
  - rewrite Hf. split; [discriminate|now intros [[=] _]].
Qed.

Lemma getPrices_null_iff_no_fetch_ever_succeeded_witness :
  returned
    (getPrices (poll fresh_bot [mkCall 1000 None 1001]) 2000
               (Some [("BTCUSDT", Fin 60000)]) 2001)
  = None
  <-> fetch_ok (Some [("BTCUSDT", Fin 60000)]) = false
      /\ Forall (fun c => fetch_ok (reply c) = false) [mkCall 1000 None 1001].
Proof.
  apply (getPrices_null_iff_no_fetch_ever_succeeded Unset NaN NaN demo_baseline
           [mkCall 1000 None 1001] 2000 (Some [("BTCUSDT", Fin 60000)]) 2001).
  - repeat constructor.
  - reflexivity.
Defined.

(** X3.  Prices that were fetched once are what a later call returns when
    its fetch fails: the fallback reads, for every token of the fetched
    map, the price that was fetched, and the failed call changes nothing. *)
Theorem getPrices_falls_back_on_the_last_fetch
    (this : bot) (now1 : Z) (r1 : response) (now1' now2 : Z) (r2 : response)
    (now2' : Z)
    (Hcache : cache_fresh (priceCache this) now1 = false)
    (Hplain : plain r1 = true /\ plain r2 = true)
    (Hok : fetch_ok r1 = true)
    (Hfail : fetch_ok r2 = false) :
  let first := getPrices this now1 r1 now1' in
  let second := getPrices (after first) now2 r2 now2' in
  exists p lk,
    returned first = Some p
    /\ returned second = Some lk
    /\ (forall tok, In tok (Obj.keys p) -> Obj.get lk tok = Obj.get p tok)
    /\ after second = after first.
Proof.
  intros first second.
  destruct (getPrices_cases this now1 r1 now1' Hcache)
    as [(Hf & _)|(data & -> & _ & Hret & Ha)]; [congruence|].
  fold first in Hret, Ha.
  assert (Hs : stale (priceCache (after first))) by (rewrite Ha; now right).
  destruct (getPrices_cases (after first) now2 r2 now2' (stale_not_fresh _ now2 Hs))
    as [(_ & Ha2 & Hret2)|(data2 & _ & Hf & _)]; [|congruence].
  fold second in Ha2, Hret2.
  exists (collect_prices data), (lastKnownPrices (after first)).
  repeat split; trivial.
  - rewrite Hret2. destruct (0 <? _)%nat eqn:E; [reflexivity|].
    apply store_test in E. exfalso.
    apply (proj1 (getPrices_store_empty this now1 (Some data) now1' Hcache)) in E.
    destruct E as [_ E]. congruence.
  - intros tok Hin. rewrite Ha. cbn [lastKnownPrices set_prices].
    apply get_spread_In; [apply collect_prices_wf|assumption].
Qed.

Lemma getPrices_falls_back_on_the_last_fetch_witness :
  let first := getPrices fresh_bot 1000 (Some tickers_a) 1001 in
  let second := getPrices (after first) 2000 None 2001 in
  exists p lk,
    returned first = Some p
    /\ returned second = Some lk
    /\ (forall tok, In tok (Obj.keys p) -> Obj.get lk tok = Obj.get p tok)
    /\ after second = after first.
Proof.
  apply (getPrices_falls_back_on_the_last_fetch
           fresh_bot 1000 (Some tickers_a) 1001 2000 None 2001).
  - reflexivity.
  - split; reflexivity.
  - reflexivity.
  - reflexivity.
Defined.

(** ** The HODL comparison in the polling loop *)

Lemma total_ext (f g : num -> string -> num) (ks : list string) (acc : num) :
  (forall sum tok, In tok ks -> f sum tok = g sum tok) ->
  fold_left f ks acc = fold_left g ks acc.
Proof.
  revert acc. induction ks as [|k ks IH]; intros acc H; cbn; [reflexivity|].
  rewrite (H acc k) by now left. apply IH. intros sum tok Hin. apply H. now right.
Qed.

Lemma or_else_same (x : num) : Num.or_else x x = x.
Proof. unfold Num.or_else. now destruct (Num.truthy x). Qed.

(** With a last-known store that reads as the current prices on every
    baseline token, the value at the start is the HODL value. *)
Lemma initialValue_at_current_prices (this : bot) (currentBalances currentPrices : obj) :
  (forall tok, In tok (Obj.keys (initialBalances this)) ->
     Obj.get (lastKnownPrices this) tok = Obj.get currentPrices tok) ->
  let report := calculateHodlComparison this currentBalances currentPrices in
  initialValue report = hodlValue report.
Proof.
  intros H report. unfold report, calculateHodlComparison.
  cbn [initialValue hodlValue].
  destruct (0 <? _)%nat; [|reflexivity].
  unfold portfolio_value. apply total_ext. intros sum tok Hin.
  unfold value_of. now rewrite (H tok Hin), or_else_same.
Qed.

(** X4.  In a turn of the polling loop the comparison is computed after
    [getPrices] has merged the prices it returns into the last-known
    store, so the baseline is valued at the prices of the turn: the value
    at the start equals the HODL value, the gain against the start is the
    gain against HODL, and the HODL gain is zero when the HODL value is
    finite. *)
Theorem cycle_values_the_baseline_at_the_prices_of_the_turn
    (this : bot) (reading : string -> option num)
    (now : Z) (r : response) (now' : Z) (exchange : nat -> bool)
    (this' : bot) (report : comparison_report) (run : state * list event)
    (Hcache : cache_fresh (priceCache this) now = false)
    (Hplain : plain r = true)
    (Hbase : incl (Obj.keys (initialBalances this)) tokens) :
  cycle this reading now r now' exchange = (this', Some (report, run)) ->
  initialValue report = hodlValue report
  /\ rebalanceGainLoss report = rebalanceVsHodl report
  /\ (Num.finite (hodlValue report) -> hodlGainLoss report = Fin 0).
Proof.
  unfold cycle. intro H.
  assert (Hi : initialValue report = hodlValue report).
  { destruct (getPrices_cases this now r now' Hcache)
      as [(_ & Ha & Hret)|(data & -> & Hf & Hret & Ha)];
      rewrite Hret, Ha in H.
    - destruct (0 <? _)%nat; [|discriminate].
      injection H as _ <- _. now apply initialValue_at_current_prices.
    - injection H as _ <- _. apply initialValue_at_current_prices.
      intros tok Hin. cbn [lastKnownPrices set_prices initialBalances] in *.
      apply get_spread_In; [apply collect_prices_wf|].
      apply (fetch_ok_covers data Hf). now apply Hbase. }
  destruct (returned (getPrices this now r now')); [|discriminate].
  injection H as _ <- _.
  unfold calculateHodlComparison in *.
  cbn [initialValue hodlValue rebalanceGainLoss rebalanceVsHodl hodlGainLoss] in *.
  rewrite Hi. repeat split. intros [q ->]. apply sub_self_Fin.
Qed.

Lemma cycle_values_the_baseline_at_the_prices_of_the_turn_witness :
  let report :=
    calculateHodlComparison
      (after (getPrices fresh_bot 1000 (Some tickers_b) 1001))
      (getBalances (fun _ => Some (Fin 1))) prices_b in
  initialValue report = hodlValue report
  /\ rebalanceGainLoss report = rebalanceVsHodl report
  /\ (Num.finite (hodlValue report) -> hodlGainLoss report = Fin 0).
Proof.
  apply (cycle_values_the_baseline_at_the_prices_of_the_turn
           fresh_bot (fun _ => Some (Fin 1)) 1000 (Some tickers_b) 1001
           (fun _ => true)
           (after (getPrices fresh_bot 1000 (Some tickers_b) 1001))
           _
           (rebalance (after (getPrices fresh_bot 1000 (Some tickers_b) 1001))
              (fun _ => true)
              (calculateWeights (getBalances (fun _ => Some (Fin 1))) prices_b)
              (getBalances (fun _ => Some (Fin 1))) prices_b)).
  - reflexivity.
  - reflexivity.
  - intros tok Hin. cbn in Hin. cbn. tauto.
  - reflexivity.
Defined.

(** ** Weights *)

(** X5.  On a balance object with non-negative quantities and positive
    prices, [calculateWeights] returns an object with the keys of the
    balances, in their order, and every weight is a finite number between
    0 and 1. *)
Theorem calculateWeights_between_zero_and_one
    (balances0 prices : obj)
    (Hwf : Obj.wf balances0)
    (Hbal : all_nonneg balances0)
    (Hprice : Forall (fun tok => Num.positive (Obj.get prices tok))
                     (Obj.keys balances0)) :
  Obj.keys (calculateWeights balances0 prices) = Obj.keys balances0
  /\ Forall (fun tok =>
               exists y, Obj.get (calculateWeights balances0 prices) tok = Fin y
                         /\ (0 <= y)%Q /\ (y <= 1)%Q)
            (Obj.keys balances0).
Proof.
  split; [apply calculateWeights_keys|].
  apply Forall_forall. intros k Hk.
  destruct balances0 as [|[k0 v0] rest] eqn:Eb; [destruct Hk|]. rewrite <- Eb in *.
  assert (Hsane : sane (mkBot [] NaN NaN k0 [] [] initial_cache) balances0 prices).
  { repeat split; trivial; [|constructor]. rewrite Eb. now left. }
  destruct (sane_total _ _ _ Hsane) as (T & HT & _ & HT0 & Hle).
  destruct (sane_weight_of _ _ _ Hsane T k HT Hk)
    as (y & b & p & Hy & Hb & Hp & Hb0 & Hp0 & Hprod & Hzero).
  destruct (sane_value _ _ _ Hsane k Hk)
    as (b' & p' & Hb' & Hp' & _ & _ & Hval).
  rewrite Hb in Hb'. rewrite Hp in Hp'. injection Hb' as <-. injection Hp' as <-.
  specialize (Hle k Hk). rewrite Hval in Hle. cbn [qval] in Hle.
  rewrite Qred_correct in Hle.
  exists y. split; [exact Hy|].
  destruct (Qeq_dec T 0) as [Hz|Hnz].
  - specialize (Hzero Hz). rewrite Hzero. split; lra.
  - assert (HTpos : (0 < T)%Q) by lra.
    assert (Hy' : (y == b * p / T)%Q) by (field_simplify_eq; [lra|exact Hnz]).
    split.
    + rewrite Hy'. apply Qle_shift_div_l; [exact HTpos|]. nra.
    + rewrite Hy'. apply Qle_shift_div_r; [exact HTpos|]. lra.
Qed.

Lemma calculateWeights_between_zero_and_one_witness :
  Obj.keys (calculateWeights busy_balances busy_prices) = Obj.keys busy_balances
  /\ Forall (fun tok =>
               exists y, Obj.get (calculateWeights busy_balances busy_prices) tok = Fin y
                         /\ (0 <= y)%Q /\ (y <= 1)%Q)
            (Obj.keys busy_balances).
Proof.
  apply (calculateWeights_between_zero_and_one busy_balances busy_prices).
  - sample_distinct.
  - sample_all.
  - sample_all.
Defined.

(** ** Balances and the turn of the polling loop *)

(** [getBalances] gives the six tokens in the order of [this.tokens], a
    failed read counting as zero. *)
Lemma getBalances_tabulate (reading : string -> option num) :
  getBalances reading
  = map (fun name =>
           (name, match reading name with
                  | Some balance => balance
                  | None => Num.zero
                  end))
        tokens.
Proof. reflexivity. Qed.

Lemma getBalances_keys (reading : string -> option num) :
  Obj.keys (getBalances reading) = tokens.
Proof. reflexivity. Qed.

Lemma getBalances_nonneg (reading : string -> option num) :
  (forall name b, reading name = Some b -> Num.nonneg b) ->
  all_nonneg (getBalances reading).
Proof.
  intro H. rewrite getBalances_tabulate. unfold all_nonneg.
  apply Forall_map, Forall_forall. intros name _. cbn [snd].
  destruct (reading name) as [b|] eqn:E; [now apply (H name)|].
  exists 0%Q. split; [reflexivity|lra].
Qed.

Lemma spread_all (P : num -> Prop) (b a : obj) :
  Forall (fun kv => P (snd kv)) a -> Forall (fun kv => P (snd kv)) b ->
  Forall (fun kv => P (snd kv)) (Obj.spread a b).
Proof.
  unfold Obj.spread. revert a.
  induction b as [|[k v] b IH]; intros a Ha Hb; cbn [fold_left]; [assumption|].
  inversion Hb; subst. apply IH; [|assumption].
  now apply ObjFacts.set_Forall.
Qed.

Lemma collect_positive_from (data : list ticker) (acc : obj) :
  Forall (fun tk : ticker => Num.positive (snd tk)) data ->
  all_positive acc ->
  all_positive
    (fold_left
       (fun prices (tk : ticker) =>
          match reverseMap (fst tk) with
          | Some token => Obj.set prices token (snd tk)
          | None => prices
          end) data acc).
Proof.
  intro H. revert acc.
  induction H as [|tk data Htk _ IH]; intros acc Hacc; cbn [fold_left];
    [assumption|].
  apply IH. destruct (reverseMap (fst tk)); [|assumption].
  now apply ObjFacts.set_Forall.
Qed.

Lemma collect_positive (data : list ticker) :
  priced (Some data) -> all_positive (collect_prices data).
Proof. intro H. apply collect_positive_from; [exact H|constructor]. Qed.

(** One call keeps the last-known prices positive, and returns positive
    prices, when the response carries positive prices. *)
Lemma getPrices_positive (this : bot) (now : Z) (r : response) (now' : Z) :
  cache_fresh (priceCache this) now = false ->
  all_positive (lastKnownPrices this) -> priced r ->
  let got := getPrices this now r now' in
  all_positive (lastKnownPrices (after got))
  /\ forall p, returned got = Some p -> all_positive p.
Proof.
  intros Hc Hlk Hr got.
  destruct (getPrices_cases this now r now' Hc)
    as [(_ & Ha & Hret)|(data & -> & Hf & Hret & Ha)]; fold got in Ha, Hret;
    rewrite Ha, Hret.
  - split; [assumption|]. intros p.
    destruct (0 <? _)%nat; [now intros [= <-]|discriminate].
  - pose proof (collect_positive data Hr) as Hp. cbn [lastKnownPrices set_prices].
    split; [|now intros p [= <-]].
    apply spread_all; [apply spread_all|]; assumption.
Qed.

Lemma poll_positive (calls : list price_call) (this : bot) :
  stale (priceCache this) -> all_positive (lastKnownPrices this) ->
  Forall (fun c => priced (reply c)) calls ->
  all_positive (lastKnownPrices (poll this calls)).
Proof.
  revert this.
  induction calls as [|c calls IH]; intros this Hs Hlk Hcalls; [assumption|].
  inversion Hcalls; subst.
  apply IH; [now apply getPrices_keeps_stale| |assumption].
  now apply getPrices_positive; [apply stale_not_fresh|..].
Qed.

(** [getPrices] writes the two price fields only. *)
Lemma getPrices_keeps_config (this : bot) (now : Z) (r : response) (now' : Z) :
  let b := after (getPrices this now r now') in
  weights b = weights this /\ baseToken b = baseToken this
  /\ deviationThreshold b = deviationThreshold this
  /\ minTradeUSD b = minTradeUSD this
  /\ initialBalances b = initialBalances this.
Proof.
  unfold getPrices. destruct (cache_fresh _ _); [now repeat split|].
  destruct (getPricesFromBinance_cases this r now') as [[_ ->]|(data & _ & _ & ->)].
  - now destruct (0 <? _)%nat.
  - now repeat split.
Qed.

Lemma poll_keeps_config (calls : list price_call) (this : bot) :
  let b := poll this calls in
  weights b = weights this /\ baseToken b = baseToken this
  /\ deviationThreshold b = deviationThreshold this
  /\ minTradeUSD b = minTradeUSD this
  /\ initialBalances b = initialBalances this.
Proof.
  revert this. induction calls as [|c calls IH]; intro this; [now repeat split|].
  cbn zeta in *. cbn [poll fold_left].
  fold (poll (after (getPrices this (at_entry c) (reply c) (at_reply c))) calls).
  destruct (IH (after (getPrices this (at_entry c) (reply c) (at_reply c))))
    as (-> & -> & -> & -> & ->).
  apply getPrices_keeps_config.
Qed.

Lemma equal_allocation_nonneg : all_nonneg equal_allocation.
Proof. sample_all. Qed.

(** ** The HODL comparison *)

Lemma total_finite (f : string -> num) (ks : list string) (acc : num) :
  Forall (fun tok => Num.finite (f tok)) ks -> Num.finite acc ->
  Num.finite (fold_left (fun sum tok => sum + f tok) ks acc).
Proof.
  intro H. revert acc. induction H as [|k ks Hk _ IH]; intros acc Hacc;
    cbn [fold_left]; [assumption|].
  apply IH. now apply add_finite.
Qed.

Lemma or_else_finite (x d : num) :
  x = NaN \/ Num.finite x -> Num.finite d -> Num.finite (Num.or_else x d).
Proof.
  intros [->|[q ->]] Hd; unfold Num.or_else; cbn [Num.truthy]; [assumption|].
  destruct (negb _); [now exists q|assumption].
Qed.

Lemma percent_finite (x v : Q) :
  Num.finite (if Fin v >? Num.zero then Fin x / Fin v * hundred else Num.zero).
Proof.
  destruct (Fin v >? Num.zero) eqn:E; [|now exists 0%Q].
  apply NumFacts.gtb_Fin in E.
  rewrite div_Fin by lra. cbn [Num.mul hundred]. eexists. reflexivity.
Qed.

(** X7.  The report of [calculateHodlComparison] is consistent in its
    signs and guarded in its percentages: each of the three differences is
    above zero exactly when its first value is above its second, so the
    verdict of the messages follows the values; on finite balances and
    prices the three percentages are finite numbers; and a percentage is 0
    when the value it is taken against is not above zero. *)
Theorem calculateHodlComparison_is_consistent
    (this : bot) (currentBalances currentPrices : obj)
    (Hcurrent :
       Forall (fun tok => Num.finite (Obj.get currentBalances tok)
                          /\ Num.finite (Obj.get currentPrices tok))
              (Obj.keys currentBalances))
    (Hbaseline :
       Forall (fun tok => Num.finite (Obj.get (initialBalances this) tok)
                          /\ Num.finite (Obj.get currentPrices tok)
                          /\ (Obj.get (lastKnownPrices this) tok = NaN
                              \/ Num.finite (Obj.get (lastKnownPrices this) tok)))
              (Obj.keys (initialBalances this))) :
  let report := calculateHodlComparison this currentBalances currentPrices in
  ((rebalanceVsHodl report >? Num.zero) = (hodlValue report <? currentValue report)
   /\ (rebalanceGainLoss report >? Num.zero)
      = (initialValue report <? currentValue report)
   /\ (hodlGainLoss report >? Num.zero)
      = (initialValue report <? hodlValue report))
  /\ Num.finite (rebalanceGainLossPercent report)
  /\ Num.finite (hodlGainLossPercent report)
  /\ Num.finite (rebalanceVsHodlPercent report)
  /\ ((initialValue report >? Num.zero) = false ->
      rebalanceGainLossPercent report = Fin 0
      /\ hodlGainLossPercent report = Fin 0)
  /\ ((hodlValue report >? Num.zero) = false ->
      rebalanceVsHodlPercent report = Fin 0).
Proof.
  intro report.
  assert (Hc : Num.finite (currentValue report))
    by now apply portfolio_value_finite.
  assert (Hh : Num.finite (hodlValue report)).
  { apply portfolio_value_finite.
    eapply Forall_impl; [|exact Hbaseline]. cbn beta. tauto. }
  assert (Hi : Num.finite (initialValue report)).
  { unfold report, calculateHodlComparison. cbn [initialValue].
    destruct (0 <? _)%nat; [|exact Hh].
    apply (total_finite
             (fun token =>
                Obj.get (initialBalances this) token
                * Num.or_else (Obj.get (lastKnownPrices this) token)
                              (Obj.get currentPrices token))); [|now exists 0%Q].
    eapply Forall_impl; [|exact Hbaseline]. cbn beta. intros tok (H1 & H2 & H3).
    apply mul_finite; [assumption|]. now apply or_else_finite. }
  split.
  { unfold report, calculateHodlComparison.
    cbn [currentValue hodlValue initialValue rebalanceGainLoss hodlGainLoss
         rebalanceVsHodl].
    repeat split; apply NumFacts.sub_gtb_zero. }
  unfold report, calculateHodlComparison in *.
  cbn [currentValue hodlValue initialValue rebalanceGainLoss hodlGainLoss
       rebalanceVsHodl rebalanceGainLossPercent hodlGainLossPercent
       rebalanceVsHodlPercent] in *.
  destruct Hc as [a ->], Hh as [b Hb].
  rewrite Hb in *. destruct Hi as [c ->].
  cbn [Num.sub]. repeat split.
  - apply percent_finite.
  - apply percent_finite.
  - apply percent_finite.
  - now rewrite H.
  - now rewrite H.
  - intros ->. reflexivity.
Qed.

Lemma calculateHodlComparison_is_consistent_witness :
  let report := calculateHodlComparison fresh_bot busy_balances prices_a in
  ((rebalanceVsHodl report >? Num.zero) = (hodlValue report <? currentValue report)
   /\ (rebalanceGainLoss report >? Num.zero)
      = (initialValue report <? currentValue report)
   /\ (hodlGainLoss report >? Num.zero)
      = (initialValue report <? hodlValue report))
  /\ Num.finite (rebalanceGainLossPercent report)
  /\ Num.finite (hodlGainLossPercent report)
  /\ Num.finite (rebalanceVsHodlPercent report)
  /\ ((initialValue report >? Num.zero) = false ->
      rebalanceGainLossPercent report = Fin 0
      /\ hodlGainLossPercent report = Fin 0)
  /\ ((hodlValue report >? Num.zero) = false ->
      rebalanceVsHodlPercent report = Fin 0).
Proof.
  apply (calculateHodlComparison_is_consistent fresh_bot busy_balances prices_a).
  - cbn. repeat constructor; eexists; reflexivity.
  - cbn. repeat constructor; try (eexists; reflexivity); now left.
Defined.

(** ** Resetting and persisting the baseline *)

Lemma getBalances_wf (reading : string -> option num) :
  Obj.wf (getBalances reading).
Proof. unfold Obj.wf. rewrite getBalances_keys. apply tokens_distinct. Qed.

Lemma getBalances_finite (reading : string -> option num) (tok : string) :
  (forall name b, reading name = Some b -> Num.finite b) ->
  In tok tokens -> Num.finite (Obj.get (getBalances reading) tok).
Proof.
  intros H Hin. rewrite getBalances_tabulate, get_tabulate by assumption.
  destruct (reading tok) as [b|] eqn:E; [now apply (H tok)|now exists 0%Q].
Qed.

(** X8.  [/reset_hodl] from a chat that is not listed changes nothing; from
    a listed chat it makes the balances read now the baseline, and the
    comparison taken on those balances then reports the HODL value equal to
    the current value and a difference of zero. *)
Theorem reset_hodl_restarts_the_comparison
    (this : bot) (chatIds : list string) (chat : string)
    (reading : string -> option num) (currentPrices : obj)
    (Hread : forall name b, reading name = Some b -> Num.finite b)
    (Hprices : Forall (fun tok => Num.finite (Obj.get currentPrices tok)) tokens) :
  let this' := reset_hodl this chatIds chat reading in
  let report := calculateHodlComparison this' (getBalances reading) currentPrices in
  (~ In chat chatIds -> this' = this)
  /\ (In chat chatIds ->
      initialBalances this' = getBalances reading
      /\ hodlValue report = currentValue report
      /\ rebalanceVsHodl report = Fin 0).
Proof.
  intros this' report. unfold report, this', reset_hodl.
  destruct (existsb (String.eqb chat) chatIds) eqn:E.
  - split.
    + intro Hn. exfalso. apply Hn.
      apply existsb_exists in E. destruct E as (x & Hx & Heq).
      apply String.eqb_eq in Heq. now subst.
    + intros _. rewrite spread_copy by apply getBalances_wf.
      cbn [initialBalances with_baseline].
      unfold calculateHodlComparison.
      cbn [initialBalances with_baseline hodlValue currentValue rebalanceVsHodl].
      repeat split.
      assert (Hf : Num.finite (portfolio_value (getBalances reading) currentPrices)).
      { apply portfolio_value_finite. rewrite getBalances_keys.
        apply Forall_forall. intros tok Htok. split.
        - now apply getBalances_finite.
        - now apply (proj1 (Forall_forall _ _) Hprices). }
      destruct Hf as [q ->]. apply sub_self_Fin.
  - split; [reflexivity|].
    intro Hin. exfalso.
    assert (existsb (String.eqb chat) chatIds = true); [|congruence].
    apply existsb_exists. exists chat. split; [assumption|apply String.eqb_refl].
Qed.

Lemma reset_hodl_restarts_the_comparison_witness :
  let this' := reset_hodl fresh_bot ["42"] "42" (fun _ => Some (Fin 2)) in
  let report :=
    calculateHodlComparison this' (getBalances (fun _ => Some (Fin 2))) prices_a in
  (~ In "42" ["42"] -> this' = fresh_bot)
  /\ (In "42" ["42"] ->
      initialBalances this' = getBalances (fun _ => Some (Fin 2))
      /\ hodlValue report = currentValue report
      /\ rebalanceVsHodl report = Fin 0).
Proof.
  apply (reset_hodl_restarts_the_comparison fresh_bot ["42"] "42"
           (fun _ => Some (Fin 2)) prices_a).
  - intros name b [= <-]. now exists 2%Q.
  - cbn. repeat constructor; eexists; reflexivity.
Defined.

Lemma stringify_finite (o : obj) :
  Forall (fun kv => Num.finite (snd kv)) o -> stringify o = o.
Proof.
  unfold stringify. induction 1 as [|[k v] o [q Hq] _ IH]; cbn [map]; [reflexivity|].
  cbn in Hq. subst v. cbn [fst snd]. now rewrite IH.
Qed.

(** X9.  A restart from the data file that [saveData] wrote brings back a
    baseline of finite balances as it was, but never the last-known
    prices: the constructor empties them after [loadData], so a first
    fetch that fails finds no fallback and [getPrices] returns [null]. *)
Theorem restart_keeps_the_baseline_and_forgets_the_prices
    (this : bot) (cw : custom_weights) (threshold minTrade : num)
    (now : Z) (r : response) (now' : Z)
    (Hfinite : Forall (fun kv => Num.finite (snd kv)) (initialBalances this))
    (Hplain : plain r = true)
    (Hfail : fetch_ok r = false) :
  let restarted := boot cw threshold minTrade (DataFile (saveData this)) in
  initialBalances restarted = initialBalances this
  /\ lastKnownPrices restarted = []
  /\ returned (getPrices restarted now r now') = None.
Proof.
  intro restarted. unfold restarted, boot, loadData, saveData.
  cbn [saved_initialBalances saved_lastKnownPrices].
  rewrite (stringify_finite _ Hfinite). repeat split.
  destruct (getPrices_cases
              (constructor cw threshold minTrade (initialBalances this)) now r now'
              eq_refl)
    as [(_ & _ & ->)|(data & _ & Hf & _)]; [reflexivity|congruence].
Qed.

Lemma restart_keeps_the_baseline_and_forgets_the_prices_witness :
  let restarted :=
    boot Unset NaN NaN
         (DataFile (saveData (after (getPrices fresh_bot 1000 (Some tickers_a) 1001)))) in
  lastKnownPrices (after (getPrices fresh_bot 1000 (Some tickers_a) 1001)) = prices_a
  /\ initialBalances restarted = demo_baseline
  /\ lastKnownPrices restarted = []
  /\ returned (getPrices restarted 2000 None 2001) = None.
Proof.
  split; [reflexivity|].
  apply (restart_keeps_the_baseline_and_forgets_the_prices
           (after (getPrices fresh_bot 1000 (Some tickers_a) 1001))
           Unset NaN NaN 2000 None 2001).
  - cbn. repeat constructor; eexists; reflexivity.
  - reflexivity.
  - reflexivity.
Defined.

(** ** The server *)

Lemma post_config_bot (b : option bot) (req : config_request) :
  snd (post_config b req) = None <-> b = None.
Proof.
  unfold post_config. destruct b as [this|]; [|now split].
  split; [|discriminate].
  destruct (req_customWeights req); [destruct (_ >? _)|]; discriminate.
Qed.

Lemma handle_keeps_the_pairing (s : server) (q : request) :
  (botRunning s = true <-> server_bot s <> None) ->
  botRunning (snd (handle s q)) = true <-> server_bot (snd (handle s q)) <> None.
Proof.
  destruct s as [b running]. cbn [botRunning server_bot]. intro H.
  destruct q as [built| |req|reading c exchange|c]; cbn [handle botRunning server_bot].
  - destruct running; [exact H|].
    destruct built; cbn; [|exact H]. split; [discriminate|reflexivity].
  - destruct running; cbn; [|exact H].
    split; [discriminate|congruence].
  - pose proof (post_config_bot b req) as Hb.
    destruct (post_config b req) as [[|] b']; cbn in *;
      rewrite H; split; intros Hn Hb'; apply Hn; tauto.
  - unfold api_rebalance. destruct b as [this|].
    + destruct (returned _); cbn; rewrite H; split; congruence.
    + cbn. exact H.
  - destruct b as [this|]; cbn; [|exact H].
    rewrite H. split; congruence.
Qed.

Lemma serve_keeps_the_pairing (qs : list request) (s : server) :
  (botRunning s = true <-> server_bot s <> None) ->
  botRunning (serve s qs) = true <-> server_bot (serve s qs) <> None.
Proof.
  revert s. induction qs as [|q qs IH]; intros s H; [exact H|].
  apply IH. now apply handle_keeps_the_pairing.
Qed.

(** X10.  After any series of requests the server has a bot exactly when
    it says the bot is running; so while it is stopped a configuration
    request, and a manual rebalance, are refused with status 400 and
    change nothing. *)
Theorem server_has_a_bot_iff_running (qs : list request) :
  let s := serve initial_server qs in
  (botRunning s = true <-> server_bot s <> None)
  /\ (botRunning s = false ->
      (forall req, handle s (PostConfig req) = (Bad400, s))
      /\ (forall reading c exchange,
            handle s (PostRebalance reading c exchange) = (Bad400, s))).
Proof.
  intro s.
  assert (H : botRunning s = true <-> server_bot s <> None).
  { apply serve_keeps_the_pairing. cbn. split; [discriminate|congruence]. }
  split; [exact H|]. intro Hoff.
  assert (Hb : server_bot s = None).
  { destruct (server_bot s) eqn:E; [|reflexivity].
    assert (botRunning s = true) by (apply H; discriminate). congruence. }
  destruct s as [b running]. cbn in Hoff, Hb. subst. now split.
Qed.

(** X11.  [POST /api/config] on a running bot stores the deviation
    threshold and the minimum trade value of the request before it looks
    at the weights: they are in place whether the answer is 200 or 400.
    The answer is 400 exactly when weights are given whose sum is more
    than 0.01 away from 1, and then the target weights stay; with status
    200 the weights of the request, if any, are the new target weights.
    No other field of the bot changes. *)
Theorem post_config_stores_the_thresholds_before_it_checks_the_weights
    (this : bot) (req : config_request) :
  let code := fst (post_config (Some this) req) in
  exists this',
    snd (post_config (Some this) req) = Some this'
    /\ deviationThreshold this'
       = match req_deviationThreshold req with
         | Some d => d / hundred
         | None => deviationThreshold this
         end
    /\ minTradeUSD this'
       = match req_minTradeUSD req with
         | Some m => m
         | None => minTradeUSD this
         end
    /\ (code = Status400
        <-> exists w, req_customWeights req = Some w
                      /\ (Num.abs (sum (Obj.values w) - Num.one) >? Fin (1 # 100))
                         = true)
    /\ weights this'
       = match code, req_customWeights req with
         | Status200, Some w => w
         | _, _ => weights this
         end
    /\ baseToken this' = baseToken this
    /\ initialBalances this' = initialBalances this
    /\ lastKnownPrices this' = lastKnownPrices this
    /\ priceCache this' = priceCache this.
Proof.
  intro code. unfold code, post_config.
  destruct (req_customWeights req) as [w|] eqn:Ew.
  - destruct (Num.abs (sum (Obj.values w) - Num.one) >? Fin (1 # 100)) eqn:E;
      eexists; cbn [fst snd]; (split; [reflexivity|]);
      cbn [deviationThreshold minTradeUSD weights baseToken initialBalances
           lastKnownPrices priceCache with_config];
      repeat split; trivial.
    + intros _. now exists w.
    + discriminate.
    + intros (w' & [= <-] & H). congruence.
  - eexists. cbn [fst snd]. split; [reflexivity|].
    cbn [deviationThreshold minTradeUSD weights baseToken initialBalances
         lastKnownPrices priceCache with_config].
    repeat split; trivial; [discriminate|].
    intros (w' & [=] & _).
Qed.

(** ** Messages *)

Lemma backslash_plain : is_special backslash = false.
Proof. reflexivity. Qed.

(** An escaped message never starts with a character of the class. *)
Lemma escape_head (message : string) (d : Ascii.ascii) (rest : string) :
  escape message = String d rest -> is_special d = false.
Proof.
  destruct message as [|c message]; cbn [escape]; [discriminate|].
  destruct (is_special c) eqn:E; intros [= <- _]; [apply backslash_plain|exact E].
Qed.

(** X12.  The escaping of [sendToAllChats] only adds backslashes, one
    before each character of the class: the escaped message is longer by
    the number of such characters, and reading a backslash followed by one
    of them as that character gives the message back. *)
Theorem escape_reads_back (message : string) :
  unescape (escape message) = message
  /\ String.length (escape message)
     = (String.length message + specials message)%nat.
Proof.
  induction message as [|c message [IH1 IH2]]; [now split|].
  cbn [escape specials String.length]. destruct (is_special c) eqn:E.
  - split.
    + cbn [unescape]. rewrite Ascii.eqb_refl, E. cbn [andb]. now rewrite IH1.
    + cbn [String.length]. rewrite IH2. lia.
  - split.
    + cbn [unescape]. destruct (escape message) as [|d rest] eqn:Em.
      * destruct message as [|c' message]; [reflexivity|].
        cbn [escape] in Em. destruct (is_special c'); discriminate.
      * rewrite (escape_head message d rest Em), andb_false_r.
        now rewrite IH1.
    + cbn [String.length]. rewrite IH2. lia.
Qed.

(** ** Amounts in base units *)

(** X13.  The order of [swap] asks for at least 98% of the quote, rounded
    down to a base unit: for a quote that is not negative the minimum buy
    amount is not negative, not above the quote, and less than one unit
    under 98% of it; the gas limit of an approval is at least the
    estimate. *)
Theorem minBuyAmount_is_within_two_percent (quotedBigInt gasEstimate : Z)
    (Hquote : (0 <= quotedBigInt)%Z) (Hgas : (0 <= gasEstimate)%Z) :
  (0 <= minBuyAmount quotedBigInt <= quotedBigInt)%Z
  /\ (100 * minBuyAmount quotedBigInt <= 98 * quotedBigInt)%Z
  /\ (98 * quotedBigInt < 100 * minBuyAmount quotedBigInt + 100)%Z
  /\ (gasEstimate <= gasLimit gasEstimate)%Z.
Proof.
  unfold minBuyAmount, gasLimit.
  rewrite !Z.quot_div_nonneg by lia.
  pose proof (Z.div_mod (quotedBigInt * 98) 100 ltac:(lia)) as H1.
  pose proof (Z.mod_pos_bound (quotedBigInt * 98) 100 ltac:(lia)) as H2.
  pose proof (Z.div_mod (gasEstimate * 120) 100 ltac:(lia)) as H3.
  pose proof (Z.mod_pos_bound (gasEstimate * 120) 100 ltac:(lia)) as H4.
  lia.
Qed.

Lemma minBuyAmount_is_within_two_percent_witness :
  (0 <= minBuyAmount 1000001 <= 1000001)%Z
  /\ (100 * minBuyAmount 1000001 <= 98 * 1000001)%Z
  /\ (98 * 1000001 < 100 * minBuyAmount 1000001 + 100)%Z
  /\ (21000 <= gasLimit 21000)%Z.
Proof.
  apply (minBuyAmount_is_within_two_percent 1000001 21000); lia.
Defined.

(** X14.  At start-up native ETH is wrapped only above 0.1 ETH, and then
    nine tenths of it, rounded down to a wei: at least 0.09 ETH is wrapped
    and more than 0.01 ETH stays for gas. *)
Theorem wrapAmount_leaves_a_tenth (nativeBalance : Z) :
  match wrapAmount nativeBalance with
  | Some wrapped =>
      (10 ^ 17 < nativeBalance)%Z
      /\ (9 * 10 ^ 16 <= wrapped)%Z
      /\ (10 * wrapped <= 9 * nativeBalance)%Z
      /\ (10 ^ 16 < nativeBalance - wrapped)%Z
  | None => (nativeBalance <= 10 ^ 17)%Z
  end.
Proof.
  unfold wrapAmount. cbv zeta.
  destruct (nativeBalance >? 10 ^ 17)%Z eqn:E.
  - apply Z.gtb_lt in E.
    change (10 ^ 17)%Z with 100000000000000000%Z in *.
    change (10 ^ 16)%Z with 10000000000000000%Z in *.
    rewrite Z.quot_div_nonneg by lia.
    pose proof (Z.div_mod (nativeBalance * 9) 10 ltac:(lia)) as H1.
    pose proof (Z.mod_pos_bound (nativeBalance * 9) 10 ltac:(lia)) as H2.
    lia.
  - rewrite Z.gtb_ltb in E. now apply Z.ltb_ge in E.
Qed.

(** ** The planner *)

Lemma split_by_sign (f g : trade -> bool) (l : list trade) :
  (forall t, In t l -> f t = negb (g t)) ->
  Permutation (filter f l ++ filter g l) l.
Proof.
  induction l as [|t l IH]; intro H; cbn [filter]; [constructor|].
  assert (IH' : Permutation (filter f l ++ filter g l) l).
  { apply IH. intros x Hx. apply H. now right. }
  rewrite (H t) by now left.
  destruct (g t); cbn [negb app].
  - apply Permutation_sym, Permutation_cons_app, Permutation_sym, IH'.
  - now constructor.
Qed.

(** A deviation beyond a threshold that is not negative has a sign. *)
Lemma beyond_threshold_sign (x : num) (d : Q) :
  (0 <= d)%Q -> (Num.abs x >? Fin d) = true ->
  (x >? Num.zero) = negb (x <? Num.zero).
Proof.
  intros Hd H. destruct x as [q| | |]; try reflexivity; [|discriminate].
  cbn [Num.abs] in H. apply NumFacts.gtb_Fin in H. rewrite Qred_correct in H.
  unfold Num.gtb, Num.zero. cbn [Num.ltb].
  destruct (Qltb q 0) eqn:E; cbn [negb].
  - apply Qltb_lt in E. apply Qltb_ge. lra.
  - apply Qltb_ge in E. apply Qltb_lt.
    destruct (Qeq_dec q 0) as [Hz|Hz]; [|lra].
    rewrite Hz in H. cbn in H. lra.
Qed.

(** X15.  With a deviation threshold that is not negative every flagged
    trade is a sell or a buy, and never both: the sell set and the buy set
    together are a rearrangement of the flagged trades. *)
Theorem flagged_trades_split_into_sells_and_buys
    (this : bot) (currentWeights : obj) (totalValue : num) (d : Q)
    (Hthreshold : deviationThreshold this = Fin d) (Hd : (0 <= d)%Q) :
  let trades := detect this currentWeights totalValue in
  Permutation (sellTrades trades ++ buyTrades trades)%list trades
  /\ forall t, In t trades ->
       (In t (sellTrades trades) /\ ~ In t (buyTrades trades))
       \/ (In t (buyTrades trades) /\ ~ In t (sellTrades trades)).
Proof.
  intro trades.
  assert (Hsign : forall t, In t trades ->
            (diff t >? Num.zero) = negb (diff t <? Num.zero)).
  { intros t Ht. apply detect_In in Ht. destruct Ht as (_ & _ & Ht & _).
    rewrite Hthreshold in Ht. now apply (beyond_threshold_sign (diff t) d). }
  split.
  - unfold sellTrades, buyTrades.
    rewrite <- (sort_perm (fun a b => diff b - diff a)),
            <- (sort_perm (fun a b => diff a - diff b)).
    now apply split_by_sign.
  - intros t Ht. rewrite !sellTrades_In, !buyTrades_In.
    specialize (Hsign t Ht).
    destruct (diff t <? Num.zero); cbn [negb] in Hsign; rewrite Hsign.
    + right. split; [now split|]. now intros [_ [=]].
    + left. split; [now split|]. now intros [_ [=]].
Qed.

Lemma flagged_trades_split_into_sells_and_buys_witness :
  let trades :=
    detect busy_bot (calculateWeights busy_balances busy_prices)
           (portfolio_value busy_balances busy_prices) in
  Permutation (sellTrades trades ++ buyTrades trades)%list trades
  /\ forall t, In t trades ->
       (In t (sellTrades trades) /\ ~ In t (buyTrades trades))
       \/ (In t (buyTrades trades) /\ ~ In t (sellTrades trades)).
Proof.
  apply (flagged_trades_split_into_sells_and_buys busy_bot
           (calculateWeights busy_balances busy_prices)
           (portfolio_value busy_balances busy_prices) (5 # 100)).
  - reflexivity.
  - unfold Qle. cbn. lia.
Defined.

Lemma rebalance_no_trades (this : bot) (exchange : nat -> bool)
    (currentWeights balances0 prices : obj) :
  detect this currentWeights (portfolio_value balances0 prices) = [] ->
  rebalance this exchange currentWeights balances0 prices
  = (start balances0, [Done false]).
Proof. unfold rebalance. now intros ->. Qed.

(** X16.  The status message and the planner agree in one direction: when
    [rebalance] would flag a trade on the weights shown, the message says
    that rebalancing is needed; when the message says the portfolio is
    balanced, a pass on those weights makes no swap, leaves the balances,
    and reports that no rebalance is needed. *)
Theorem status_line_covers_the_planner
    (this : bot) (exchange : nat -> bool) (currentWeights balances0 prices : obj) :
  let trades := detect this currentWeights (portfolio_value balances0 prices) in
  (trades <> [] -> needsRebalance this currentWeights = true)
  /\ (needsRebalance this currentWeights = false ->
      rebalance this exchange currentWeights balances0 prices
      = (start balances0, [Done false])).
Proof.
  intro trades.
  assert (H : trades <> [] -> needsRebalance this currentWeights = true).
  { destruct trades as [|t rest] eqn:E; [congruence|]. intros _.
    assert (Ht : In t trades) by (rewrite E; now left).
    apply detect_In in Ht. destruct Ht as (Hk & Hd & Hthr & _).
    unfold needsRebalance. apply existsb_exists. exists (token t).
    split; [exact Hk|]. rewrite Hd in Hthr. exact Hthr. }
  split; [exact H|].
  intro Hn. apply rebalance_no_trades. fold trades.
  destruct trades; [reflexivity|].
  rewrite H in Hn; [discriminate|congruence].
Qed.

(** X17.  A portfolio worth nothing is left alone: when the total value is
    0 and the minimum trade value is not negative, no trade is flagged
    whatever the weights are, no swap is made and the balances stay. *)
Theorem worthless_portfolio_is_not_traded
    (this : bot) (exchange : nat -> bool) (currentWeights balances0 prices : obj)
    (m : Q)
    (Hvalue : portfolio_value balances0 prices = Fin 0)
    (Hmin : minTradeUSD this = Fin m) (Hm : (0 <= m)%Q) :
  detect this currentWeights (portfolio_value balances0 prices) = []
  /\ rebalance this exchange currentWeights balances0 prices
     = (start balances0, [Done false]).
Proof.
  assert (H : detect this currentWeights (portfolio_value balances0 prices) = []).
  { destruct (detect _ _ _) as [|t rest] eqn:E; [reflexivity|]. exfalso.
    assert (Ht : In t (detect this currentWeights (portfolio_value balances0 prices)))
      by (rewrite E; now left).
    apply detect_In in Ht. destruct Ht as (_ & _ & _ & Ht).
    rewrite Hvalue, Hmin in Ht.
    destruct (diff t) as [q| | |]; try discriminate.
    cbn [Num.mul Num.abs] in Ht. apply NumFacts.gtb_Fin in Ht.
    rewrite !Qred_correct in Ht.
    assert (Hz : (Qabs (q * 0) == 0)%Q).
    { setoid_replace (q * 0)%Q with 0%Q by ring. reflexivity. }
    rewrite Hz in Ht. lra. }
  split; [exact H|]. now apply rebalance_no_trades.
Qed.

Lemma worthless_portfolio_is_not_traded_witness :
  detect fresh_bot (calculateWeights [("WETH", Fin 0); ("cbBTC", Fin 0)] prices_a)
         (portfolio_value [("WETH", Fin 0); ("cbBTC", Fin 0)] prices_a) = []
  /\ rebalance fresh_bot (fun _ => true)
               (calculateWeights [("WETH", Fin 0); ("cbBTC", Fin 0)] prices_a)
               [("WETH", Fin 0); ("cbBTC", Fin 0)] prices_a
     = (start [("WETH", Fin 0); ("cbBTC", Fin 0)], [Done false]).
Proof.
  apply (worthless_portfolio_is_not_traded fresh_bot (fun _ => true)
           (calculateWeights [("WETH", Fin 0); ("cbBTC", Fin 0)] prices_a)
           [("WETH", Fin 0); ("cbBTC", Fin 0)] prices_a 5).
  - reflexivity.
  - reflexivity.
  - unfold Qle. cbn. lia.
Defined.

(** ** The buy loop *)

Lemma affordable_app (e1 e2 : list event) (B : obj) :
  affordable B (e1 ++ e2) <-> affordable B e1 /\ affordable (apply_stores B e1) e2.
Proof.
  revert B. induction e1 as [|e e1 IH]; intro B; cbn [app affordable apply_stores fold_left].
  - tauto.
  - fold (apply_stores (match e with Store tok v => Obj.set B tok v | _ => B end) e1).
    rewrite IH. tauto.
Qed.

Section BuyLoop.

Variables (this : bot) (exchange : nat -> bool) (prices : obj) (totalValue : num).

Local Abbreviation base := (baseToken this).
Local Abbreviation buy_step' := (buy_step this exchange prices totalValue).

(** One turn of the buy loop. *)
Lemma buy_step_spec (t : trade) (s : state) :
  Forall (buy_event base) (events_of (buy_step' t) s)
  /\ affordable (balances s) (events_of (buy_step' t) s)
  /\ balances (state_of (buy_step' t) s)
     = apply_stores (balances s) (events_of (buy_step' t) s)
  /\ forall tok, tok <> base ->
       Obj.get (balances (state_of (buy_step' t) s)) tok = Obj.get (balances s) tok.
Proof.
  unfold buy_step. run_step; eqb_props; cbn [apply_stores fold_left affordable];
    repeat split; trivial;
    repeat (apply Forall_cons; [cbn [buy_event]; auto|]); try apply Forall_nil;
    try congruence;
    try (intros tok Htok; now apply ObjFacts.get_set_ne).
Qed.

Lemma buy_loop_spec (l : list trade) (s : state) :
  Forall (buy_event base) (events_of (forEach l buy_step') s)
  /\ affordable (balances s) (events_of (forEach l buy_step') s)
  /\ balances (state_of (forEach l buy_step') s)
     = apply_stores (balances s) (events_of (forEach l buy_step') s)
  /\ forall tok, tok <> base ->
       Obj.get (balances (state_of (forEach l buy_step') s)) tok
       = Obj.get (balances s) tok.
Proof.
  revert s. induction l as [|t l IH]; intro s.
  - cbn. repeat split; trivial.
  - rewrite forEach_cons_events, forEach_cons_state.
    destruct (buy_step_spec t s) as (H1 & H2 & H3 & H4).
    destruct (IH (state_of (buy_step' t) s)) as (G1 & G2 & G3 & G4).
    repeat split.
    + apply Forall_app. now split.
    + apply affordable_app. split; [exact H2|]. now rewrite <- H3.
    + now rewrite apply_stores_app, <- H3.
    + intros tok Htok. now rewrite G4, H4.
Qed.

End BuyLoop.

(** X18.  The buy phase, from any state: every swap pays with the base
    token for another token an amount of at least 0.0001, and never more
    than the balance map holds of the base token at that moment; the phase
    writes the base token only, so the balance of a token bought stays as
    it was. *)
Theorem buy_phase_pays_from_the_base_balance
    (this : bot) (exchange : nat -> bool) (prices : obj) (totalValue : num)
    (trades : list trade) (s : state) :
  let run := buy_phase this exchange prices totalValue trades in
  Forall (buy_event (baseToken this)) (events_of run s)
  /\ affordable (balances s) (events_of run s)
  /\ forall tok, tok <> baseToken this ->
       Obj.get (balances (state_of run s)) tok = Obj.get (balances s) tok.
Proof.
  intro run. unfold run, buy_phase.
  destruct (buy_loop_spec this exchange prices totalValue
              (buyTrades trades) s) as (H1 & H2 & _ & H4).
  now repeat split.
Qed.

(** ** How many swaps a pass makes *)







Section Counts.

Variables (this : bot) (exchange : nat -> bool).
Variables (currentWeights prices : obj) (totalValue : num).












End Counts.

(** ** The calls of [swap] that touch one token *)





Section Touches.

Variables (this : bot) (exchange : nat -> bool).
Variables (currentWeights prices : obj) (totalValue : num).
Variable tok : string.
Hypothesis Htok : tok <> baseToken this.

Local Abbreviation base := (baseToken this).







(** The candidates of the base-token phase: one per key of the weights, and
    only keys whose weight is above the target. *)
Lemma overweightTokens_In (s : state) (o : overweight) :
  In o (result_of (overweightTokens this currentWeights prices totalValue) s) ->
  In (o_token o) (Obj.keys currentWeights)
  /\ (deviation this currentWeights (o_token o) >? Num.zero) = true.
Proof.
  unfold result_of, overweightTokens. cbn [fst]. rewrite in_flat_map.
  unfold deviation.
  intros (k & Hk & Hin). destruct (String.eqb k base); [contradiction|].
  cbn zeta in Hin. destruct (_ >? Num.zero) eqn:Hd; [|contradiction].
  destruct Hin as [<-|[]]. cbn [o_token]. auto.
Qed.


Lemma deficit_phase_trace (s : state) :
  exists needed,
    events_of (deficit_phase this exchange currentWeights prices totalValue) s
    = BaseUnderweight needed
      :: events_of
           (deficit_loop this exchange prices
              (sort (fun a b => excessValue b - excessValue a)
                 (result_of (overweightTokens this currentWeights prices totalValue) s))
              needed) s.
Proof.
  eexists. unfold deficit_phase. rewrite !bind_events. reflexivity.
Qed.






End Touches.



(** ** Where the sell phase leaves a token *)

Section SellResult.

Variables (this : bot) (exchange : nat -> bool) (prices : obj) (totalValue : num).

Local Abbreviation sell_step' := (sell_step this exchange prices totalValue).
Local Abbreviation base := (baseToken this).

(** The sell amount of a token is computed from the balance of that token
    alone. *)
Lemma sell_amount_frame (b1 b2 : obj) (tok : string) :
  Obj.get b1 tok = Obj.get b2 tok ->
  sell_amount this prices totalValue b1 tok
  = sell_amount this prices totalValue b2 tok.
Proof. intro H. unfold sell_amount. now rewrite H. Qed.

(** A sell turn leaves the balance of its token alone, or takes the sell
    amount off it, which is then at least the dust floor. *)
Lemma sell_step_result (t : trade) (s : state) :
  token t <> base ->
  let amount := sell_amount this prices totalValue (balances s) (token t) in
  let after := balances (state_of (sell_step' t) s) in
  Obj.get after (token t) = Obj.get (balances s) (token t)
  \/ (Obj.get after (token t) = Obj.get (balances s) (token t) - amount
      /\ (amount >=? sell_dust) = true).
Proof.
  intros Hb. unfold sell_amount, sell_step. run_step; auto.
  right. split; [|reflexivity].
  rewrite ObjFacts.get_set_ne by exact Hb. apply ObjFacts.get_set_eq.
Qed.

Lemma sell_loop_frame (l : list trade) (s : state) (tok : string) :
  ~ In tok (map token l) -> tok <> base ->
  Obj.get (balances (state_of (forEach l sell_step') s)) tok
  = Obj.get (balances s) tok.
Proof.
  revert s. induction l as [|t l IH]; intros s Hnin Hb; [reflexivity|].
  cbn [map In] in Hnin. rewrite forEach_cons_state.
  rewrite IH by tauto. apply sell_step_frame; [|exact Hb].
  intros ->. tauto.
Qed.

Lemma sell_loop_result (l : list trade) :
  NoDup (map token l) ->
  forall (s : state) (tok : string),
    tok <> base ->
    let amount := sell_amount this prices totalValue (balances s) tok in
    let after := balances (state_of (forEach l sell_step') s) in
    Obj.get after tok = Obj.get (balances s) tok
    \/ (In tok (map token l)
        /\ Obj.get after tok = Obj.get (balances s) tok - amount
        /\ (amount >=? sell_dust) = true).
Proof.
  induction l as [|t l IH]; intros Hnd s tok Hb; [now left|].
  cbn [map] in Hnd. apply NoDup_cons_iff in Hnd. destruct Hnd as [Ht Hnd].
  cbn zeta. rewrite forEach_cons_state.
  destruct (string_dec (token t) tok) as [E|E].
  - subst tok. rewrite sell_loop_frame by assumption.
    destruct (sell_step_result t s Hb) as [H|[H Hd]]; [now left|].
    right. repeat split; [now left|exact H|exact Hd].
  - destruct (IH Hnd (state_of (sell_step' t) s) tok Hb) as [H|(Hin & H & Hd)];
      cbn zeta in *.
    + left. rewrite H. apply sell_step_frame; [congruence|exact Hb].
    + assert (Hsame : Obj.get (balances (state_of (sell_step' t) s)) tok
                      = Obj.get (balances s) tok)
        by (apply sell_step_frame; [congruence|exact Hb]).
      rewrite (sell_amount_frame _ (balances s) tok Hsame) in H, Hd.
      rewrite Hsame in H.
      right. repeat split; [now right|exact H|exact Hd].
Qed.

End SellResult.

(** The magnitude of a positive number compares as the number itself. *)
Lemma abs_of_positive (x y : num) :
  (x >? Num.zero) = true -> (Num.abs x >? y) = (x >? y).
Proof.
  destruct x as [a| | |]; try discriminate; [|reflexivity].
  unfold Num.gtb, Num.zero. cbn [Num.ltb Num.abs]. intro H. apply Qltb_lt in H.
  destruct y as [b| | |]; try reflexivity.
  cbn [Num.ltb]. destruct (Qltb b a) eqn:E.
  - apply Qltb_lt. apply Qltb_lt in E. rewrite Qred_correct, Qabs_pos; lra.
  - apply Qltb_ge. apply Qltb_ge in E. rewrite Qred_correct, Qabs_pos; lra.
Qed.

(** X20.  The sell phase of a pass handles each token other than the base
    token at most once: after the phase the token has the balance it had at
    entry, or that balance less the sell amount computed from it (its
    value above the target value, over its price); in the second case the
    token was flagged with a weight above its target and the amount is at
    least the dust floor. *)
Theorem sell_phase_sells_once_or_not_at_all
    (this : bot) (exchange : nat -> bool) (currentWeights held prices : obj)
    (Hwf : Obj.wf currentWeights) :
  let totalValue := portfolio_value held prices in
  let trades := detect this currentWeights totalValue in
  let after_sells :=
    balances (state_of (sell_phase this exchange prices totalValue trades)
                       (start held)) in
  forall tok, tok <> baseToken this ->
    let amount := sell_amount this prices totalValue held tok in
    Obj.get after_sells tok = Obj.get held tok
    \/ (Obj.get after_sells tok = Obj.get held tok - amount
        /\ (amount >=? sell_dust) = true
        /\ In tok (Obj.keys currentWeights)
        /\ (deviation this currentWeights tok >? deviationThreshold this) = true).
Proof.
  intros totalValue trades after_sells tok Hb amount.
  unfold after_sells, sell_phase.
  destruct (sell_loop_result this exchange prices totalValue (sellTrades trades)
              (sellTrades_tokens this currentWeights totalValue Hwf)
              (start held) tok Hb) as [H|(Hin & H & Hd)]; [now left|].
  right. cbn [start balances] in H, Hd. repeat split; try assumption.
  all: apply in_map_iff in Hin; destruct Hin as (t & <- & Hin);
    apply sellTrades_In in Hin; destruct Hin as [Hin Hpos];
    apply detect_In in Hin; destruct Hin as (Hk & Hdiff & Habs & _).
  - exact Hk.
  - rewrite <- Hdiff, <- Habs. symmetry. now apply abs_of_positive.
Qed.

Lemma sell_phase_sells_once_or_not_at_all_witness :
  let totalValue := portfolio_value busy_balances busy_prices in
  let trades :=
    detect busy_bot (calculateWeights busy_balances busy_prices) totalValue in
  let after_sells :=
    balances (state_of (sell_phase busy_bot (fun _ => true) busy_prices totalValue
                          trades)
                       (start busy_balances)) in
  Forall (fun tok =>
            tok <> baseToken busy_bot ->
            let amount := sell_amount busy_bot busy_prices totalValue busy_balances tok in
            Obj.get after_sells tok = Obj.get busy_balances tok
            \/ (Obj.get after_sells tok = Obj.get busy_balances tok - amount
                /\ (amount >=? sell_dust) = true
                /\ In tok (Obj.keys (calculateWeights busy_balances busy_prices))
                /\ (deviation busy_bot (calculateWeights busy_balances busy_prices) tok
                    >? deviationThreshold busy_bot) = true))
         (Obj.keys busy_balances).
Proof.
  intros totalValue trades after_sells. apply Forall_forall. intros tok _.
  apply (sell_phase_sells_once_or_not_at_all busy_bot (fun _ => true)
           (calculateWeights busy_balances busy_prices) busy_balances busy_prices).
  sample_distinct.
Defined.

(** ** Where the base-token phase leaves the base token *)

Section BaseTarget.

Variables (this : bot) (exchange : nat -> bool) (held prices : obj).
Hypothesis Hbase : In (baseToken this) (Obj.keys held).

Local Abbreviation base := (baseToken this).

(** The base balance is a finite number not under [floor], and its value
    together with the need that remains is not above [target]. *)
Local Abbreviation within floor target remaining B :=
  (exists bb pb r,
     Obj.get B base = Fin bb /\ Obj.get prices base = Fin pb
     /\ remaining = Fin r
     /\ (0 < pb)%Q /\ (floor <= bb)%Q /\ (0 <= r)%Q /\ (bb * pb + r <= target)%Q).

(** With a need that is not a number the loop sells nothing. *)
Lemma deficit_loop_without_need (l : list overweight) (s : state) :
  state_of (deficit_loop this exchange prices l NaN) s = s.
Proof.
  induction l as [|o l IH]; [reflexivity|].
  cbn [deficit_loop]. change (NaN <=? Num.one) with false. cbv iota.
  rewrite bind_state.
  assert (H : deficit_step this exchange prices o NaN s = (NaN, s, [Skip (o_token o) NaN])).
  { unfold deficit_step.
    replace (Num.min (excessValue o) NaN) with NaN by now destruct (excessValue o).
    replace (NaN >? minTradeUSD this) with false by now destruct (minTradeUSD this).
    reflexivity. }
  unfold state_of at 2, result_of. rewrite H. cbn [fst snd]. exact IH.
Qed.

(** A turn of the loop keeps the base token within its target. *)
Lemma deficit_step_target (o : overweight) (remaining : num) (s : state)
    (floor target : Q) :
  o_token o <> base -> cand_ok prices (balances s) o ->
  (remaining <=? Num.one) = false ->
  within floor target remaining (balances s) ->
  within floor target
    (result_of (deficit_step this exchange prices o remaining) s)
    (balances (state_of (deficit_step this exchange prices o remaining) s)).
Proof.
  intros Hne (b & p & e & Hb & Hp & He & Hp0 & He0 & Hle) Hrem
         (bb & pb & r & Hbb & Hpb & -> & Hpb0 & Hfl & Hr & Hin).
  unfold deficit_step. rewrite He. run_step;
    try (exists bb, pb, r; now repeat split).
  match goal with H : (_ >? minTradeUSD this) = true |- _ => rename H into Hgt end.
  destruct (min_numbers e (Fin r) _ He0 Hrem Hgt) as (sv & Hsv & Hsv0 & Hsve).
  assert (Hsvr : (sv <= r)%Q).
  { cbn [Num.min Num.ltb] in Hsv. destruct (Qltb r e) eqn:E.
    - injection Hsv as <-. lra.
    - injection Hsv as <-. apply Qltb_ge in E. exact E. }
  rewrite Hsv. rewrite ObjFacts.get_set_eq, ObjFacts.get_set_ne by congruence.
  rewrite Hbb, Hpb.
  assert (Hpb1 : ~ (pb == 0)%Q) by lra.
  rewrite div_Fin by exact Hpb1. unfold slippage_factor. cbn [Num.mul Num.add Num.sub].
  eexists. exists pb. eexists. split; [reflexivity|]. split; [reflexivity|].
  split; [reflexivity|]. rewrite !Qred_correct.
  assert (Hq : (0 <= sv / pb)%Q) by (apply Qle_shift_div_l; lra).
  assert (Hv : ((bb + sv / pb * (98 # 100)) * pb == bb * pb + sv * (98 # 100))%Q)
    by (field; exact Hpb1).
  repeat split; lra.
Qed.

Lemma deficit_loop_target (l : list overweight) :
  NoDup (map o_token l) ->
  forall (remaining : num) (s : state) (floor target : Q),
    held_ok held (balances s) ->
    Num.positive (Obj.get prices base) ->
    Forall (fun o => o_token o <> base /\ cand_ok prices (balances s) o) l ->
    within floor target remaining (balances s) ->
    exists bb pb,
      Obj.get (balances (state_of (deficit_loop this exchange prices l remaining) s))
              base = Fin bb
      /\ Obj.get prices base = Fin pb
      /\ (floor <= bb)%Q /\ (bb * pb <= target)%Q.
Proof.
  induction l as [|o l IH]; intros Hnd remaining s floor target Hok Hprice Hall Hw;
    cbn [deficit_loop].
  - destruct Hw as (bb & pb & r & Hbb & Hpb & _ & _ & Hfl & Hr & Hin).
    exists bb, pb. repeat split; trivial. lra.
  - destruct (remaining <=? Num.one) eqn:Hrem.
    + destruct Hw as (bb & pb & r & Hbb & Hpb & _ & _ & Hfl & Hr & Hin).
      exists bb, pb. repeat split; trivial. lra.
    + cbn [map] in Hnd. apply NoDup_cons_iff in Hnd. destruct Hnd as [Ho Hnd].
      apply Forall_cons_iff in Hall. destruct Hall as [[Hne Hcand] Hall].
      destruct (deficit_step_inv this exchange held prices Hbase Hprice
                  o remaining s Hok Hne Hcand Hrem) as (_ & Hok' & Hframe).
      rewrite bind_state.
      apply IH; trivial.
      * rewrite Forall_forall in *. intros o' Ho'.
        destruct (Hall o' Ho') as [Hne' (b & p & e & Hb & Hrest)].
        split; [exact Hne'|]. exists b, p, e. split; [|exact Hrest].
        rewrite Hframe; [exact Hb| |exact Hne'].
        intro Heq. apply Ho. rewrite <- Heq. now apply in_map.
      * now apply deficit_step_target.
Qed.

End BaseTarget.

Lemma deficit_phase_state (this : bot) (exchange : nat -> bool)
    (currentWeights prices : obj) (totalValue : num) (s : state) :
  state_of (deficit_phase this exchange currentWeights prices totalValue) s
  = state_of
      (deficit_loop this exchange prices
         (sort (fun a b => excessValue b - excessValue a)
               (result_of (overweightTokens this currentWeights prices totalValue) s))
         (totalValue * Obj.get (weights this) (baseToken this)
          - Obj.get (balances s) (baseToken this)
            * Obj.get prices (baseToken this)))
      s.
Proof. unfold deficit_phase. rewrite !bind_state. reflexivity. Qed.

(** X21.  On balances and prices as the data model has them, the
    base-token phase of a pass never takes from the base token and never
    buys it past its target: after the phase the base balance is at least
    what the sell phase left, and it is either that same balance or worth
    no more than the target value of the base token. *)
Theorem base_phase_stops_at_the_target
    (this : bot) (exchange : nat -> bool) (held prices : obj)
    (trades : list trade)
    (Hsane : sane this held prices) :
  let totalValue := portfolio_value held prices in
  let currentWeights := calculateWeights held prices in
  let base := baseToken this in
  let s1 :=
    state_of (sell_phase this exchange prices totalValue trades) (start held) in
  let s2 :=
    state_of (base_phase this exchange currentWeights prices totalValue trades) s1 in
  (Obj.get (balances s1) base <=? Obj.get (balances s2) base) = true
  /\ (Obj.get (balances s2) base = Obj.get (balances s1) base
      \/ (Obj.get (balances s2) base * Obj.get prices base
          <=? totalValue * Obj.get (weights this) base) = true).
Proof.
  intros totalValue currentWeights base s1 s2.
  assert (Hbase : In base (Obj.keys held)) by apply Hsane.
  pose proof (sane_price this held prices Hsane _ Hbase) as Hprice.
  assert (Hinv1 : pass_inv this prices totalValue held (balances s1)).
  { apply (sell_loop_inv this exchange held prices Hsane).
    apply (inv_start this held prices Hsane). }
  pose proof (inv_held_ok this held prices _ Hinv1) as Hok1.
  destruct (held_ok_get held (balances s1) base Hok1 Hbase) as (bb & Hbb & Hbb0).
  subst s2.
  set (P := fun s' : state =>
              (Obj.get (balances s1) base <=? Obj.get (balances s') base) = true
              /\ (Obj.get (balances s') base = Obj.get (balances s1) base
                  \/ (Obj.get (balances s') base * Obj.get prices base
                      <=? totalValue * Obj.get (weights this) base) = true)).
  assert (Hsame : P s1).
  { split; [|now left]. rewrite Hbb. apply NumFacts.leb_Fin. lra. }
  change (P (state_of (base_phase this exchange currentWeights prices totalValue
                         trades) s1)).
  unfold base_phase. destruct (find _ _); [|exact Hsame].
  rewrite deficit_phase_state. fold base.
  set (cands := result_of _ s1).
  rewrite Hbb.
  destruct Hprice as (pb & Hpb & Hpb0). rewrite Hpb.
  destruct (sane_total this held prices Hsane) as (T & HT & _ & HT0 & _).
  fold totalValue in HT. rewrite HT.
  destruct (sane_weight this held prices Hsane base) as [Hw|(w & Hw & Hw0)];
    rewrite Hw.
  - cbn [Num.mul Num.sub]. rewrite deficit_loop_without_need. exact Hsame.
  - cbn [Num.mul Num.sub].
    set (needed := Qred (Qred (T * w) - Qred (bb * pb))).
    destruct (Fin needed <=? Num.one) eqn:Hrem.
    { unfold state_of.
      rewrite (deficit_loop_stops this exchange prices _ _ s1 Hrem). exact Hsame. }
    assert (Hn : (1 < needed)%Q).
    { apply Qnot_le_lt. intro H. apply NumFacts.leb_Fin in H.
      unfold Num.one in Hrem. congruence. }
    destruct (deficit_loop_target this exchange held prices Hbase
                (sort (fun a b => excessValue b - excessValue a) cands))
      with (remaining := Fin needed) (s := s1) (floor := bb) (target := (T * w)%Q)
      as (bb' & pb' & Hbb' & Hpb' & Hfl & Htar).
    + eapply Permutation_NoDup; [apply Permutation_map, sort_perm|].
      apply (candidates_distinct this held prices Hsane s1).
    + exact Hok1.
    + exists pb. now split.
    + apply sort_Forall.
      apply (candidates_ok this held prices Hsane s1 Hinv1).
    + exists bb, pb, needed. repeat split; trivial; try lra.
      unfold needed. rewrite !Qred_correct. lra.
    + fold base in Hbb', Hpb'. rewrite Hpb in Hpb'. injection Hpb' as <-.
      unfold P. rewrite Hbb', Hbb, Hpb, HT, Hw. split.
      * apply NumFacts.leb_Fin. exact Hfl.
      * right. cbn [Num.mul]. apply NumFacts.leb_Fin. rewrite !Qred_correct. exact Htar.
Qed.

Lemma base_phase_stops_at_the_target_witness :
  let totalValue := portfolio_value shortfall_balances shortfall_prices in
  let currentWeights := calculateWeights shortfall_balances shortfall_prices in
  let trades := detect shortfall_bot currentWeights totalValue in
  let s1 :=
    state_of (sell_phase shortfall_bot (fun _ => true) shortfall_prices totalValue trades)
             (start shortfall_balances) in
  let s2 :=
    state_of (base_phase shortfall_bot (fun _ => true) currentWeights
                shortfall_prices totalValue trades) s1 in
  Obj.get (balances s1) "WETH" = Fin 450
  /\ Obj.get (balances s2) "WETH" = Fin 499
  /\ (Obj.get (balances s1) "WETH" <=? Obj.get (balances s2) "WETH") = true
  /\ (Obj.get (balances s2) "WETH" = Obj.get (balances s1) "WETH"
      \/ (Obj.get (balances s2) "WETH" * Obj.get shortfall_prices "WETH"
          <=? totalValue * Obj.get (weights shortfall_bot) "WETH") = true).
Proof.
  split; [reflexivity|]. split; [reflexivity|].
  apply (base_phase_stops_at_the_target shortfall_bot (fun _ => true)
           shortfall_balances shortfall_prices).
  unfold sane. repeat split.
  - sample_distinct.
  - cbn. auto.
  - sample_all.
  - cbn. repeat (apply Forall_cons;
                 [cbn; eexists; split; [reflexivity|unfold Qlt; cbn; lia]|]).
    apply Forall_nil.
  - sample_all.
Defined.

(** ** Configuration and the planner *)

Lemma leb_ltb_trans (x y z : num) :
  (x <=? y) = true -> (y <? z) = true -> (x <? z) = true.
Proof.
  destruct x as [a| | |], y as [b| | |], z as [c| | |]; cbn [Num.leb Num.ltb];
    try discriminate; try reflexivity.
  intros H1 H2. apply Qle_bool_iff in H1. apply Qltb_lt in H2. apply Qltb_lt. lra.
Qed.

(** X22.  Raising the deviation threshold or the minimum trade value, as
    [POST /api/config] does when it keeps the weights, never flags a trade
    that was not flagged before: on the same weights and total value the
    trades of the new settings are among the trades of the old. *)
Theorem higher_thresholds_flag_no_new_trade
    (this : bot) (threshold minTrade : num) (currentWeights : obj) (totalValue : num)
    (Hthreshold : (deviationThreshold this <=? threshold) = true)
    (HminTrade : (minTradeUSD this <=? minTrade) = true) :
  let this' := with_config this threshold minTrade (weights this) in
  incl (detect this' currentWeights totalValue)
       (detect this currentWeights totalValue).
Proof.
  intros this' t Ht. apply detect_In in Ht. apply detect_In.
  destruct Ht as (Hk & Hd & H1 & H2). repeat split; trivial.
  - now apply (leb_ltb_trans _ threshold).
  - now apply (leb_ltb_trans _ minTrade).
Qed.

Lemma higher_thresholds_flag_no_new_trade_witness :
  let this' := with_config busy_bot (Fin (1 # 10)) (Fin 20) (weights busy_bot) in
  incl (detect this' (calculateWeights busy_balances busy_prices)
               (portfolio_value busy_balances busy_prices))
       (detect busy_bot (calculateWeights busy_balances busy_prices)
               (portfolio_value busy_balances busy_prices)).
Proof.
  apply (higher_thresholds_flag_no_new_trade busy_bot (Fin (1 # 10)) (Fin 20)
           (calculateWeights busy_balances busy_prices)
           (portfolio_value busy_balances busy_prices)); reflexivity.
Defined.

Lemma no_deviation (x : num) (d : Q) :
  (0 <= d)%Q -> (Num.abs (x - x) >? Fin d) = false.
Proof.
  intro Hd. destruct x as [q| | |]; try reflexivity.
  cbn [Num.sub Num.abs]. apply Bool.not_true_iff_false. intro H.
  apply NumFacts.gtb_Fin in H. rewrite !Qred_correct in H.
  assert (Hz : (Qabs (q - q) == 0)%Q).
  { setoid_replace (q - q)%Q with 0%Q by ring. reflexivity. }
  rewrite Hz in H. lra.
Qed.

(** X23.  A portfolio that is on target is left alone: when every current
    weight equals the target weight of its token and the deviation
    threshold is not negative, the status message says the portfolio is
    balanced, and a pass flags no trade, makes no swap and leaves the
    balances. *)
Theorem portfolio_on_target_is_not_traded
    (this : bot) (exchange : nat -> bool) (currentWeights balances0 prices : obj)
    (d : Q)
    (Htarget : forall tok, In tok (Obj.keys currentWeights) ->
                 Obj.get currentWeights tok = Obj.get (weights this) tok)
    (Hthreshold : deviationThreshold this = Fin d) (Hd : (0 <= d)%Q) :
  needsRebalance this currentWeights = false
  /\ rebalance this exchange currentWeights balances0 prices
     = (start balances0, [Done false]).
Proof.
  assert (Hn : needsRebalance this currentWeights = false).
  { unfold needsRebalance. apply Bool.not_true_iff_false. intro H.
    apply existsb_exists in H. destruct H as (tok & Hin & H).
    rewrite (Htarget tok Hin), Hthreshold, no_deviation in H by exact Hd.
    discriminate. }
  split; [exact Hn|].
  apply rebalance_no_trades.
  destruct (detect _ _ _) as [|t rest] eqn:E; [reflexivity|]. exfalso.
  assert (Ht : In t (detect this currentWeights (portfolio_value balances0 prices)))
    by (rewrite E; now left).
  apply detect_In in Ht. destruct Ht as (Hk & Hdiff & H & _).
  rewrite Hdiff in H. unfold deviation in H.
  rewrite (Htarget _ Hk), Hthreshold, no_deviation in H by exact Hd.
  discriminate.
Qed.

Lemma portfolio_on_target_is_not_traded_witness :
  needsRebalance busy_bot (weights busy_bot) = false
  /\ rebalance busy_bot (fun _ => true) (weights busy_bot)
               [("cbBTC", Fin 250); ("cbXRP", Fin 250); ("AAVE", Fin 250);
                ("WETH", Fin 250)] busy_prices
     = (start [("cbBTC", Fin 250); ("cbXRP", Fin 250); ("AAVE", Fin 250);
               ("WETH", Fin 250)], [Done false]).
Proof.
  apply (portfolio_on_target_is_not_traded busy_bot (fun _ => true)
           (weights busy_bot)
           [("cbBTC", Fin 250); ("cbXRP", Fin 250); ("AAVE", Fin 250);
            ("WETH", Fin 250)] busy_prices (5 # 100)).
  - reflexivity.
  - reflexivity.
  - unfold Qle. cbn. lia.
Defined.
(** ** The tokens a turn of the polling loop touches *)

Section Within.

Variables (this : bot) (exchange : nat -> bool).
Variables (currentWeights prices : obj) (totalValue : num).
Variable names : list string.
Hypothesis Hbase : In (baseToken this) names.
Hypothesis Hkeys : incl (Obj.keys currentWeights) names.

Lemma sell_step_within (t : trade) :
  In (token t) names ->
  emits (within names) (sell_step this exchange prices totalValue t).
Proof.
  intro Ht. unfold sell_step. emits_steps; cbn [within]; auto.
Qed.

Lemma buy_step_within (t : trade) :
  In (token t) names ->
  emits (within names) (buy_step this exchange prices totalValue t).
Proof.
  intro Ht. unfold buy_step. emits_steps; cbn [within]; auto.
Qed.

Lemma deficit_step_within (o : overweight) (remaining : num) :
  In (o_token o) names ->
  emits (within names) (deficit_step this exchange prices o remaining).
Proof.
  intro Ht. unfold deficit_step. emits_steps; cbn [within]; auto.
Qed.

Lemma deficit_loop_within (l : list overweight) :
  Forall (fun o => In (o_token o) names) l ->
  forall remaining s,
    Forall (within names)
           (events_of (deficit_loop this exchange prices l remaining) s).
Proof.
  induction 1 as [|o l Ho _ IH]; intros remaining s; [constructor|].
  destruct (remaining <=? Num.one) eqn:E.
  - unfold events_of. rewrite deficit_loop_stops by exact E. constructor.
  - rewrite deficit_loop_goes_on by exact E. apply Forall_app. split; [|apply IH].
    now apply emits_events, deficit_step_within.
Qed.

Lemma base_phase_within (trades : list trade) (s : state) :
  Forall (within names)
         (events_of (base_phase this exchange currentWeights prices totalValue trades) s).
Proof.
  unfold base_phase. destruct (find _ _); [|constructor].
  destruct (deficit_phase_trace this exchange currentWeights prices totalValue s)
    as [needed ->].
  constructor; [exact I|]. apply deficit_loop_within.
  apply Forall_forall. intros o Hin. apply sort_In in Hin.
  apply overweightTokens_In in Hin. apply Hkeys, Hin.
Qed.

Lemma run_trades_within (s : state) :
  Forall (within names)
         (events_of
            (run_trades this exchange currentWeights prices totalValue
               (detect this currentWeights totalValue)) s).
Proof.
  assert (Hin : forall t, In t (detect this currentWeights totalValue) ->
                          In (token t) names).
  { intros t Ht. apply detect_In in Ht. apply Hkeys, Ht. }
  unfold run_trades.
  destruct (detect this currentWeights totalValue) as [|t rest] eqn:E;
    [repeat constructor|].
  rewrite <- E in *. rewrite !bind_events.
  repeat (apply Forall_app; split).
  - apply emits_events, emits_forEach. intros x Hx. apply sell_step_within, Hin.
    now apply sellTrades_In in Hx.
  - apply base_phase_within.
  - apply emits_events, emits_forEach. intros x Hx. apply buy_step_within, Hin.
    now apply buyTrades_In in Hx.
  - repeat constructor.
Qed.

End Within.

(** Stores on keys that are there keep the keys and their order. *)
Lemma apply_stores_keys (names : list string) (es : list event) :
  Forall (within names) es ->
  forall B, Obj.keys B = names -> Obj.keys (apply_stores B es) = names.
Proof.
  unfold apply_stores.
  induction 1 as [|e es He _ IH]; intros B HB; cbn [fold_left]; [exact HB|].
  apply IH. destruct e; try exact HB.
  cbn [within] in He. rewrite ObjFacts.keys_set_In; [exact HB|now rewrite HB].
Qed.

(** X6.  A turn of the polling loop stays within the six tokens of the
    bot, whatever the prices, the balances read and the weights: every
    call of [swap] of the pass is between two of the six tokens, every
    store writes the balance of one of them, and the balance map ends on
    the six tokens, in the order of [this.tokens]. *)
Theorem cycle_stays_within_the_six_tokens
    (cw : custom_weights) (threshold minTrade : num) (baseline : obj)
    (calls : list price_call) (reading : string -> option num)
    (now : Z) (r : response) (now' : Z) (exchange : nat -> bool) :
  let this := poll (constructor cw threshold minTrade baseline) calls in
  match snd (cycle this reading now r now' exchange) with
  | Some (_, (s, es)) =>
      Forall (within tokens) es /\ Obj.keys (balances s) = tokens
  | None =>
      returned (getPrices this now r now') = None
  end.
Proof.
  intro this.
  destruct (poll_keeps_config calls (constructor cw threshold minTrade baseline))
    as (_ & Hbt & _). fold this in Hbt.
  destruct (getPrices_keeps_config this now r now') as (_ & Hbt' & _).
  unfold cycle.
  destruct (returned (getPrices this now r now')) as [p|] eqn:Eret;
    cbn [snd]; [|reflexivity].
  set (b := after (getPrices this now r now')) in *.
  set (held := getBalances reading).
  destruct (rebalance b exchange (calculateWeights held p) held p) as [s es] eqn:Erun.
  pose proof (rebalance_events b exchange (calculateWeights held p) held p) as He.
  pose proof (rebalance_state b exchange (calculateWeights held p) held p) as Hst.
  rewrite Erun in He, Hst. cbn [fst snd] in He, Hst.
  assert (Hes : Forall (within tokens) es).
  { rewrite He. apply run_trades_within.
    - rewrite Hbt', Hbt. cbn. auto.
    - rewrite calculateWeights_keys. unfold held. rewrite getBalances_keys.
      apply incl_refl. }
  split; [exact Hes|].
  rewrite Hst, run_trades_tracks, <- He. cbn [start balances].
  apply apply_stores_keys; [exact Hes|apply getBalances_keys].
Qed.
